(** * SPL compiler middle end: symbol table, semantic analyzer, code generator, inliner

    A shallow embedding of [symbol_table.py], [semantic_analyzer.py],
    [code_gen.py] and [inline.py].  Python dictionaries are [gmap]s, lists are
    lists, exceptions are an explicit result type and the mutable fields of an
    object are a record threaded through the calls.  IR instructions are the
    strings the code builds with f-strings. *)

From Stdlib Require Import ZArith String Ascii Lia Bool.
From Stdlib Require Import DecimalString DecimalNat.
From stdpp Require Import base option list gmap strings.

Local Open Scope string_scope.
Local Open Scope list_scope.
Set Warnings "-register-all".

(** ** Results of code that may raise *)

Inductive result (E A : Type) : Type :=
| Ok (a : A)
| Raise (e : E).
Arguments Ok {E A} a.
Arguments Raise {E A} e.

Global Instance result_ret {E} : MRet (result E) := fun _ a => Ok a.
Global Instance result_bind {E} : MBind (result E) := fun _ _ k r =>
  match r with
  | Ok a => k a
  | Raise e => Raise e
  end.

Definition is_ok {E A} (r : result E A) : bool :=
  match r with Ok _ => true | Raise _ => false end.

(** ** Text *)

Module Text.

(** [str(n)] of a non-negative Python int. *)
Definition str_of_nat (n : nat) : string :=
  NilEmpty.string_of_uint (Nat.to_uint n).

(** [str(z)] of a Python int. *)
Definition str_of_Z (z : Z) : string :=
  NilZero.string_of_int (Z.to_int z).

Definition is_digit (c : ascii) : bool :=
  let n := nat_of_ascii c in (48 <=? n)%nat && (n <=? 57)%nat.

Fixpoint all_chars (p : ascii -> bool) (s : string) : bool :=
  match s with
  | EmptyString => true
  | String c s' => p c && all_chars p s'
  end.

Definition underscore : ascii := "_"%char.
Definition dquote : ascii := ascii_of_nat 34.
Definition newline : ascii := ascii_of_nat 10.

(** *** Character classes and matching primitives

    IR text is ASCII; [\d] and [\w] are their ASCII classes. *)

Definition is_lower (c : ascii) : bool :=
  let n := nat_of_ascii c in (97 <=? n)%nat && (n <=? 122)%nat.
Definition is_upper (c : ascii) : bool :=
  let n := nat_of_ascii c in (65 <=? n)%nat && (n <=? 90)%nat.

(** [\w] *)
Definition is_word (c : ascii) : bool :=
  is_lower c || is_upper c || is_digit c || Ascii.eqb c underscore.

(** The characters [str.strip()] removes. *)
Definition is_space (c : ascii) : bool :=
  let n := nat_of_ascii c in
  ((9 <=? n)%nat && (n <=? 13)%nat) || ((28 <=? n)%nat && (n <=? 32)%nat).

(** The longest prefix whose characters satisfy [p], and the rest. *)
Fixpoint span (p : ascii -> bool) (s : string) : string * string :=
  match s with
  | EmptyString => ("", "")
  | String c s' =>
      if p c then let '(a, b) := span p s' in (String c a, b) else ("", s)
  end.

(** [s] without the prefix [pre], when it starts with it. *)
Fixpoint strip_prefix (pre s : string) : option string :=
  match pre with
  | EmptyString => Some s
  | String c pre' =>
      match s with
      | EmptyString => None
      | String d s' => if Ascii.eqb c d then strip_prefix pre' s' else None
      end
  end.

(** [s] without the suffix [suf], when it ends with it. *)
Fixpoint strip_suffix (suf s : string) : option string :=
  if String.eqb s suf then Some ""
  else match s with
       | EmptyString => None
       | String c s' => option_map (String c) (strip_suffix suf s')
       end.

(** The text before and after the last occurrence of [sep]. *)
Fixpoint split_last (sep : ascii) (s : string) : option (string * string) :=
  match s with
  | EmptyString => None
  | String c s' =>
      match split_last sep s' with
      | Some (a, b) => Some (String c a, b)
      | None => if Ascii.eqb c sep then Some ("", s') else None
      end
  end.

(** [$] of a pattern compiled without flags matches at the end of the string
    and just before a newline that ends it.  Every pattern below puts a
    digit or a closing parenthesis before [$], so matching [line] up to [$] is
    matching all of [chomp line]. *)
Fixpoint chomp (s : string) : string :=
  match s with
  | EmptyString => ""
  | String c EmptyString => if Ascii.eqb c newline then "" else s
  | String c s' => String c (chomp s')
  end.

Definition no_newline (c : ascii) : bool := negb (Ascii.eqb c newline).
Definition not_char (sep c : ascii) : bool := negb (Ascii.eqb c sep).

(** [\d+] *)
Definition digits1 (s : string) : bool :=
  negb (String.eqb s "") && all_chars is_digit s.

(** [t\d+] *)
Definition is_temp (s : string) : bool :=
  match s with
  | String c d => Ascii.eqb c "t"%char && digits1 d
  | EmptyString => false
  end.

(** [L\d+] *)
Definition is_label (s : string) : bool :=
  match s with
  | String c d => Ascii.eqb c "L"%char && digits1 d
  | EmptyString => false
  end.

(** [s] is some text, then ["_"], then [\d+]. *)
Fixpoint ends_sep_digits (s : string) : bool :=
  match s with
  | EmptyString => false
  | String c s' => (Ascii.eqb c underscore && digits1 s') || ends_sep_digits s'
  end.

(** [v_\w+_\d+] *)
Definition is_unique_name (s : string) : bool :=
  match strip_prefix "v_" s with
  | Some (String c r) => all_chars is_word (String c r) && ends_sep_digits r
  | _ => false
  end.

(** [(t\d+|v_\w+_\d+)] *)
Definition is_place (s : string) : bool := is_temp s || is_unique_name s.

Fixpoint lstrip (s : string) : string :=
  match s with
  | EmptyString => ""
  | String c s' => if is_space c then lstrip s' else s
  end.

Fixpoint rstrip (s : string) : string :=
  match s with
  | EmptyString => ""
  | String c s' =>
      match rstrip s' with
      | EmptyString => if is_space c then "" else String c ""
      | r => String c r
      end
  end.

(** [s.strip()] *)
Definition strip (s : string) : string := rstrip (lstrip s).

(** [s.startswith(pre)] *)
Definition startswith (pre s : string) : bool :=
  match strip_prefix pre s with Some _ => true | None => false end.

(** [s.split(sep)] for a one-character separator. *)
Fixpoint split_on (sep : ascii) (s : string) : list string :=
  match s with
  | EmptyString => [""]
  | String c s' =>
      if Ascii.eqb c sep then "" :: split_on sep s'
      else match split_on sep s' with
           | [] => [String c ""]
           | w :: ws => String c w :: ws
           end
  end.

End Text.

(** ** symbol_table.py *)

Module SymbolTable.

(** The four values of [SymbolInfo.kind]. *)
Inductive Kind : Type := kind_var | kind_proc | kind_func | kind_param.

Global Instance Kind_eq_dec : EqDecision Kind.
Proof. solve_decision. Defined.

(** [SymbolInfo].  [node_id] stands for [id(node)]: object identity is not
    part of the embedding, the caller supplies the number.  The [extra]
    dictionary is created empty and never read, it is left out. *)
Record SymbolInfo : Type := mkSymbolInfo {
  name : string;
  kind : Kind;
  decl_type : option string;
  scope_level : nat;
  unique_name : string;
  node_id : nat
}.

Inductive SymbolTableError : Type :=
| NoScopeToExit
| NoScopeToDeclare
| DuplicateDeclaration (name : string)
| NotDeclared (name : string)
| GlobalNameClash (var_func var_proc func_proc : gset string)
| ParamShadowing (shadow : gset string).

(** The scope stack is a Python list used as a stack: the innermost scope is
    the LAST element, [_scopes[0]] is the first scope entered. *)
Record SymbolTable : Type := mkSymbolTable {
  _scopes : list (gmap string SymbolInfo);
  _scope_meta : list (string * nat);
  _name_counters : gmap string nat;
  _global_procs : gmap string SymbolInfo;
  _global_funcs : gmap string SymbolInfo;
  _unique_prefix : string
}.

Definition init (base_unique_prefix : string) : SymbolTable :=
  mkSymbolTable [] [] ∅ ∅ ∅ base_unique_prefix.

Definition enter_scope (scope_kind : string) (node_id : nat) (self : SymbolTable)
  : SymbolTable :=
  mkSymbolTable (_scopes self ++ [∅]) (_scope_meta self ++ [(scope_kind, node_id)])
    (_name_counters self) (_global_procs self) (_global_funcs self)
    (_unique_prefix self).

Definition exit_scope (self : SymbolTable) : result SymbolTableError SymbolTable :=
  match _scopes self with
  | [] => Raise NoScopeToExit
  | _ :: _ =>
      Ok (mkSymbolTable (removelast (_scopes self)) (removelast (_scope_meta self))
            (_name_counters self) (_global_procs self) (_global_funcs self)
            (_unique_prefix self))
  end.

Definition current_scope_level (self : SymbolTable) : nat := length (_scopes self).

(** f"{prefix}_{base_name}_{c}" *)
Definition format_unique (prefix base_name : string) (c : nat) : string :=
  prefix +:+ "_" +:+ base_name +:+ "_" +:+ Text.str_of_nat c.

Definition _gen_unique_name (base_name : string) (self : SymbolTable)
  : string * SymbolTable :=
  let c := default 0 (_name_counters self !! base_name) + 1 in
  (format_unique (_unique_prefix self) base_name c,
   mkSymbolTable (_scopes self) (_scope_meta self)
     (<[base_name := c]> (_name_counters self))
     (_global_procs self) (_global_funcs self) (_unique_prefix self)).

Definition _declare (name : string) (kind : Kind) (decl_type : option string)
    (node_id : nat) (self : SymbolTable)
  : result SymbolTableError (SymbolInfo * SymbolTable) :=
  match last (_scopes self) with
  | None => Raise NoScopeToDeclare
  | Some curr =>
      match curr !! name with
      | Some _ => Raise (DuplicateDeclaration name)
      | None =>
          let scope_level := length (_scopes self) in
          let '(unique_name, self1) := _gen_unique_name name self in
          let info := mkSymbolInfo name kind decl_type scope_level unique_name node_id in
          let scopes' :=
            <[length (_scopes self1) - 1 := <[name := info]> curr]> (_scopes self1) in
          let procs' :=
            if decide (scope_level = 1 /\ kind = kind_proc)
            then <[name := info]> (_global_procs self1) else _global_procs self1 in
          let funcs' :=
            if decide (scope_level = 1 /\ kind = kind_func)
            then <[name := info]> (_global_funcs self1) else _global_funcs self1 in
          Ok (info, mkSymbolTable scopes' (_scope_meta self1) (_name_counters self1)
                      procs' funcs' (_unique_prefix self1))
      end
  end.

Definition declare_var (name : string) (node_id : nat) (decl_type : string) :=
  _declare name kind_var (Some decl_type) node_id.
Definition declare_param (name : string) (node_id : nat) (decl_type : string) :=
  _declare name kind_param (Some decl_type) node_id.
Definition declare_proc (name : string) (node_id : nat) :=
  _declare name kind_proc None node_id.
Definition declare_func (name : string) (node_id : nat) :=
  _declare name kind_func None node_id.

(** [for scope in reversed(self._scopes)] *)
Fixpoint lookup_scan (name : string) (reversed_scopes : list (gmap string SymbolInfo))
  : option SymbolInfo :=
  match reversed_scopes with
  | [] => None
  | scope :: outer =>
      match scope !! name with
      | Some info => Some info
      | None => lookup_scan name outer
      end
  end.

Definition lookup (name : string) (self : SymbolTable) : option SymbolInfo :=
  lookup_scan name (reverse (_scopes self)).

Definition names_of_kind (k : Kind) (scope : gmap string SymbolInfo) : gset string :=
  dom (filter (fun p => kind p.2 = k) scope).

Definition check_no_global_name_clashes (self : SymbolTable)
  : result SymbolTableError unit :=
  match _scopes self with
  | [] => Ok tt
  | global_scope :: _ =>
      let vars_ := names_of_kind kind_var global_scope in
      let procs_ := names_of_kind kind_proc global_scope in
      let funcs_ := names_of_kind kind_func global_scope in
      if decide (vars_ ∩ funcs_ = ∅ /\ vars_ ∩ procs_ = ∅ /\ funcs_ ∩ procs_ = ∅)
      then Ok tt
      else Raise (GlobalNameClash (vars_ ∩ funcs_) (vars_ ∩ procs_) (funcs_ ∩ procs_))
  end.

Definition check_no_shadowing_of_params (param_names local_names : list string)
  : result SymbolTableError unit :=
  let shadow : gset string := list_to_set param_names ∩ list_to_set local_names in
  if decide (shadow = ∅) then Ok tt else Raise (ParamShadowing shadow).

(** *** A table's lifetime as a sequence of calls *)

Inductive Op : Type :=
| op_enter_scope (scope_kind : string) (node_id : nat)
| op_exit_scope
| op_declare (name : string) (kind : Kind) (decl_type : option string) (node_id : nat).

(** Runs the calls in order on one table; a call that raises leaves the table
    as it was (neither [exit_scope] nor [_declare] writes before raising).
    Returns the [SymbolInfo] of every declare that succeeded. *)
Fixpoint run (ops : list Op) (self : SymbolTable) : list SymbolInfo * SymbolTable :=
  match ops with
  | [] => ([], self)
  | op_enter_scope k n :: ops' => run ops' (enter_scope k n self)
  | op_exit_scope :: ops' =>
      match exit_scope self with
      | Ok self' => run ops' self'
      | Raise _ => run ops' self
      end
  | op_declare nm k ty n :: ops' =>
      match _declare nm k ty n self with
      | Ok (info, self') =>
          let '(infos, final) := run ops' self' in (info :: infos, final)
      | Raise _ => run ops' self
      end
  end.

End SymbolTable.

(** ** ast_nodes.py *)

Module Ast.

(** The analyzer computes these two types; [node_types] maps a node to one. *)
Inductive Ty : Type := numeric | boolean.

Global Instance Ty_eq_dec : EqDecision Ty.
Proof. solve_decision. Defined.

Inductive UnOp : Type := op_neg | op_not.
Inductive BinOp : Type :=
| op_plus | op_minus | op_mult | op_div | op_eq | op_gt | op_and | op_or.

Global Instance UnOp_eq_dec : EqDecision UnOp.
Proof. solve_decision. Defined.
Global Instance BinOp_eq_dec : EqDecision BinOp.
Proof. solve_decision. Defined.

(** [VarNode].  [symbol_info] is the attribute the analyzer sets on the
    node when it resolves the name; [None] is a node not yet annotated. *)
Record VarNode : Type := mkVarNode {
  var_name : string;
  symbol_info : option SymbolTable.SymbolInfo
}.

(** [AtomNode.value] is a [VarNode] or an [int]. *)
Inductive AtomNode : Type :=
| AtomVar (value : VarNode)
| AtomInt (value : Z).

(** [TermNode.value] is an [AtomNode] or a [ParenTermNode], whose [term] is a
    [UnaryOperationNode] or a [BinaryOperationNode].  The analyzer's
    [node_types] dictionary is keyed by [id(node)] and the generator reads it
    at binary operations only: the entry of a binary node is kept on the node
    ([node_type], [None] when the dictionary has no entry). *)
Inductive TermNode : Type :=
| TermAtom (value : AtomNode)
| TermParen (value : ParenTermNode)
with ParenTermNode : Type :=
| UnaryOperationNode (operator : UnOp) (operand : TermNode)
| BinaryOperationNode (left_operand : TermNode) (operator : BinOp)
    (right_operand : TermNode) (node_type : option Ty).

(** The right-hand side of an assignment. *)
Inductive RhsNode : Type :=
| RhsAtom (a : AtomNode)
| FunctionCallNode (name : VarNode) (arguments : list AtomNode)
| RhsParen (p : ParenTermNode).

(** Instructions; an [AlgorithmNode] is the list of its instructions. *)
Inductive Instr : Type :=
| HaltNode
| PrintNode (output : AtomNode + string)
| AssignmentNode (variable : VarNode) (rhs : RhsNode)
| ProcedureCallNode (name : VarNode) (arguments : list AtomNode)
| WhileLoopNode (condition : TermNode) (body : list Instr)
| DoUntilLoopNode (body : list Instr) (condition : TermNode)
| IfBranchNode (condition : TermNode) (then_branch : list Instr)
    (else_branch : option (list Instr)).

Definition AlgorithmNode : Type := list Instr.

Scheme TermNode_mut := Induction for TermNode Sort Prop
  with ParenTermNode_mut := Induction for ParenTermNode Sort Prop.
Combined Scheme Term_mutind from TermNode_mut, ParenTermNode_mut.

(** Induction on instructions that reaches into the bodies. *)
Section Instr_nested_ind.
Variable P : Instr -> Prop.
Hypothesis case_halt : P HaltNode.
Hypothesis case_print : forall o, P (PrintNode o).
Hypothesis case_assign : forall v r, P (AssignmentNode v r).
Hypothesis case_call : forall n a, P (ProcedureCallNode n a).
Hypothesis case_while : forall c b, Forall P b -> P (WhileLoopNode c b).
Hypothesis case_do : forall b c, Forall P b -> P (DoUntilLoopNode b c).
Hypothesis case_if : forall c t, Forall P t -> P (IfBranchNode c t None).
Hypothesis case_if_else :
  forall c t e, Forall P t -> Forall P e -> P (IfBranchNode c t (Some e)).

Fixpoint Instr_nested_ind (i : Instr) : P i :=
  let all := fix all (l : list Instr) : Forall P l :=
    match l with
    | [] => Forall_nil_2 P
    | x :: r => Forall_cons_2 P x r (Instr_nested_ind x) (all r)
    end in
  match i with
  | HaltNode => case_halt
  | PrintNode o => case_print o
  | AssignmentNode v r => case_assign v r
  | ProcedureCallNode n a => case_call n a
  | WhileLoopNode c b => case_while c b (all b)
  | DoUntilLoopNode b c => case_do b c (all b)
  | IfBranchNode c t None => case_if c t (all t)
  | IfBranchNode c t (Some e) => case_if_else c t e (all t) (all e)
  end.
End Instr_nested_ind.

Record ProcedureDefNode : Type := mkProcedureDefNode {
  proc_name : VarNode;
  proc_params : list VarNode;
  proc_locals : list VarNode;
  proc_algorithm : AlgorithmNode
}.

Record FunctionDefNode : Type := mkFunctionDefNode {
  func_name : VarNode;
  func_params : list VarNode;
  func_locals : list VarNode;
  func_algorithm : AlgorithmNode;
  return_atom : AtomNode
}.

Record MainProgNode : Type := mkMainProgNode {
  main_locals : list VarNode;
  main_algorithm : AlgorithmNode
}.

Record ProgramNode : Type := mkProgramNode {
  globals : list VarNode;
  procs : list ProcedureDefNode;
  funcs : list FunctionDefNode;
  main : MainProgNode
}.

(** A name as the parser builds it, before analysis. *)
Definition Var (n : string) : VarNode := mkVarNode n None.

End Ast.

(** ** semantic_analyzer.py *)

Module SemanticAnalyzer.
Import Ast.

(** One constructor per [raise SemanticError(...)] site (sites that differ
    only in the name they print share one), holding what the message prints.
    The three wrappers of a [SymbolTableError] are the three message prefixes
    the analyzer uses: none ([str(e)]), "Global scope violation: " and
    "Shadowing error: "; [SymbolTableEscaped] is the handler in [analyze]. *)
Inductive SemanticError : Type :=
| DuplicateVariableDeclaration (n : string)
| DuplicateProcedureDeclaration (n : string)
| DuplicateFunctionDeclaration (n : string)
| DuplicateParameter (n : string)
| DuplicateLocalVariable (n : string)
| SymbolTableFailure (e : SymbolTable.SymbolTableError)
| GlobalScopeViolation (e : SymbolTable.SymbolTableError)
| ShadowingError (e : SymbolTable.SymbolTableError)
| SymbolTableEscaped (e : SymbolTable.SymbolTableError)
| FunctionMustReturnNumeric (f : string) (got : Ty)
| UndefinedVariableInAssignment (n : string)
| CannotAssignNonNumeric (n : string)
| AssignmentRequiresNumeric (n : string) (got : Ty)
| UndefinedVariable (n : string)
| UndefinedFunction (n : string)
| NotAFunction (n : string) (k : SymbolTable.Kind)
| UndefinedProcedure (n : string)
| NotAProcedure (n : string) (k : SymbolTable.Kind)
| UnaryOperandType (op : UnOp) (got : Ty)
| BinaryOperandType (op : BinOp) (left_side : bool) (got : Ty)
| WhileConditionNotBoolean (got : Ty)
| DoUntilConditionNotBoolean (got : Ty)
| IfConditionNotBoolean (got : Ty).

Definition wrap {A} (f : SymbolTable.SymbolTableError -> SemanticError)
    (r : result SymbolTable.SymbolTableError A) : result SemanticError A :=
  match r with
  | Ok a => Ok a
  | Raise e => Raise (f e)
  end.

(** The analyzer state that matters is its symbol table: [errors] is never
    appended to, [_scope_history] and [current_function_name] are only
    written.  Nodes carry no identity, declarations pass node id 0. *)
Abbreviation State := SymbolTable.SymbolTable.

(** The shared shape of the five declaration loops: a [seen_names] set for
    the list at hand, then the symbol table's own declare. *)
Fixpoint declare_each (duplicate : string -> SemanticError)
    (declare : string -> State ->
               result SymbolTable.SymbolTableError (SymbolTable.SymbolInfo * State))
    (names : list string) (seen_names : gset string) (st : State)
  : result SemanticError State :=
  match names with
  | [] => Ok st
  | n :: rest =>
      if decide (n ∈ seen_names) then Raise (duplicate n)
      else
        '(_, st') ← wrap SymbolTableFailure (declare n st);
        declare_each duplicate declare rest ({[n]} ∪ seen_names) st'
  end.

Definition _visit_variable_decls (variables : list VarNode) (st : State)
  : result SemanticError State :=
  declare_each DuplicateVariableDeclaration
    (fun n => SymbolTable.declare_var n 0 "numeric") (map var_name variables) ∅ st.

Definition _declare_procedures (procedures : list ProcedureDefNode) (st : State)
  : result SemanticError State :=
  declare_each DuplicateProcedureDeclaration
    (fun n => SymbolTable.declare_proc n 0)
    (map (fun d => var_name (proc_name d)) procedures) ∅ st.

Definition _declare_functions (functions : list FunctionDefNode) (st : State)
  : result SemanticError State :=
  declare_each DuplicateFunctionDeclaration
    (fun n => SymbolTable.declare_func n 0)
    (map (fun d => var_name (func_name d)) functions) ∅ st.

(** Returns [param_names]. *)
Definition _visit_parameters (variables : list VarNode) (st : State)
  : result SemanticError (list string * State) :=
  st' ← declare_each DuplicateParameter
          (fun n => SymbolTable.declare_param n 0 "numeric")
          (map var_name variables) ∅ st;
  Ok (map var_name variables, st').

(** *** Type checking *)

Definition _visit_atom (node : AtomNode) (st : State)
  : result SemanticError (AtomNode * Ty) :=
  match node with
  | AtomInt n => Ok (AtomInt n, numeric)
  | AtomVar var_node =>
      match SymbolTable.lookup (var_name var_node) st with
      | None => Raise (UndefinedVariable (var_name var_node))
      | Some var_info =>
          Ok (AtomVar (mkVarNode (var_name var_node) (Some var_info)), numeric)
      end
  end.

Fixpoint _visit_input (arguments : list AtomNode) (st : State)
  : result SemanticError (list AtomNode) :=
  match arguments with
  | [] => Ok []
  | arg :: rest =>
      '(arg', _) ← _visit_atom arg st;
      rest' ← _visit_input rest st;
      Ok (arg' :: rest')
  end.

Definition _visit_function_call (name : VarNode) (arguments : list AtomNode)
    (st : State) : result SemanticError (RhsNode * Ty) :=
  match SymbolTable.lookup (var_name name) st with
  | None => Raise (UndefinedFunction (var_name name))
  | Some func_info =>
      if decide (SymbolTable.kind func_info = SymbolTable.kind_func) then
        arguments' ← _visit_input arguments st;
        Ok (FunctionCallNode (mkVarNode (var_name name) (Some func_info)) arguments',
            numeric)
      else Raise (NotAFunction (var_name name) (SymbolTable.kind func_info))
  end.

Definition _visit_procedure_call (name : VarNode) (arguments : list AtomNode)
    (st : State) : result SemanticError Instr :=
  match SymbolTable.lookup (var_name name) st with
  | None => Raise (UndefinedProcedure (var_name name))
  | Some proc_info =>
      if decide (SymbolTable.kind proc_info = SymbolTable.kind_proc) then
        arguments' ← _visit_input arguments st;
        Ok (ProcedureCallNode (mkVarNode (var_name name) (Some proc_info)) arguments')
      else Raise (NotAProcedure (var_name name) (SymbolTable.kind proc_info))
  end.

(** [_visit_unary_op] and [_visit_binary_op] once their operands are typed. *)
Definition check_unary_op (operator : UnOp) (operand_type : Ty)
  : result SemanticError Ty :=
  match operator with
  | op_neg =>
      if decide (operand_type = numeric) then Ok numeric
      else Raise (UnaryOperandType op_neg operand_type)
  | op_not =>
      if decide (operand_type = boolean) then Ok boolean
      else Raise (UnaryOperandType op_not operand_type)
  end.

Definition check_binary_op (operator : BinOp) (left_type right_type : Ty)
  : result SemanticError Ty :=
  match operator with
  | op_plus | op_minus | op_mult | op_div =>
      if decide (left_type = numeric) then
        if decide (right_type = numeric) then Ok numeric
        else Raise (BinaryOperandType operator false right_type)
      else Raise (BinaryOperandType operator true left_type)
  | op_eq | op_gt =>
      if decide (left_type = numeric) then
        if decide (right_type = numeric) then Ok boolean
        else Raise (BinaryOperandType operator false right_type)
      else Raise (BinaryOperandType operator true left_type)
  | op_and | op_or =>
      if decide (left_type = boolean) then
        if decide (right_type = boolean) then Ok boolean
        else Raise (BinaryOperandType operator false right_type)
      else Raise (BinaryOperandType operator true left_type)
  end.

Fixpoint _visit_term (node : TermNode) (st : State)
  : result SemanticError (TermNode * Ty) :=
  match node with
  | TermAtom a => '(a', t) ← _visit_atom a st; Ok (TermAtom a', t)
  | TermParen p => '(p', t) ← _visit_paren_term p st; Ok (TermParen p', t)
  end
with _visit_paren_term (node : ParenTermNode) (st : State)
  : result SemanticError (ParenTermNode * Ty) :=
  match node with
  | UnaryOperationNode operator operand =>
      '(operand', operand_type) ← _visit_term operand st;
      t ← check_unary_op operator operand_type;
      Ok (UnaryOperationNode operator operand', t)
  | BinaryOperationNode left_operand operator right_operand _ =>
      '(left', left_type) ← _visit_term left_operand st;
      '(right', right_type) ← _visit_term right_operand st;
      t ← check_binary_op operator left_type right_type;
      Ok (BinaryOperationNode left' operator right' (Some t), t)
  end.

Definition _visit_rhs (node : RhsNode) (st : State)
  : result SemanticError (RhsNode * Ty) :=
  match node with
  | RhsAtom a => '(a', t) ← _visit_atom a st; Ok (RhsAtom a', t)
  | FunctionCallNode name arguments => _visit_function_call name arguments st
  | RhsParen p => '(p', t) ← _visit_paren_term p st; Ok (RhsParen p', t)
  end.

Definition _visit_assignment (variable : VarNode) (rhs : RhsNode) (st : State)
  : result SemanticError Instr :=
  match SymbolTable.lookup (var_name variable) st with
  | None => Raise (UndefinedVariableInAssignment (var_name variable))
  | Some var_info =>
      if decide (SymbolTable.decl_type var_info = Some "numeric") then
        '(rhs', rhs_type) ← _visit_rhs rhs st;
        if decide (rhs_type = numeric) then
          Ok (AssignmentNode (mkVarNode (var_name variable) (Some var_info)) rhs')
        else Raise (AssignmentRequiresNumeric (var_name variable) rhs_type)
      else Raise (CannotAssignNonNumeric (var_name variable))
  end.

Definition _visit_print (output : AtomNode + string) (st : State)
  : result SemanticError Instr :=
  match output with
  | inr s => Ok (PrintNode (inr s))
  | inl a => '(a', _) ← _visit_atom a st; Ok (PrintNode (inl a'))
  end.

Fixpoint _visit_instruction (node : Instr) (st : State) {struct node}
  : result SemanticError Instr :=
  let _visit_algorithm :=
    fix go (instructions : list Instr) : result SemanticError (list Instr) :=
      match instructions with
      | [] => Ok []
      | i :: rest =>
          i' ← _visit_instruction i st; rest' ← go rest; Ok (i' :: rest')
      end in
  match node with
  | HaltNode => Ok HaltNode
  | PrintNode output => _visit_print output st
  | AssignmentNode variable rhs => _visit_assignment variable rhs st
  | ProcedureCallNode name arguments => _visit_procedure_call name arguments st
  | WhileLoopNode condition body =>
      '(condition', condition_type) ← _visit_term condition st;
      if decide (condition_type = boolean) then
        body' ← _visit_algorithm body; Ok (WhileLoopNode condition' body')
      else Raise (WhileConditionNotBoolean condition_type)
  | DoUntilLoopNode body condition =>
      body' ← _visit_algorithm body;
      '(condition', condition_type) ← _visit_term condition st;
      if decide (condition_type = boolean) then Ok (DoUntilLoopNode body' condition')
      else Raise (DoUntilConditionNotBoolean condition_type)
  | IfBranchNode condition then_branch else_branch =>
      '(condition', condition_type) ← _visit_term condition st;
      if decide (condition_type = boolean) then
        then' ← _visit_algorithm then_branch;
        match else_branch with
        | Some e => e' ← _visit_algorithm e; Ok (IfBranchNode condition' then' (Some e'))
        | None => Ok (IfBranchNode condition' then' None)
        end
      else Raise (IfConditionNotBoolean condition_type)
  end.

Fixpoint _visit_algorithm (instructions : AlgorithmNode) (st : State)
  : result SemanticError AlgorithmNode :=
  match instructions with
  | [] => Ok []
  | i :: rest =>
      i' ← _visit_instruction i st; rest' ← _visit_algorithm rest st; Ok (i' :: rest')
  end.

(** *** Bodies *)

Definition _visit_body (locals : list VarNode) (algorithm : AlgorithmNode)
    (param_names : list string) (st : State)
  : result SemanticError (AlgorithmNode * State) :=
  st1 ← declare_each DuplicateLocalVariable
          (fun n => SymbolTable.declare_var n 0 "numeric")
          (map var_name locals) ∅ st;
  _ ← wrap ShadowingError
        (SymbolTable.check_no_shadowing_of_params param_names (map var_name locals));
  algorithm' ← _visit_algorithm algorithm st1;
  Ok (algorithm', st1).

Definition _visit_procedure_def (node : ProcedureDefNode) (st : State)
  : result SemanticError (ProcedureDefNode * State) :=
  let st := SymbolTable.enter_scope "Procedure" 0 st in
  '(param_names, st) ← _visit_parameters (proc_params node) st;
  '(algorithm', st) ← _visit_body (proc_locals node) (proc_algorithm node) param_names st;
  st ← wrap SymbolTableEscaped (SymbolTable.exit_scope st);
  Ok (mkProcedureDefNode (proc_name node) (proc_params node) (proc_locals node)
        algorithm', st).

Definition _visit_function_def (node : FunctionDefNode) (st : State)
  : result SemanticError (FunctionDefNode * State) :=
  let st := SymbolTable.enter_scope "Function" 0 st in
  '(param_names, st) ← _visit_parameters (func_params node) st;
  '(algorithm', st) ← _visit_body (func_locals node) (func_algorithm node) param_names st;
  '(return_atom', return_type) ← _visit_atom (return_atom node) st;
  if decide (return_type = numeric) then
    st ← wrap SymbolTableEscaped (SymbolTable.exit_scope st);
    Ok (mkFunctionDefNode (func_name node) (func_params node) (func_locals node)
          algorithm' return_atom', st)
  else Raise (FunctionMustReturnNumeric (var_name (func_name node)) return_type).

Fixpoint _visit_procedure_defs (procedures : list ProcedureDefNode) (st : State)
  : result SemanticError (list ProcedureDefNode * State) :=
  match procedures with
  | [] => Ok ([], st)
  | d :: rest =>
      '(d', st) ← _visit_procedure_def d st;
      '(rest', st) ← _visit_procedure_defs rest st;
      Ok (d' :: rest', st)
  end.

Fixpoint _visit_function_defs (functions : list FunctionDefNode) (st : State)
  : result SemanticError (list FunctionDefNode * State) :=
  match functions with
  | [] => Ok ([], st)
  | d :: rest =>
      '(d', st) ← _visit_function_def d st;
      '(rest', st) ← _visit_function_defs rest st;
      Ok (d' :: rest', st)
  end.

Definition _visit_main_prog (node : MainProgNode) (st : State)
  : result SemanticError (MainProgNode * State) :=
  let st := SymbolTable.enter_scope "Main" 0 st in
  st ← _visit_variable_decls (main_locals node) st;
  algorithm' ← _visit_algorithm (main_algorithm node) st;
  st ← wrap SymbolTableEscaped (SymbolTable.exit_scope st);
  Ok (mkMainProgNode (main_locals node) algorithm', st).

(** The global phase of [_visit_program]: steps 1 to 4. *)
Definition global_phase (node : ProgramNode) (st : State)
  : result SemanticError State :=
  let is_toplevel_call := bool_decide (SymbolTable.current_scope_level st = 0) in
  let st := if is_toplevel_call then SymbolTable.enter_scope "Global" 0 st else st in
  let st := SymbolTable.enter_scope "Global" 0 st in
  st ← _visit_variable_decls (globals node) st;
  st ← _declare_procedures (procs node) st;
  st ← _declare_functions (funcs node) st;
  _ ← wrap GlobalScopeViolation (SymbolTable.check_no_global_name_clashes st);
  Ok st.

Definition _visit_program (node : ProgramNode) (st : State)
  : result SemanticError (ProgramNode * State) :=
  st ← global_phase node st;
  '(procs', st) ← _visit_procedure_defs (procs node) st;
  '(funcs', st) ← _visit_function_defs (funcs node) st;
  '(main', st) ← _visit_main_prog (main node) st;
  st ← wrap SymbolTableEscaped (SymbolTable.exit_scope st);
  Ok (mkProgramNode (globals node) procs' funcs' main', st).

(** [SemanticAnalyzer().analyze(ast)]: a new analyzer owns a new
    [SymbolTable()], whose prefix is the default "v".  Returns the AST with
    the analyzer's annotations and the symbol table. *)
Definition analyze (ast : ProgramNode) : result SemanticError (ProgramNode * State) :=
  _visit_program ast (SymbolTable.init "v").

(** The error taxonomy of the design, and the class of each raise site. *)
Inductive ErrorClass : Type :=
| DuplicateDeclaration | GlobalNameClash | ParamShadowing | UndeclaredIdentifier
| KindMismatch | TypeMismatch | NonBooleanCondition | NonNumericReturn
| InternalError.

Global Instance ErrorClass_eq_dec : EqDecision ErrorClass.
Proof. solve_decision. Defined.

Definition class_of_table_error (e : SymbolTable.SymbolTableError) : ErrorClass :=
  match e with
  | SymbolTable.DuplicateDeclaration _ => DuplicateDeclaration
  | SymbolTable.GlobalNameClash _ _ _ => GlobalNameClash
  | SymbolTable.ParamShadowing _ => ParamShadowing
  | SymbolTable.NotDeclared _ => UndeclaredIdentifier
  | SymbolTable.NoScopeToExit | SymbolTable.NoScopeToDeclare => InternalError
  end.

Definition error_class (e : SemanticError) : ErrorClass :=
  match e with
  | DuplicateVariableDeclaration _ | DuplicateProcedureDeclaration _
  | DuplicateFunctionDeclaration _ | DuplicateParameter _
  | DuplicateLocalVariable _ => DuplicateDeclaration
  | SymbolTableFailure e | GlobalScopeViolation e | ShadowingError e
  | SymbolTableEscaped e => class_of_table_error e
  | FunctionMustReturnNumeric _ _ => NonNumericReturn
  | UndefinedVariableInAssignment _ | UndefinedVariable _ | UndefinedFunction _
  | UndefinedProcedure _ => UndeclaredIdentifier
  | CannotAssignNonNumeric _ | NotAFunction _ _ | NotAProcedure _ _ => KindMismatch
  | AssignmentRequiresNumeric _ _ | UnaryOperandType _ _
  | BinaryOperandType _ _ _ => TypeMismatch
  | WhileConditionNotBoolean _ | DoUntilConditionNotBoolean _
  | IfConditionNotBoolean _ => NonBooleanCondition
  end.

End SemanticAnalyzer.

(** ** code_gen.py *)

Module CodeGenerator.
Import Ast.

(** One constructor per [raise CodeGenError(...)] site that a well-formed
    tree can reach. *)
Inductive CodeGenError : Type :=
| NotOutsideCondition
| LogicalOutsideCondition (op : BinOp)
| UnknownOrMisplacedBinaryOperator (op : BinOp)
| ArithmeticOperatorAsCondition (op : BinOp)
| UnexpectedNodeInParenTerm
| ProcedureLacksSymbolInfo (n : string)
| FunctionLacksSymbolInfo (n : string)
| VarNodeLacksSymbolInfo (n : string).

(** The generator's mutable fields.  [symbol_table] is only read by
    [_get_unique_var_name], which nothing calls, and [node_types] is read
    from the nodes (see [Ast.BinaryOperationNode]). *)
Record CodeGenerator : Type := mkCodeGenerator {
  ir_code : list string;
  _temp_counter : nat;
  _label_counter : nat
}.

Definition _new_temp (self : CodeGenerator) : string * CodeGenerator :=
  ("t" +:+ Text.str_of_nat (_temp_counter self + 1),
   mkCodeGenerator (ir_code self) (_temp_counter self + 1) (_label_counter self)).

Definition _new_label (self : CodeGenerator) : string * CodeGenerator :=
  ("L" +:+ Text.str_of_nat (_label_counter self + 1),
   mkCodeGenerator (ir_code self) (_temp_counter self) (_label_counter self + 1)).

Definition _emit (instruction : string) (self : CodeGenerator) : CodeGenerator :=
  mkCodeGenerator (ir_code self ++ [instruction]) (_temp_counter self)
    (_label_counter self).

Abbreviation Gen A := (result CodeGenError (A * CodeGenerator)).

Definition _visit_VarNode (node : VarNode) : result CodeGenError string :=
  match symbol_info node with
  | None => Raise (VarNodeLacksSymbolInfo (var_name node))
  | Some info => Ok (SymbolTable.unique_name info)
  end.

Definition _visit_AtomNode (node : AtomNode) (self : CodeGenerator) : Gen string :=
  match node with
  | AtomVar v => place ← _visit_VarNode v; Ok (place, self)
  | AtomInt value =>
      let '(temp, self) := _new_temp self in
      Ok (temp, _emit (temp +:+ " = " +:+ Text.str_of_Z value) self)
  end.

Definition op_map (operator : BinOp) : option string :=
  match operator with
  | op_plus => Some "+" | op_minus => Some "-" | op_mult => Some "*"
  | op_div => Some "/" | op_eq => Some "=" | op_gt => Some ">"
  | op_and | op_or => None
  end.

Fixpoint _visit_TermNode (node : TermNode) (self : CodeGenerator) : Gen string :=
  match node with
  | TermAtom a => _visit_AtomNode a self
  | TermParen p => _visit_ParenTermNode p self
  end
with _visit_ParenTermNode (node : ParenTermNode) (self : CodeGenerator) : Gen string :=
  match node with
  | UnaryOperationNode operator operand =>
      '(operand_place, self) ← _visit_TermNode operand self;
      let '(result_place, self) := _new_temp self in
      match operator with
      | op_neg => Ok (result_place, _emit (result_place +:+ " = - " +:+ operand_place) self)
      | op_not => Raise NotOutsideCondition
      end
  | BinaryOperationNode left_operand operator right_operand node_type =>
      if bool_decide (node_type = Some boolean)
         && bool_decide (operator = op_and \/ operator = op_or)
      then Raise (LogicalOutsideCondition operator)
      else
        '(left_place, self) ← _visit_TermNode left_operand self;
        '(right_place, self) ← _visit_TermNode right_operand self;
        let '(result_place, self) := _new_temp self in
        match op_map operator with
        | Some op_symbol =>
            Ok (result_place,
                _emit (result_place +:+ " = " +:+ left_place +:+ " " +:+ op_symbol
                       +:+ " " +:+ right_place) self)
        | None => Raise (UnknownOrMisplacedBinaryOperator operator)
        end
  end.

Fixpoint _generate_conditional_jump (condition_node : TermNode)
    (label_true label_false : string) (negate : bool) (self : CodeGenerator)
  : result CodeGenError CodeGenerator :=
  let label_true' := if negate then label_false else label_true in
  let label_false' := if negate then label_true else label_false in
  match condition_node with
  | TermParen (UnaryOperationNode op_not operand) =>
      _generate_conditional_jump operand label_false' label_true' false self
  | TermParen (UnaryOperationNode op_neg _) => Raise UnexpectedNodeInParenTerm
  | TermParen (BinaryOperationNode left_operand op right_operand _) =>
      match op with
      | op_and =>
          let '(label_second_cond, self) := _new_label self in
          self ← _generate_conditional_jump left_operand label_second_cond
                   label_false' false self;
          let self := _emit ("REM " +:+ label_second_cond) self in
          _generate_conditional_jump right_operand label_true' label_false' false self
      | op_or =>
          let '(label_second_cond, self) := _new_label self in
          self ← _generate_conditional_jump left_operand label_true'
                   label_second_cond false self;
          let self := _emit ("REM " +:+ label_second_cond) self in
          _generate_conditional_jump right_operand label_true' label_false' false self
      | op_eq | op_gt =>
          '(left_place, self) ← _visit_TermNode left_operand self;
          '(right_place, self) ← _visit_TermNode right_operand self;
          let op_symbol := if bool_decide (op = op_eq) then "=" else ">" in
          Ok (_emit ("IF " +:+ left_place +:+ " " +:+ op_symbol +:+ " " +:+ right_place
                     +:+ " THEN " +:+ label_true') self)
      | _ => Raise (ArithmeticOperatorAsCondition op)
      end
  | TermAtom a =>
      '(atom_place, self) ← _visit_AtomNode a self;
      Ok (_emit ("IF " +:+ atom_place +:+ " > 0 THEN " +:+ label_true') self)
  end.

(** [[self._visit(arg) for arg in node.arguments.arguments]] *)
Fixpoint visit_arguments (arguments : list AtomNode) (self : CodeGenerator)
  : Gen (list string) :=
  match arguments with
  | [] => Ok ([], self)
  | arg :: rest =>
      '(place, self) ← _visit_AtomNode arg self;
      '(places, self) ← visit_arguments rest self;
      Ok (place :: places, self)
  end.

(** [sep.join(parts)] *)
Fixpoint join (sep : string) (parts : list string) : string :=
  match parts with
  | [] => ""
  | [p] => p
  | p :: rest => p +:+ sep +:+ join sep rest
  end.

Definition _visit_ProcedureCallNode (name : VarNode) (arguments : list AtomNode)
    (self : CodeGenerator) : result CodeGenError CodeGenerator :=
  '(arg_places, self) ← visit_arguments arguments self;
  match symbol_info name with
  | Some info =>
      if decide (SymbolTable.kind info = SymbolTable.kind_proc) then
        let proc_unique_name := SymbolTable.unique_name info in
        let call_args := join ", " arg_places in
        let '(dummy_target, self) := _new_temp self in
        Ok (_emit (dummy_target +:+ " = CALL " +:+ proc_unique_name +:+ "("
                   +:+ call_args +:+ ")") self)
      else Raise (ProcedureLacksSymbolInfo (var_name name))
  | None => Raise (ProcedureLacksSymbolInfo (var_name name))
  end.

Definition _visit_FunctionCallNode (name : VarNode) (arguments : list AtomNode)
    (self : CodeGenerator) : Gen string :=
  '(arg_places, self) ← visit_arguments arguments self;
  match symbol_info name with
  | Some info =>
      if decide (SymbolTable.kind info = SymbolTable.kind_func) then
        let func_unique_name := SymbolTable.unique_name info in
        let call_args := join ", " arg_places in
        let '(result_place, self) := _new_temp self in
        Ok (result_place,
            _emit (result_place +:+ " = CALL " +:+ func_unique_name +:+ "("
                   +:+ call_args +:+ ")") self)
      else Raise (FunctionLacksSymbolInfo (var_name name))
  | None => Raise (FunctionLacksSymbolInfo (var_name name))
  end.

Definition visit_rhs (rhs : RhsNode) (self : CodeGenerator) : Gen string :=
  match rhs with
  | RhsAtom a => _visit_AtomNode a self
  | FunctionCallNode name arguments => _visit_FunctionCallNode name arguments self
  | RhsParen p => _visit_ParenTermNode p self
  end.

Definition _visit_AssignmentNode (variable : VarNode) (rhs : RhsNode)
    (self : CodeGenerator) : result CodeGenError CodeGenerator :=
  '(rhs_place, self) ← visit_rhs rhs self;
  lhs_var_unique_name ← _visit_VarNode variable;
  Ok (_emit (lhs_var_unique_name +:+ " = " +:+ rhs_place) self).

Definition _visit_PrintNode (output : AtomNode + string) (self : CodeGenerator)
  : result CodeGenError CodeGenerator :=
  match output with
  | inr s => Ok (_emit ("PRINT " +:+ String Text.dquote (s +:+ String Text.dquote "")) self)
  | inl a =>
      '(atom_place, self) ← _visit_AtomNode a self;
      Ok (_emit ("PRINT " +:+ atom_place) self)
  end.

(** The statement visitors; [_visit_AlgorithmNode] is the loop over
    [node.instructions]. *)
Fixpoint _visit_Instr (node : Instr) (self : CodeGenerator) {struct node}
  : result CodeGenError CodeGenerator :=
  let _visit_AlgorithmNode :=
    fix go (instructions : list Instr) (self : CodeGenerator)
      : result CodeGenError CodeGenerator :=
      match instructions with
      | [] => Ok self
      | instr :: rest => self ← _visit_Instr instr self; go rest self
      end in
  match node with
  | HaltNode => Ok (_emit "STOP" self)
  | PrintNode output => _visit_PrintNode output self
  | AssignmentNode variable rhs => _visit_AssignmentNode variable rhs self
  | ProcedureCallNode name arguments => _visit_ProcedureCallNode name arguments self
  | IfBranchNode condition then_branch else_branch =>
      let '(label_then, self) := _new_label self in
      let '(label_else, self) :=
        match else_branch with
        | Some _ => let '(l, self) := _new_label self in (Some l, self)
        | None => (None, self)
        end in
      let '(label_exit, self) := _new_label self in
      self ← _generate_conditional_jump condition label_then
               (default label_exit label_else) false self;
      match else_branch with
      | Some else_body =>
          self ← _visit_AlgorithmNode else_body self;
          let self := _emit ("GOTO " +:+ label_exit) self in
          let self := _emit ("REM " +:+ label_then) self in
          self ← _visit_AlgorithmNode then_branch self;
          Ok (_emit ("REM " +:+ label_exit) self)
      | None =>
          let self := _emit ("GOTO " +:+ label_exit) self in
          let self := _emit ("REM " +:+ label_then) self in
          self ← _visit_AlgorithmNode then_branch self;
          Ok (_emit ("REM " +:+ label_exit) self)
      end
  | WhileLoopNode condition body =>
      let '(label_cond, self) := _new_label self in
      let '(label_body, self) := _new_label self in
      let '(label_exit, self) := _new_label self in
      let self := _emit ("REM " +:+ label_cond) self in
      self ← _generate_conditional_jump condition label_body label_exit false self;
      let self := _emit ("REM " +:+ label_body) self in
      self ← _visit_AlgorithmNode body self;
      let self := _emit ("GOTO " +:+ label_cond) self in
      Ok (_emit ("REM " +:+ label_exit) self)
  | DoUntilLoopNode body condition =>
      let '(label_body, self) := _new_label self in
      let '(label_exit, self) := _new_label self in
      let self := _emit ("REM " +:+ label_body) self in
      self ← _visit_AlgorithmNode body self;
      '(cond_place, self) ← _visit_TermNode condition self;
      Ok (_emit ("IF " +:+ cond_place +:+ " = 0 THEN " +:+ label_body) self)
  end.

Fixpoint _visit_AlgorithmNode (instructions : AlgorithmNode) (self : CodeGenerator)
  : result CodeGenError CodeGenerator :=
  match instructions with
  | [] => Ok self
  | instr :: rest => self ← _visit_Instr instr self; _visit_AlgorithmNode rest self
  end.

Definition _visit_MainProgNode (node : MainProgNode) (self : CodeGenerator)
  : result CodeGenError CodeGenerator :=
  _visit_AlgorithmNode (main_algorithm node) self.

(** [generate] resets the output and both counters, visits [ast.main] and
    returns [ir_code]. *)
Definition generate (ast : ProgramNode) : result CodeGenError (list string) :=
  self ← _visit_MainProgNode (main ast) (mkCodeGenerator [] 0 0);
  Ok (ir_code self).

End CodeGenerator.

(** ** inline.py *)

Module Inliner.
Import Text.

Record FunctionBodyInfo : Type := mkFunctionBodyInfo {
  name : string;
  params : list string;
  body_ir : list string
}.

(** [ValueError("Argument count mismatch calling ...")] *)
Inductive ValueError : Type :=
| ArgumentCountMismatch (func_name : string) (expected got : nat).

(** *** The five patterns

    Each function returns the groups of [pattern.match(line)]. *)

(** [^REM (L\d+)$] *)
Definition rem_label_pattern (line : string) : option string :=
  match strip_prefix "REM " (chomp line) with
  | Some l => if is_label l then Some l else None
  | None => None
  end.

(** [IF .+ THEN]: the dot matches any character but a newline. *)
Definition is_if_then (command : string) : bool :=
  match strip_prefix "IF " command with
  | Some r =>
      match strip_suffix " THEN" r with
      | Some mid =>
          negb (String.eqb mid "") && all_chars no_newline mid
      | None => false
      end
  | None => false
  end.

(** [^(GOTO|IF .+ THEN) (L\d+)$]: a label holds no space, so group 2 starts
    after the last space of the line. *)
Definition jump_pattern (line : string) : option (string * string) :=
  match split_last " "%char (chomp line) with
  | Some (command_part, l) =>
      if is_label l && (String.eqb command_part "GOTO" || is_if_then command_part)
      then Some (command_part, l) else None
  | None => None
  end.

(** [^RETURN (t\d+|v_\w+_\d+)$] *)
Definition return_pattern (line : string) : option string :=
  match strip_prefix "RETURN " (chomp line) with
  | Some p => if is_place p then Some p else None
  | None => None
  end.

(** The call pattern: [^(t\d+|v_\w+_\d+) = CALL (v_\w+_\d+)], an opening
    parenthesis, group 3 (any run of characters other than a closing
    parenthesis), a closing parenthesis and [$].  Groups 1 and 2 are made of
    word characters and are followed by a character that is not one, so each
    is the longest run of word characters where it starts. *)
Definition call_pattern (line : string) : option (string * string * string) :=
  let '(target, r1) := span is_word (chomp line) in
  if is_place target then
    match strip_prefix " = CALL " r1 with
    | Some r2 =>
        let '(callee, r3) := span is_word r2 in
        if is_unique_name callee then
          match r3 with
          | String c r4 =>
              if Ascii.eqb c "("%char then
                let '(args, r5) := span (fun c => negb (Ascii.eqb c ")"%char)) r4 in
                if String.eqb r5 ")" then Some (target, callee, args) else None
              else None
          | EmptyString => None
          end
        else None
    | None => None
    end
  else None.

(** [^(v_\w+_\d+) = (t\d+)$] *)
Definition assignment_pattern (line : string) : option (string * string) :=
  let '(final, r1) := span is_word (chomp line) in
  if is_unique_name final then
    match strip_prefix " = " r1 with
    | Some t => if is_temp t then Some (final, t) else None
    | None => None
    end
  else None.

(** *** _make_labels_unique *)

(** First pass: the dictionary [new_labels]. *)
Fixpoint collect_labels (ir_code : list string) (inline_id : nat)
    (new_labels : gmap string string) : gmap string string :=
  match ir_code with
  | [] => new_labels
  | line :: rest =>
      match rem_label_pattern line with
      | Some original_label =>
          match new_labels !! original_label with
          | None =>
              collect_labels rest inline_id
                (<[original_label :=
                     original_label +:+ "_inline_" +:+ str_of_nat inline_id]> new_labels)
          | Some _ => collect_labels rest inline_id new_labels
          end
      | None => collect_labels rest inline_id new_labels
      end
  end.

(** Second pass, one line. *)
Definition relabel_line (new_labels : gmap string string) (line : string) : string :=
  match rem_label_pattern line with
  | Some original_label =>
      "REM " +:+ default original_label (new_labels !! original_label)
  | None =>
      match jump_pattern line with
      | Some (command_part, original_label) =>
          command_part +:+ " " +:+ default original_label (new_labels !! original_label)
      | None => line
      end
  end.

Definition _make_labels_unique (ir_code : list string) (inline_id : nat) : list string :=
  let new_labels := collect_labels ir_code inline_id ∅ in
  map (relabel_line new_labels) ir_code.

(** *** _adapt_body *)

(** Python truth of [return_target]: [None] and the empty string are false. *)
Definition truthy (return_target : option string) : option string :=
  match return_target with
  | Some EmptyString => None
  | t => t
  end.

Fixpoint adapt_lines (unique_body_ir : list string) (return_target : option string)
  : list string :=
  match unique_body_ir with
  | [] => []
  | line :: rest =>
      match return_pattern line with
      | Some return_value_place =>
          match truthy return_target with
          | Some target =>
              (target +:+ " = " +:+ return_value_place) :: adapt_lines rest return_target
          | None => adapt_lines rest return_target
          end
      | None => line :: adapt_lines rest return_target
      end
  end.

Definition _adapt_body (body_ir : list string) (return_target : option string)
    (inline_id : nat) : list string :=
  adapt_lines (_make_labels_unique body_ir inline_id) return_target.

(** *** inline_calls *)

(** [[arg.strip() for arg in args_str.split(',') if arg.strip()]] *)
Definition parse_call_args (args_str : string) : list string :=
  filter (fun a => a <> "") (map strip (split_on ","%char args_str)).

Definition has_return (body : list string) : bool :=
  existsb (fun line => startswith "RETURN" (strip line)) body.

(** "Determine Actual Return Target and if next line should be skipped":
    returns [(actual_return_target, skip_next_instruction)]; [next] is
    [ir_code[i+1]] when [i + 1 < len(ir_code)]. *)
Definition return_target_of (func_info : FunctionBodyInfo) (call_target_temp : string)
    (next : option string) : option string * bool :=
  if has_return (body_ir func_info) then
    match next with
    | Some next_instruction =>
        match assignment_pattern next_instruction with
        | Some (final, t) =>
            if String.eqb t call_target_temp then (Some final, true)
            else (Some call_target_temp, false)
        | None => (Some call_target_temp, false)
        end
    | None => (Some call_target_temp, false)
    end
  else (None, false).

(** [zip(func_info.params, call_args)] rendered. *)
Definition param_assignments (params call_args : list string) : list string :=
  zip_with (fun param arg => param +:+ " = " +:+ arg) params call_args.

Section inline_calls.
Variable function_bodies : gmap string FunctionBodyInfo.

(** The [while i < len(ir_code)] loop, as a recursion on [ir_code[i:]].
    [counter] is [self._inline_counter]; the result is the text appended to
    [inlined_ir] from here on, and the counter at the end.  The warning
    printed for an unknown callee is not modelled.  A raise discards the
    output built so far; the counter it leaves behind is not returned. *)
Fixpoint inline_from (ir_code : list string) (counter : nat)
  : result ValueError (list string * nat) :=
  match ir_code with
  | [] => Ok ([], counter)
  | instruction :: rest =>
      let copy : result ValueError (list string * nat) :=
        '(out, counter') ← inline_from rest counter;
        Ok (instruction :: out, counter') in
      match call_pattern instruction with
      | None => copy
      | Some (call_target_temp, func_name, args_str) =>
          match function_bodies !! func_name with
          | None => copy
          | Some func_info =>
              let call_args := parse_call_args args_str in
              let '(actual_return_target, skip_next_instruction) :=
                return_target_of func_info call_target_temp (head rest) in
              let inline_id := counter + 1 in
              if decide (length call_args = length (params func_info)) then
                let adapted_body :=
                  _adapt_body (body_ir func_info) actual_return_target inline_id in
                '(out, counter') ←
                  (if skip_next_instruction
                   then match rest with
                        | _ :: rest' => inline_from rest' inline_id
                        | [] => Ok ([], inline_id)
                        end
                   else inline_from rest inline_id);
                Ok ((param_assignments (params func_info) call_args ++ adapted_body ++ out)%list,
                    counter')
              else Raise (ArgumentCountMismatch func_name (length (params func_info))
                            (length call_args))
          end
      end
  end.

End inline_calls.

(** An [Inliner] is its dictionary and its counter; [inline_calls] returns
    the new text and leaves the counter advanced. *)
Record Inliner : Type := mkInliner {
  function_bodies : gmap string FunctionBodyInfo;
  _inline_counter : nat
}.

Definition init (function_bodies : gmap string FunctionBodyInfo) : Inliner :=
  mkInliner function_bodies 0.

Definition inline_calls (self : Inliner) (ir_code : list string)
  : result ValueError (list string * Inliner) :=
  '(inlined_ir, counter) ← inline_from (function_bodies self) ir_code (_inline_counter self);
  Ok (inlined_ir, mkInliner (function_bodies self) counter).

End Inliner.

(** ** Predicates used to state the properties *)

Module Specs.
Import SymbolTable Ast.

(** [u] was handed out by the allocator of [self]: it is the rendering of a
    base name and of a counter value the table has already passed. *)
Definition issued (self : SymbolTable) (u : string) : Prop :=
  exists n c, u = format_unique (_unique_prefix self) n c /\
              1 <= c <= default 0 (_name_counters self !! n).

(** The names the innermost scope holds. *)
Definition in_top (self : SymbolTable) (n : string) : Prop :=
  exists curr, last (_scopes self) = Some curr /\ is_Some (curr !! n).

Definition global_var_names (p : ProgramNode) : list string :=
  map var_name (globals p).
Definition global_proc_names (p : ProgramNode) : list string :=
  map (fun d => var_name (proc_name d)) (procs p).
Definition global_func_names (p : ProgramNode) : list string :=
  map (fun d => var_name (func_name d)) (funcs p).

(** Two global entities of different kinds share a name. *)
Definition has_global_clash (p : ProgramNode) : Prop :=
  exists n,
    (n ∈ global_var_names p /\ n ∈ global_proc_names p) \/
    (n ∈ global_var_names p /\ n ∈ global_func_names p) \/
    (n ∈ global_func_names p /\ n ∈ global_proc_names p).

(** [self'] holds the IR of [self] followed by more. *)
Definition extends (self self' : CodeGenerator.CodeGenerator) : Prop :=
  exists out, CodeGenerator.ir_code self' = (CodeGenerator.ir_code self ++ out)%list.

(** The shape of the lowering of [If(cond, thenBody, elseBody)] from state
    [self] to state [final], when the construct allocates [allocated] labels
    of which the first is [then], the last is [exit] and number
    [false_target] is the false target of the condition jump.  The jump
    generator runs first and appends [cond_code], the else body is lowered
    next and appends [else_code], then come [GOTO exit] and [REM then], the
    then body is lowered and appends [then_code], and [REM exit] is the last
    line. *)
Definition if_else_lowered (allocated false_target : nat)
    (condition : TermNode) (then_branch else_body : list Instr)
    (self final : CodeGenerator.CodeGenerator) : Prop :=
  let n := CodeGenerator._label_counter self in
  let label_then := "L" +:+ Text.str_of_nat (n + 1) in
  let label_false := "L" +:+ Text.str_of_nat (n + false_target) in
  let label_exit := "L" +:+ Text.str_of_nat (n + allocated) in
  exists s1 s2 s3 cond_code else_code then_code,
    CodeGenerator._generate_conditional_jump condition label_then label_false false
      (CodeGenerator.mkCodeGenerator (CodeGenerator.ir_code self)
         (CodeGenerator._temp_counter self) (n + allocated)) = Ok s1 /\
    CodeGenerator.ir_code s1 = (CodeGenerator.ir_code self ++ cond_code)%list /\
    CodeGenerator._visit_AlgorithmNode else_body s1 = Ok s2 /\
    CodeGenerator.ir_code s2 = (CodeGenerator.ir_code s1 ++ else_code)%list /\
    CodeGenerator._visit_AlgorithmNode then_branch
      (CodeGenerator._emit ("REM " +:+ label_then)
         (CodeGenerator._emit ("GOTO " +:+ label_exit) s2)) = Ok s3 /\
    CodeGenerator.ir_code s3 =
      (CodeGenerator.ir_code s2
       ++ ["GOTO " +:+ label_exit; "REM " +:+ label_then] ++ then_code)%list /\
    final = CodeGenerator._emit ("REM " +:+ label_exit) s3 /\
    CodeGenerator.ir_code final =
      (CodeGenerator.ir_code self ++ cond_code ++ else_code
       ++ ["GOTO " +:+ label_exit; "REM " +:+ label_then]
       ++ then_code ++ ["REM " +:+ label_exit])%list.

(** *** Inliner *)

(** The label a line defines: the text after ["REM "]. *)
Definition defines (line : string) : option string := Text.strip_prefix "REM " line.

Definition labels_defined (ir : list string) : list string := omap defines ir.

(** Labels as the code generator writes them: every label line is
    [REM L<n>], and no label is defined twice. *)
Definition generated_labels (ir : list string) : bool :=
  forallb (fun line => match defines line with
                       | Some l => Text.is_label l
                       | None => true
                       end) ir
  && bool_decide (NoDup (labels_defined ir)).

(** A registry entry built from generated code: generated labels, and unique
    names as parameters. *)
Definition generated_body (info : Inliner.FunctionBodyInfo) : bool :=
  generated_labels (Inliner.body_ir info)
  && forallb Text.is_unique_name (Inliner.params info).

(** [label] with the suffix of call site [k]. *)
Definition suffixed (label : string) (k : nat) : string :=
  label +:+ "_inline_" +:+ Text.str_of_nat k.

(** The labels a body defines, as the inliner reads them: the labels of its
    lines [REM L<n>]. *)
Definition body_labels (body : list string) : list string :=
  omap Inliner.rem_label_pattern body.

(** What the copy of [body] made for call site [k] holds for the line
    [line] of the body, when the copy returns into [dest]:
    - for a label line [REM L<n>], the line [REM L<n>_inline_<k>];
    - for a jump [GOTO L<n>] or [IF ... THEN L<n>], the same jump to
      [L<n>_inline_<k>] when the body defines [L<n>], and to [L<n>] when it
      does not;
    - for [RETURN <place>], the assignment [<dest> = <place>], and no line
      when there is no destination;
    - any other line as it is. *)
Definition copy_line (body : list string) (k : nat) (dest : option string)
    (line : string) : option string :=
  match Inliner.rem_label_pattern line with
  | Some l => Some ("REM " +:+ suffixed l k)
  | None =>
      match Inliner.jump_pattern line with
      | Some (command, l) =>
          Some (command +:+ " " +:+
                (if bool_decide (l ∈ body_labels body) then suffixed l k else l))
      | None =>
          match Inliner.return_pattern line with
          | Some place => (fun d => d +:+ " = " +:+ place) <$> dest
          | None => Some line
          end
      end
  end.

(** [copy] is a copy of [body] for call site [k], line for line. *)
Definition copy_of (body : list string) (k : nat) (dest : option string)
    (copy : list string) : Prop :=
  Forall2 (fun line line' => copy_line body k dest line = Some line') body copy.

(** A line the pass copies: not a call, or a call of an unknown callee. *)
Definition copied (function_bodies : gmap string Inliner.FunctionBodyInfo)
    (line : string) : Prop :=
  match Inliner.call_pattern line with
  | Some (_, func_name, _) => function_bodies !! func_name = None
  | None => True
  end.

(** The pass replaces the call that begins [input]: with the counter at [c],
    its result on [input] is the parameter assignments [binds], then a copy
    of [body] for call site [c + 1] that returns into [dest], then its
    result on [rest] from call site [c + 1] on.  When [rest] holds no call
    to replace, it is in the output as it is. *)
Definition call_replaced (function_bodies : gmap string Inliner.FunctionBodyInfo)
    (input : list string) (c : nat) (binds body : list string)
    (dest : option string) (rest : list string) : Prop :=
  exists copy,
    copy_of body (c + 1) dest copy /\
    Inliner.inline_from function_bodies input c
    = ('(out, c') ← Inliner.inline_from function_bodies rest (c + 1);
       Ok ((binds ++ copy ++ out)%list, c')) /\
    (Forall (copied function_bodies) rest ->
     Inliner.inline_from function_bodies input c
     = Ok ((binds ++ copy ++ rest)%list, c + 1)).

(** The look-ahead of a call before [l] finds no copy to collapse. *)
Definition not_assignment (l : list string) : Prop :=
  match head l with
  | Some x => Inliner.assignment_pattern x = None
  | None => True
  end.

(** Lines whose label definitions have the generator's form. *)
Definition plain_labels (ir : list string) : Prop :=
  Forall (fun line => forall l, defines line = Some l -> Text.is_label l = true) ir.

(** A return destination as [inline_calls] computes it. *)
Definition place_or_none (rt : option string) : Prop :=
  match rt with Some d => Text.is_place d = true | None => True end.

Definition registry_generated (fb : gmap string Inliner.FunctionBodyInfo) : Prop :=
  map_Forall (fun _ info => generated_body info = true) fb.

(** Where a label of the output comes from: the input, or a call site
    numbered after [c] and up to [c']. *)
Definition label_origin (ir : list string) (c c' : nat) (l : string) : Prop :=
  l ∈ labels_defined ir \/
  exists b k, Text.is_label b = true /\ c < k <= c' /\ l = suffixed b k.

End Specs.

(** ** Programs used as examples *)

Module Examples.
Import Ast.

(** The use of [x] as the analyzer leaves it: annotated with [info]. *)
Definition resolved (n : string) (info : SymbolTable.SymbolInfo) : VarNode :=
  mkVarNode n (Some info).

(** [(x > k)], with the variable node [x] and the node's type entry [ty]. *)
Definition gt_const (x : VarNode) (k : Z) (ty : option Ty) : TermNode :=
  TermParen (BinaryOperationNode (TermAtom (AtomVar x)) op_gt (TermAtom (AtomInt k)) ty).

Definition main_only (gl : list VarNode) (algorithm : AlgorithmNode) : ProgramNode :=
  mkProgramNode gl [] [] (mkMainProgNode [] algorithm).

(** glob { x } proc { pdef x() { local {} halt } } func {} main { var {} halt } *)
Definition var_proc_clash : ProgramNode :=
  mkProgramNode [Var "x"] [mkProcedureDefNode (Var "x") [] [] [HaltNode]] []
    (mkMainProgNode [] [HaltNode]).

(** glob {} proc { pdef p() { local {} halt } } func {} main { var {} print p } *)
Definition print_procedure_name : ProgramNode :=
  mkProgramNode [] [mkProcedureDefNode (Var "p") [] [] [HaltNode]] []
    (mkMainProgNode [] [PrintNode (inl (AtomVar (Var "p")))]).

(** glob { y } proc {} func { fdef f() { local {} halt; return 0 } }
    main { var {} y = f } *)
Definition assign_function_name : ProgramNode :=
  mkProgramNode [Var "y"] []
    [mkFunctionDefNode (Var "f") [] [] [HaltNode] (AtomInt 0)]
    (mkMainProgNode [] [AssignmentNode (Var "y") (RhsAtom (AtomVar (Var "f")))]).

(** glob {} proc { pdef p() { local {} halt } } func {} main { var {} p = 1 } *)
Definition assign_to_procedure : ProgramNode :=
  mkProgramNode [] [mkProcedureDefNode (Var "p") [] [] [HaltNode]] []
    (mkMainProgNode [] [AssignmentNode (Var "p") (RhsAtom (AtomInt 1))]).

(** glob { x } ... main { var {} do { halt } until (x > 0) } *)
Definition do_until_gt : ProgramNode :=
  main_only [Var "x"] [DoUntilLoopNode [HaltNode] (gt_const (Var "x") 0 None)].

(** glob { x } ... main { var {} if (not (x > 0)) { halt } else { print x } } *)
Definition if_not_else : ProgramNode :=
  main_only [Var "x"]
    [IfBranchNode (TermParen (UnaryOperationNode op_not (gt_const (Var "x") 0 None)))
       [HaltNode] (Some [PrintNode (inl (AtomVar (Var "x")))])].

(** glob { x } ... main { var {} do { halt } until (not (x > 0)) } *)
Definition do_until_not : ProgramNode :=
  main_only [Var "x"]
    [DoUntilLoopNode [HaltNode]
       (TermParen (UnaryOperationNode op_not (gt_const (Var "x") 0 None)))].

(** glob { x } ... main { var {} do { halt } until ((x > 0) and (x > 1)) } *)
Definition do_until_and : ProgramNode :=
  main_only [Var "x"]
    [DoUntilLoopNode [HaltNode]
       (TermParen (BinaryOperationNode (gt_const (Var "x") 0 None) op_and
                     (gt_const (Var "x") 1 None) None))].

(** glob { x } ... main { var {} do { halt } until ((x > 0) or (x > 1)) } *)
Definition do_until_or : ProgramNode :=
  main_only [Var "x"]
    [DoUntilLoopNode [HaltNode]
       (TermParen (BinaryOperationNode (gt_const (Var "x") 0 None) op_or
                     (gt_const (Var "x") 1 None) None))].

(** glob { x } ... main { var {} if (x > 0) { x = 1 } }, with the uses of
    [x] given by [x] and the type entry of the comparison by [ty]. *)
Definition if_then (x : VarNode) (ty : option Ty) : ProgramNode :=
  main_only [Var "x"]
    [IfBranchNode (gt_const x 0 ty) [AssignmentNode x (RhsAtom (AtomInt 1))] None].

(** What the analyzer records for a global [x] declared first. *)
Definition global_x : SymbolTable.SymbolInfo :=
  SymbolTable.mkSymbolInfo "x" SymbolTable.kind_var (Some "numeric") 2 "v_x_1" 0.

(** The use of [x] and the condition [(x > 0)] as the analyzer leaves them
    for a global [x]. *)
Definition resolved_x : VarNode := resolved "x" global_x.
Definition x_positive : TermNode := gt_const resolved_x 0 (Some boolean).

(** The statement of [if_not_else] as the analyzer leaves it. *)
Definition if_not_else_analyzed : Instr :=
  IfBranchNode (TermParen (UnaryOperationNode op_not x_positive))
    [HaltNode] (Some [PrintNode (inl (AtomVar resolved_x))]).

(** A generator as [generate] resets it, and the state the statement above
    leaves: three labels are counted, the jump goes to [L2], and the lines
    define [L1] and [L3]. *)
Definition fresh_generator : CodeGenerator.CodeGenerator :=
  CodeGenerator.mkCodeGenerator [] 0 0.
Definition if_not_else_lines : list string :=
  ["t1 = 0"; "IF v_x_1 > t1 THEN L2"; "PRINT v_x_1"; "GOTO L3"; "REM L1"; "STOP";
   "REM L3"].
Definition if_not_else_final : CodeGenerator.CodeGenerator :=
  CodeGenerator.mkCodeGenerator if_not_else_lines 1 3.

End Examples.

(** The registry and the IR of the inliner's tests. *)
Module InlinerExamples.
Import Inliner.

(** func add(a b) { local {t} t = (a plus b); return t } *)
Definition add_body : FunctionBodyInfo :=
  mkFunctionBodyInfo "v_add_1" ["v_a_2"; "v_b_3"]
    ["REM L1"; "t1 = v_a_2 + v_b_3"; "v_t_4 = t1"; "RETURN v_t_4"; "REM L2"].

Definition registry : gmap string FunctionBodyInfo := {[ "v_add_1" := add_body ]}.

Definition call_add_1 : string := "t1 = CALL v_add_1(1, 2)".
Definition call_add_2 : string := "t2 = CALL v_add_1(10, 20)".



Definition call_add_vars : string := "t2 = CALL v_add_1(v_p_7, v_q_8)".
Definition call_unknown : string := "t1 = CALL v_undefined_func_99(1)".



(** func five() { return 5 }, with the literal as the operand of RETURN. *)
Definition five_body : FunctionBodyInfo := mkFunctionBodyInfo "v_five_1" [] ["RETURN 5"].
Definition registry_five : gmap string FunctionBodyInfo := {[ "v_five_1" := five_body ]}.

(** A call of [add] whose target is a variable, and the copy of that
    variable after it. *)
Definition call_add_into_variable : list string :=
  ["v_r_3 = CALL v_add_1(1, 2)"; "v_x_2 = v_r_3"; "STOP"].

(** The IR of [if (not (x > 0)) { halt } else { print x }] as the generator
    writes it: the jump goes to [L2], which no line defines. *)
Definition dangling_body : list string := Examples.if_not_else_lines.

End InlinerExamples.

(** ** The passes in sequence *)

Module Pipeline.
Import Ast.

(** The generator run on what the analyzer returns; [None] when the analysis
    raises. *)
Definition compile (p : ProgramNode)
  : option (result CodeGenerator.CodeGenError (list string)) :=
  match SemanticAnalyzer.analyze p with
  | Ok (p', _) => Some (CodeGenerator.generate p')
  | Raise _ => None
  end.

End Pipeline.

(** ** More of symbol_table.py *)

Module SymbolTableMore.
Import SymbolTable.

Definition assert_exists (name : string) (self : SymbolTable)
  : result SymbolTableError SymbolInfo :=
  match lookup name self with
  | Some info => Ok info
  | None => Raise (NotDeclared name)
  end.

Definition current_scope_name (self : SymbolTable) : option string :=
  match last (_scope_meta self) with
  | Some meta => Some meta.1
  | None => None
  end.

(** [get_scope_snapshot]: a copy of the list of scopes. *)
Definition get_scope_snapshot (self : SymbolTable) : list (gmap string SymbolInfo) :=
  _scopes self.

Definition is_declare (op : Op) : bool :=
  match op with op_declare _ _ _ _ => true | _ => false end.

(** How many of [infos] were declared under the name [n]. *)
Definition declared_as (n : string) (infos : list SymbolInfo) : nat :=
  length (filter (fun i => name i = n) infos).

(** An entry stored under [n]: it is named [n] and its unique name is one
    the table issued for [n]. *)
Definition entry_ok (self : SymbolTable) (n : string) (info : SymbolInfo) : Prop :=
  name info = n /\
  exists c, unique_name info = format_unique (_unique_prefix self) n c /\
            1 <= c <= default 0 (_name_counters self !! n).

Definition entries_ok (self : SymbolTable) : Prop :=
  forall scope n info,
    scope ∈ _scopes self -> scope !! n = Some info -> entry_ok self n info.

(** The dictionaries of global procedures and functions did not change. *)
Definition same_globals (self self' : SymbolTable) : Prop :=
  _global_procs self' = _global_procs self /\
  _global_funcs self' = _global_funcs self.

End SymbolTableMore.

(** ** More predicates used to state properties *)

Module MoreSpecs.
Import Ast SemanticAnalyzer CodeGenerator Specs.

(** The classes an error raised while checking statements can have. *)
Definition statement_class (c : ErrorClass) : bool :=
  match c with
  | UndeclaredIdentifier | KindMismatch | TypeMismatch | NonBooleanCondition => true
  | _ => false
  end.

(** The classes [analyze] can fail with. *)
Definition analysis_class (c : ErrorClass) : bool :=
  match c with
  | DuplicateDeclaration => true
  | _ => statement_class c
  end.

(** The type the top of a term announces: a comparison, [and], [or] and
    [not] are boolean, an atom, [neg] and arithmetic are numeric. *)
Definition top_type (t : TermNode) : Ty :=
  match t with
  | TermAtom _ => numeric
  | TermParen (UnaryOperationNode op_neg _) => numeric
  | TermParen (UnaryOperationNode op_not _) => boolean
  | TermParen (BinaryOperationNode _ (op_plus | op_minus | op_mult | op_div) _ _) =>
      numeric
  | TermParen (BinaryOperationNode _ _ _ _) => boolean
  end.

(** The atom is a number, or a name that [lookup] finds. *)
Definition atom_resolves (st : SymbolTable.SymbolTable) (a : AtomNode) : bool :=
  match a with
  | AtomInt _ => true
  | AtomVar v => bool_decide (is_Some (SymbolTable.lookup (var_name v) st))
  end.

(** The name resolves to an entry of kind [k]. *)
Definition resolves_to_kind (st : SymbolTable.SymbolTable) (k : SymbolTable.Kind)
    (v : VarNode) : bool :=
  match SymbolTable.lookup (var_name v) st with
  | Some info => bool_decide (SymbolTable.kind info = k)
  | None => false
  end.

(** The condition is a comparison at its top: [(l eq r)] or [(l > r)]. *)
Definition comparison_condition (t : TermNode) : bool :=
  match t with
  | TermParen (BinaryOperationNode _ (op_eq | op_gt) _ _) => true
  | _ => false
  end.

(** Every do-until loop of the instruction, nested ones included, has a
    comparison as its condition. *)
Fixpoint do_until_comparisons (i : Instr) : bool :=
  match i with
  | HaltNode | PrintNode _ | AssignmentNode _ _ | ProcedureCallNode _ _ => true
  | WhileLoopNode _ body => forallb do_until_comparisons body
  | DoUntilLoopNode body condition =>
      forallb do_until_comparisons body && comparison_condition condition
  | IfBranchNode _ then_branch else_branch =>
      forallb do_until_comparisons then_branch
      && match else_branch with
         | Some e => forallb do_until_comparisons e
         | None => true
         end
  end.

(** The label [_new_label] returns when it moves the counter to [k]. *)
Definition label_of (k : nat) : string := "L" +:+ Text.str_of_nat k.

(** The shape of the lowering of [While(cond, body)] from [self] to
    [final]: three labels are allocated, cond, body and exit.  [REM cond] is
    the first line; the jump generator runs next, with body as the true and
    exit as the false target, and appends [cond_code]; then comes
    [REM body]; the body is lowered and appends [body_code]; [GOTO cond] and
    [REM exit] are the last lines. *)
Definition while_lowered (condition : TermNode) (body : list Instr)
    (self final : CodeGenerator) : Prop :=
  let n := _label_counter self in
  exists s1 s2 cond_code body_code,
    _generate_conditional_jump condition (label_of (n + 2)) (label_of (n + 3)) false
      (_emit ("REM " +:+ label_of (n + 1))
         (mkCodeGenerator (ir_code self) (_temp_counter self) (n + 3))) = Ok s1 /\
    ir_code s1 = ir_code self ++ ["REM " +:+ label_of (n + 1)] ++ cond_code /\
    _visit_AlgorithmNode body (_emit ("REM " +:+ label_of (n + 2)) s1) = Ok s2 /\
    ir_code s2 = ir_code s1 ++ ["REM " +:+ label_of (n + 2)] ++ body_code /\
    final = _emit ("REM " +:+ label_of (n + 3))
              (_emit ("GOTO " +:+ label_of (n + 1)) s2) /\
    ir_code final =
      ir_code self ++ ["REM " +:+ label_of (n + 1)] ++ cond_code
      ++ ["REM " +:+ label_of (n + 2)] ++ body_code
      ++ ["GOTO " +:+ label_of (n + 1); "REM " +:+ label_of (n + 3)].

(** The shape of the lowering of [DoUntil(body, cond)]: two labels are
    allocated (the body starts from a counter moved by two) and the first
    is used.  [REM body] is the first line; the body is lowered and appends
    [body_code]; the condition is evaluated into [place] and appends
    [cond_code]; [IF place = 0 THEN body] is the last line. *)
Definition do_until_lowered (body : list Instr) (condition : TermNode)
    (self final : CodeGenerator) : Prop :=
  let n := _label_counter self in
  exists s1 s2 place body_code cond_code,
    _visit_AlgorithmNode body
      (_emit ("REM " +:+ label_of (n + 1))
         (mkCodeGenerator (ir_code self) (_temp_counter self) (n + 2))) = Ok s1 /\
    ir_code s1 = ir_code self ++ ["REM " +:+ label_of (n + 1)] ++ body_code /\
    _visit_TermNode condition s1 = Ok (place, s2) /\
    ir_code s2 = ir_code s1 ++ cond_code /\
    final = _emit ("IF " +:+ place +:+ " = 0 THEN " +:+ label_of (n + 1)) s2 /\
    ir_code final =
      ir_code self ++ ["REM " +:+ label_of (n + 1)] ++ body_code ++ cond_code
      ++ ["IF " +:+ place +:+ " = 0 THEN " +:+ label_of (n + 1)].

(** The label a line jumps to without condition: the text after ["GOTO "]. *)
Definition goes_to (line : string) : option string := Text.strip_prefix "GOTO " line.

Definition goto_targets (ir : list string) : list string := omap goes_to ir.

(** From [self] to [self'] the generator appended lines whose label
    definitions are, in this order, [REM L<k>] for the [k] of [ks], and
    whose unconditional jumps are [GOTO L<k>] for the [k] of [gs]. *)
Definition appends_labels (self self' : CodeGenerator) (ks gs : list nat) : Prop :=
  _label_counter self <= _label_counter self' /\
  exists out, ir_code self' = ir_code self ++ out /\
              labels_defined out = map label_of ks /\
              goto_targets out = map label_of gs.

(** The same, for pairwise distinct [k] that the label counter passed in
    between, and jumps to labels that these lines define. *)
Definition appends_fresh_labels (self self' : CodeGenerator) : Prop :=
  exists ks gs,
    appends_labels self self' ks gs /\ NoDup ks /\
    Forall (fun k => _label_counter self < k <= _label_counter self') ks /\
    Forall (fun k => k ∈ ks) gs.

(** The node is annotated with a unique name that begins with ["v_"]. *)
Definition v_named (v : VarNode) : bool :=
  match symbol_info v with
  | Some info => Text.startswith "v_" (SymbolTable.unique_name info)
  | None => false
  end.

(** Every assignment of the instruction, nested ones included, has such a
    target. *)
Fixpoint targets_named (i : Instr) : bool :=
  match i with
  | HaltNode | PrintNode _ | ProcedureCallNode _ _ => true
  | AssignmentNode variable _ => v_named variable
  | WhileLoopNode _ body | DoUntilLoopNode body _ => forallb targets_named body
  | IfBranchNode _ then_branch else_branch =>
      forallb targets_named then_branch
      && match else_branch with
         | Some e => forallb targets_named e
         | None => true
         end
  end.

(** The line is a call the inliner replaces: it matches the call pattern
    and its callee is in the registry. *)
Definition inlinable (fb : gmap string Inliner.FunctionBodyInfo) (line : string)
  : bool :=
  match Inliner.call_pattern line with
  | Some (_, func_name, _) => bool_decide (is_Some (fb !! func_name))
  | None => false
  end.

(** No body of the registry calls a function of the registry, and the
    parameters are unique names. *)
Definition call_free_registry (fb : gmap string Inliner.FunctionBodyInfo) : Prop :=
  map_Forall (fun _ info =>
    forallb Text.is_unique_name (Inliner.params info) = true /\
    forallb (fun line => negb (inlinable fb line)) (Inliner.body_ir info) = true) fb.

End MoreSpecs.

(** ** More examples *)

Module MoreExamples.
Import Ast.

(** A new table with the global scope entered. *)
Definition global_table : SymbolTable.SymbolTable :=
  SymbolTable.enter_scope "Global" 0 (SymbolTable.init "v").

(** The same with [x] declared. *)
Definition table_with_x : SymbolTable.SymbolTable :=
  (SymbolTable.run [SymbolTable.op_declare "x" SymbolTable.kind_var (Some "numeric") 0]
     global_table).2.

(** Two locals declared in a scope. *)
Definition local_ops : list SymbolTable.Op :=
  [SymbolTable.op_declare "x" SymbolTable.kind_param (Some "numeric") 0;
   SymbolTable.op_declare "y" SymbolTable.kind_var (Some "numeric") 0].

(** The calls of a run: the global scope with [x] and the procedure [p], the
    scope of [p] with a parameter [x] and a local [y], and the scope of main
    with a local [y]. *)
Definition scope_ops : list SymbolTable.Op :=
  [SymbolTable.op_enter_scope "Global" 0;
   SymbolTable.op_declare "x" SymbolTable.kind_var (Some "numeric") 0;
   SymbolTable.op_declare "p" SymbolTable.kind_proc None 0;
   SymbolTable.op_enter_scope "Procedure" 0;
   SymbolTable.op_declare "x" SymbolTable.kind_param (Some "numeric") 0;
   SymbolTable.op_declare "y" SymbolTable.kind_var (Some "numeric") 0;
   SymbolTable.op_exit_scope;
   SymbolTable.op_enter_scope "Main" 0;
   SymbolTable.op_declare "y" SymbolTable.kind_var (Some "numeric") 0].

(** pdef p(a) { local { a } halt } *)
Definition shadowing_proc : ProcedureDefNode :=
  mkProcedureDefNode (Var "p") [Var "a"] [Var "a"] [HaltNode].

(** fdef f(a) { local { a } halt; return 0 } *)
Definition shadowing_func : FunctionDefNode :=
  mkFunctionDefNode (Var "f") [Var "a"] [Var "a"] [HaltNode] (AtomInt 0).

Definition x_gt (k : Z) : TermNode := Examples.gt_const (Var "x") k None.

(** glob { x } proc {} func {}
    main { var { y }
      while (x > 0) {
        if ((x > 1) and (not (y eq 0))) { x = (x minus 1) } else { halt } };
      do { print x } until (x eq 0) } *)
Definition loops : ProgramNode :=
  mkProgramNode [Var "x"] [] []
    (mkMainProgNode [Var "y"]
       [WhileLoopNode (x_gt 0)
          [IfBranchNode
             (TermParen (BinaryOperationNode (x_gt 1) op_and
                (TermParen (UnaryOperationNode op_not
                   (TermParen (BinaryOperationNode (TermAtom (AtomVar (Var "y"))) op_eq
                                 (TermAtom (AtomInt 0)) None)))) None))
             [AssignmentNode (Var "x")
                (RhsParen (BinaryOperationNode (TermAtom (AtomVar (Var "x"))) op_minus
                             (TermAtom (AtomInt 1)) None))]
             (Some [HaltNode])];
        DoUntilLoopNode [PrintNode (inl (AtomVar (Var "x")))]
          (TermParen (BinaryOperationNode (TermAtom (AtomVar (Var "x"))) op_eq
                        (TermAtom (AtomInt 0)) None))]).

(** while (x > 0) { halt } and do { halt } until (x > 0), from an analyzed
    [x]. *)
Definition while_halt : Instr :=
  WhileLoopNode Examples.x_positive [HaltNode].
Definition do_halt : Instr :=
  DoUntilLoopNode [HaltNode] Examples.x_positive.

(** proc print_val(x) { local {} print x } *)
Definition print_val_body : Inliner.FunctionBodyInfo :=
  Inliner.mkFunctionBodyInfo "v_print_val_5" ["v_x_6"] ["PRINT v_x_6"].

Definition registry_with_proc : gmap string Inliner.FunctionBodyInfo :=
  <["v_print_val_5" := print_val_body]> InlinerExamples.registry.

Definition call_print_val : string := "t3 = CALL v_print_val_5(v_val_10)".

(** IR without a call of a registered function. *)
Definition no_calls : list string :=
  ["v_a_15 = 1"; InlinerExamples.call_unknown; "v_b_16 = 2"; "STOP"].

(** The IR of the test of two calls of [add]. *)
Definition two_calls : list string :=
  [InlinerExamples.call_add_1; "v_res1_11 = t1";
   InlinerExamples.call_add_2; "v_res2_12 = t2"; "STOP"].

End MoreExamples.

(** * Properties *)

Module TextFacts.
Import Text.

Lemma all_chars_app p s1 s2 :
  all_chars p (s1 +:+ s2) = all_chars p s1 && all_chars p s2.
Proof.
  induction s1 as [|c s1 IH]; simpl; [done|].
  by rewrite IH, andb_assoc.
Qed.

Lemma string_of_uint_digits d : all_chars is_digit (NilEmpty.string_of_uint d) = true.
Proof. induction d; simpl; auto. Qed.

Lemma str_of_nat_digits n : all_chars is_digit (str_of_nat n) = true.
Proof. apply string_of_uint_digits. Qed.

Lemma str_of_nat_inj n m : str_of_nat n = str_of_nat m -> n = m.
Proof.
  unfold str_of_nat. intros H.
  assert (Hu : Nat.to_uint n = Nat.to_uint m).
  { pose proof (NilEmpty.usu (Nat.to_uint n)) as H1.
    pose proof (NilEmpty.usu (Nat.to_uint m)) as H2.
    rewrite H in H1. congruence. }
  rewrite <- (DecimalNat.Unsigned.of_to n), <- (DecimalNat.Unsigned.of_to m).
  by rewrite Hu.
Qed.

(** A digit string holds no separator: the text after the last ["_"] of a
    generated name is exactly its counter. *)
Lemma digits_then_sep_absurd (d s1 s2 : string) :
  all_chars is_digit d = true -> d = s1 +:+ String underscore s2 -> False.
Proof.
  intros Hd ->. rewrite all_chars_app in Hd. simpl in Hd.
  apply andb_prop in Hd as [_ Hd]. discriminate.
Qed.

Lemma app_sep_digits_inj (a b d1 d2 : string) :
  all_chars is_digit d1 = true -> all_chars is_digit d2 = true ->
  a +:+ String underscore d1 = b +:+ String underscore d2 ->
  a = b /\ d1 = d2.
Proof.
  intros H1 H2. revert b.
  induction a as [|c a IH]; intros [|c' b]; simpl; intros Heq.
  - injection Heq as ->. auto.
  - injection Heq as <- Heq. exfalso. exact (digits_then_sep_absurd _ b d2 H1 Heq).
  - injection Heq as -> Heq. exfalso. exact (digits_then_sep_absurd _ a d1 H2 (eq_sym Heq)).
  - injection Heq as -> Heq. destruct (IH b Heq) as [-> ->]. auto.
Qed.

End TextFacts.

(** ** Symbol table *)

Module SymbolTableFacts.
Import Text TextFacts SymbolTable Specs.

Lemma format_unique_inj prefix n1 c1 n2 c2 :
  format_unique prefix n1 c1 = format_unique prefix n2 c2 -> n1 = n2 /\ c1 = c2.
Proof.
  unfold format_unique. intros H.
  apply (inj (String.app prefix)) in H. simpl in H. injection H as H.
  apply app_sep_digits_inj in H; auto using str_of_nat_digits.
  destruct H as [-> H]. split; [done|]. by apply str_of_nat_inj.
Qed.

Lemma issued_enter_scope k i self u :
  issued self u -> issued (enter_scope k i self) u.
Proof. intros (n & c & -> & Hc). by exists n, c. Qed.

Lemma issued_exit_scope self self' u :
  exit_scope self = Ok self' -> issued self u -> issued self' u.
Proof.
  unfold exit_scope. destruct (_scopes self); [done|].
  intros [= <-] (n & c & -> & Hc). by exists n, c.
Qed.

Lemma declare_inv nm k ty i self info self' :
  _declare nm k ty i self = Ok (info, self') ->
  unique_name info =
    format_unique (_unique_prefix self) nm (default 0 (_name_counters self !! nm) + 1)
  /\ _unique_prefix self' = _unique_prefix self
  /\ _name_counters self' =
       <[nm := default 0 (_name_counters self !! nm) + 1]> (_name_counters self).
Proof.
  unfold _declare. destruct (last (_scopes self)) as [curr|]; [|done].
  destruct (curr !! nm); [done|]. simpl. by intros [= <- <-].
Qed.

Lemma issued_declare nm k ty i self info self' u :
  _declare nm k ty i self = Ok (info, self') -> issued self u -> issued self' u.
Proof.
  intros Hd (n & c & -> & Hc).
  apply declare_inv in Hd as (_ & Hp & Hcnt).
  exists n, c. rewrite Hp, Hcnt. split; [done|].
  destruct (decide (nm = n)) as [->|Hne].
  - rewrite lookup_insert_eq. simpl. lia.
  - by rewrite lookup_insert_ne.
Qed.

Lemma declare_issues_new nm k ty i self info self' :
  _declare nm k ty i self = Ok (info, self') ->
  issued self' (unique_name info) /\ ~ issued self (unique_name info).
Proof.
  intros Hd. apply declare_inv in Hd as (Hu & Hp & Hcnt). split.
  - exists nm, (default 0 (_name_counters self !! nm) + 1).
    rewrite Hu, Hp, Hcnt, lookup_insert_eq. simpl. split; [done|lia].
  - intros (n & c & Heq & Hc). rewrite Hu in Heq.
    apply format_unique_inj in Heq as [-> Hc']. lia.
Qed.

Lemma run_fresh ops : forall self acc,
  Forall (issued self) acc -> NoDup acc ->
  NoDup ((acc ++ map unique_name (run ops self).1)%list).
Proof.
  induction ops as [|op ops IH]; intros self acc Hall Hnd; simpl.
  - by rewrite app_nil_r.
  - destruct op as [sk i| |nm k ty i].
    + apply IH; [|done].
      eapply Forall_impl; [exact Hall|]. intros u. apply issued_enter_scope.
    + destruct (exit_scope self) as [self'|e] eqn:He; [|by apply IH].
      apply IH; [|done].
      eapply Forall_impl; [exact Hall|]. intros u. by apply issued_exit_scope.
    + destruct (_declare nm k ty i self) as [[info self']|e] eqn:Hd; [|by apply IH].
      destruct (declare_issues_new _ _ _ _ _ _ _ Hd) as [Hnew Hold].
      specialize (IH self' (acc ++ [unique_name info])%list).
      destruct (run ops self') as [infos final]. simpl in *.
      rewrite <- app_assoc in IH. simpl in IH. apply IH.
      * apply Forall_app. split.
        -- eapply Forall_impl; [exact Hall|]. intros u. by eapply issued_declare.
        -- by constructor.
      * apply NoDup_app. split_and!; [done| |apply NoDup_singleton].
        intros u Hin Hin'. apply list_elem_of_singleton in Hin' as ->.
        apply Hold. by eapply (proj1 (Forall_forall _ _) Hall).
Qed.

(** C8. Over the whole lifetime of one symbol table (any interleaving of
    enter_scope, exit_scope and declare calls, failed calls included, any
    prefix), the unique names returned by the successful declares are pairwise
    distinct. *)
Theorem unique_names_pairwise_distinct (prefix : string) (ops : list Op) :
  NoDup (map unique_name (run ops (init prefix)).1).
Proof. apply (run_fresh ops (init prefix) []); constructor. Qed.

Lemma last_insert_last {A} (l : list A) (x y : A) :
  last l = Some x -> last (<[length l - 1 := y]> l) = Some y.
Proof.
  intros [l' ->]%last_Some.
  rewrite length_app. simpl.
  replace (length l' + 1 - 1) with (length l' + 0) by lia.
  rewrite insert_app_r. simpl. apply last_snoc.
Qed.

Lemma declare_ok nm k ty i self info self' :
  _declare nm k ty i self = Ok (info, self') ->
  ~ in_top self nm /\ _scopes self <> [] /\ _scopes self' <> [] /\
  (forall n, in_top self' n <-> n = nm \/ in_top self n).
Proof.
  unfold _declare. destruct (last (_scopes self)) as [curr|] eqn:Hl; [|done].
  destruct (curr !! nm) eqn:Hc; [done|]. simpl. intros [= <- <-]. simpl.
  assert (Hne : _scopes self <> []) by (intros E; rewrite E in Hl; done).
  split_and!; [|done| |].
  - intros (c & Hc1 & Hc2). rewrite Hl in Hc1. injection Hc1 as <-.
    rewrite Hc in Hc2. by destruct Hc2.
  - intros E. apply (f_equal length) in E. rewrite length_insert in E.
    destruct (_scopes self); done.
  - intros n. unfold in_top. simpl. rewrite (last_insert_last _ _ _ Hl). split.
    + intros (c & [= <-] & Hs). destruct (decide (n = nm)) as [->|Hn]; [by left|].
      right. exists curr. split; [done|]. by rewrite lookup_insert_ne in Hs.
    + intros [->|(c & Hc1 & Hc2)].
      * eexists. split; [done|]. rewrite lookup_insert_eq. by eexists.
      * rewrite Hl in Hc1. injection Hc1 as <-. eexists. split; [done|].
        destruct (decide (nm = n)) as [->|Hn].
        -- rewrite lookup_insert_eq. by eexists.
        -- by rewrite lookup_insert_ne.
Qed.

Lemma declare_raise nm k ty i self e :
  _declare nm k ty i self = Raise e -> _scopes self <> [] ->
  e = DuplicateDeclaration nm /\ in_top self nm.
Proof.
  unfold _declare. intros H Hne.
  destruct (last (_scopes self)) as [curr|] eqn:Hl.
  - destruct (curr !! nm) eqn:Hc; [|done]. injection H as <-. split; [done|].
    exists curr. split; [done|]. by eexists.
  - apply last_None in Hl. done.
Qed.

Lemma enter_scope_top k i self n : ~ in_top (enter_scope k i self) n.
Proof.
  intros (c & Hc & Hs). simpl in Hc. rewrite last_snoc in Hc.
  injection Hc as <-. rewrite lookup_empty in Hs. by destruct Hs.
Qed.

End SymbolTableFacts.

(** ** Semantic analyzer: the global phase *)

Module AnalyzerFacts.
Import Ast SemanticAnalyzer Specs SymbolTableFacts.

Section declare_each.
Variable duplicate : string -> SemanticError.
Variable declare : string -> SymbolTable.SymbolTable ->
  result SymbolTable.SymbolTableError (SymbolTable.SymbolInfo * SymbolTable.SymbolTable).
Variables (k : SymbolTable.Kind) (ty : option string).
Hypothesis declare_eq : forall n st, declare n st = SymbolTable._declare n k ty 0 st.
Hypothesis duplicate_class : forall n, error_class (duplicate n) = DuplicateDeclaration.

Lemma declare_each_raise names : forall seen st e,
  declare_each duplicate declare names seen st = Raise e ->
  SymbolTable._scopes st <> [] ->
  error_class e = DuplicateDeclaration.
Proof.
  induction names as [|n rest IH]; intros seen st e; simpl; [done|].
  destruct (decide (n ∈ seen)); [by intros [= <-] _|].
  rewrite declare_eq.
  destruct (SymbolTable._declare n k ty 0 st) as [[info st1]|e1] eqn:Hd; simpl.
  - intros H _. apply declare_ok in Hd as (_ & _ & Hne & _). by eapply IH.
  - intros [= <-] Hne. by apply declare_raise in Hd as [-> _].
Qed.

Lemma declare_each_ok names : forall seen st st',
  declare_each duplicate declare names seen st = Ok st' ->
  SymbolTable._scopes st <> [] ->
  SymbolTable._scopes st' <> [] /\
  (forall n, n ∈ names -> ~ in_top st n) /\
  (forall n, in_top st' n <-> n ∈ names \/ in_top st n).
Proof.
  induction names as [|n rest IH]; intros seen st st'; simpl.
  - intros [= <-] Hne. split_and!; [done| |].
    + intros n Hn. by apply elem_of_nil in Hn.
    + intros n. rewrite elem_of_nil. tauto.
  - destruct (decide (n ∈ seen)); [done|]. rewrite declare_eq.
    destruct (SymbolTable._declare n k ty 0 st) as [[info st1]|e1] eqn:Hd; [|done].
    simpl. intros H _.
    apply declare_ok in Hd as (Hfresh & _ & Hne1 & Htop1).
    destruct (IH _ _ _ H Hne1) as (Hne' & Hrest & Htop'). split_and!; [done| |].
    + intros m [->|Hm]%elem_of_cons; [done|].
      intros Hin. apply (Hrest m Hm). apply Htop1. by right.
    + intros m. rewrite Htop', Htop1, elem_of_cons. tauto.
Qed.

End declare_each.

Lemma names_of_kind_disjoint (scope : gmap string SymbolTable.SymbolInfo) k1 k2 :
  k1 <> k2 ->
  SymbolTable.names_of_kind k1 scope ∩ SymbolTable.names_of_kind k2 scope = ∅.
Proof.
  intros Hk. apply set_eq. intros n. unfold SymbolTable.names_of_kind.
  rewrite elem_of_intersection, !elem_of_dom, elem_of_empty. split; [|done].
  intros [[i1 H1] [i2 H2]].
  apply map_lookup_filter_Some in H1 as [H1 E1], H2 as [H2 E2]. simpl in *.
  congruence.
Qed.

Lemma clash_check_passes (st : SymbolTable.SymbolTable) :
  SymbolTable.check_no_global_name_clashes st = Ok tt.
Proof.
  unfold SymbolTable.check_no_global_name_clashes.
  destruct (SymbolTable._scopes st) as [|global_scope rest]; [done|].
  rewrite decide_True; [done|].
  split_and!; by apply names_of_kind_disjoint.
Qed.

Lemma global_phase_clash (p : ProgramNode) :
  has_global_clash p ->
  exists e, global_phase p (SymbolTable.init "v") = Raise e /\
            error_class e = DuplicateDeclaration.
Proof.
  intros (n & Hclash). unfold global_phase.
  change (bool_decide (SymbolTable.current_scope_level (SymbolTable.init "v") = 0))
    with true. cbv iota.
  set (st0 := SymbolTable.enter_scope "Global" 0
                (SymbolTable.enter_scope "Global" 0 (SymbolTable.init "v"))).
  assert (Hne0 : SymbolTable._scopes st0 <> []) by done.
  assert (Htop0 : forall m, ~ in_top st0 m) by (intros m; apply enter_scope_top).
  unfold _visit_variable_decls, _declare_procedures, _declare_functions.
  fold (global_var_names p) (global_proc_names p) (global_func_names p).
  destruct (declare_each _ _ (global_var_names p) ∅ st0) as [st1|e1] eqn:H1; simpl;
    [|exists e1; split; [done|];
      exact (declare_each_raise DuplicateVariableDeclaration (fun n => SymbolTable.declare_var n 0 "numeric")
               SymbolTable.kind_var (Some "numeric") (fun _ _ => eq_refl) (fun _ => eq_refl)
               _ _ _ _ H1 Hne0)].
  apply (declare_each_ok DuplicateVariableDeclaration (fun n => SymbolTable.declare_var n 0 "numeric")
           SymbolTable.kind_var (Some "numeric") (fun _ _ => eq_refl)) in H1
    as (Hne1 & _ & Htop1); [|done].
  destruct (declare_each _ _ (global_proc_names p) ∅ st1) as [st2|e2] eqn:H2; simpl;
    [|exists e2; split; [done|];
      exact (declare_each_raise DuplicateProcedureDeclaration (fun n => SymbolTable.declare_proc n 0)
               SymbolTable.kind_proc None (fun _ _ => eq_refl) (fun _ => eq_refl)
               _ _ _ _ H2 Hne1)].
  apply (declare_each_ok DuplicateProcedureDeclaration (fun n => SymbolTable.declare_proc n 0)
           SymbolTable.kind_proc None (fun _ _ => eq_refl)) in H2
    as (Hne2 & Hfresh2 & Htop2); [|done].
  destruct (declare_each _ _ (global_func_names p) ∅ st2) as [st3|e3] eqn:H3; simpl;
    [|exists e3; split; [done|];
      exact (declare_each_raise DuplicateFunctionDeclaration (fun n => SymbolTable.declare_func n 0)
               SymbolTable.kind_func None (fun _ _ => eq_refl) (fun _ => eq_refl)
               _ _ _ _ H3 Hne2)].
  apply (declare_each_ok DuplicateFunctionDeclaration (fun n => SymbolTable.declare_func n 0)
           SymbolTable.kind_func None (fun _ _ => eq_refl)) in H3
    as (Hne3 & Hfresh3 & Htop3); [|done].
  exfalso. destruct Hclash as [[Hv Hp]|[[Hv Hf]|[Hf Hp]]].
  - apply (Hfresh2 n Hp). apply Htop1. by left.
  - apply (Hfresh3 n Hf). apply Htop2. right. apply Htop1. by left.
  - apply (Hfresh3 n Hf). apply Htop2. by left.
Qed.

(** C1, amended.  A program in which two global entities of different kinds
    share a name is rejected, and the error is a duplicate declaration: the
    three kinds are declared into the one global scope, so the second
    declaration of the name fails (or an earlier duplicate does).  The clash
    check itself passes on every symbol table. *)
Theorem global_clash_is_duplicate_declaration (p : ProgramNode) :
  (has_global_clash p ->
   exists e, analyze p = Raise e /\ error_class e = DuplicateDeclaration) /\
  (forall st, SymbolTable.check_no_global_name_clashes st = Ok tt).
Proof.
  split; [|apply clash_check_passes].
  intros Hc. destruct (global_phase_clash p Hc) as (e & He & Hcl).
  exists e. split; [|done]. unfold analyze, _visit_program. by rewrite He.
Qed.

Lemma global_clash_is_duplicate_declaration_witness :
  exists e, analyze Examples.var_proc_clash = Raise e /\
            error_class e = DuplicateDeclaration.
Proof.
  apply (proj1 (global_clash_is_duplicate_declaration Examples.var_proc_clash)).
  exists "x". left. split; apply list_elem_of_here.
Defined.

(** C1 as stated fails: a variable and a procedure both named [x] clash, and
    the analysis does not end in a GlobalNameClash error. *)
Lemma clash_not_reported_as_name_clash :
  has_global_clash Examples.var_proc_clash /\
  ~ (exists e, analyze Examples.var_proc_clash = Raise e /\
               error_class e = GlobalNameClash).
Proof.
  split.
  - exists "x". left. split; apply list_elem_of_here.
  - intros (e & He & Hc). vm_compute in He. injection He as <-. discriminate.
Qed.

(** The three other uses of a name check what it resolves to: a call as a
    function or as a procedure checks the kind, an assignment checks that the
    target is declared numeric, which procedures and functions are not. *)
Lemma resolved_kind_checked (name : VarNode) (arguments : list AtomNode)
    (rhs : RhsNode) (st : SymbolTable.SymbolTable) (info : SymbolTable.SymbolInfo) :
  SymbolTable.lookup (var_name name) st = Some info ->
  (SymbolTable.kind info <> SymbolTable.kind_func ->
   exists e, _visit_function_call name arguments st = Raise e /\
             error_class e = KindMismatch) /\
  (SymbolTable.kind info <> SymbolTable.kind_proc ->
   exists e, _visit_procedure_call name arguments st = Raise e /\
             error_class e = KindMismatch) /\
  (SymbolTable.decl_type info <> Some "numeric" ->
   exists e, _visit_assignment name rhs st = Raise e /\
             error_class e = KindMismatch).
Proof.
  intros Hl. unfold _visit_function_call, _visit_procedure_call, _visit_assignment.
  rewrite Hl. split_and!; intros Hk; rewrite decide_False by done; by eexists.
Qed.

Example assign_to_procedure_rejected :
  analyze Examples.assign_to_procedure = Raise (CannotAssignNonNumeric "p").
Proof. vm_compute. reflexivity. Qed.

(** C4, at the failing input.  [print p] with [p] a procedure, and [y = f]
    with [f] a function, use a procedure or function name as a variable
    reference; the analysis accepts both programs, and the generator prints
    the procedure's unique name. *)
Theorem atom_naming_procedure_accepted :
  is_ok (analyze Examples.print_procedure_name) = true /\
  is_ok (analyze Examples.assign_function_name) = true /\
  Pipeline.compile Examples.print_procedure_name = Some (Ok ["PRINT v_p_1"]).
Proof. split_and!; vm_compute; reflexivity. Qed.

End AnalyzerFacts.



(** ** Code generator *)

Module CodeGeneratorFacts.
Import Ast SemanticAnalyzer CodeGenerator Specs Pipeline.

(** *** The generator only appends to [ir_code] *)

Lemma extends_refl self : extends self self.
Proof. exists []. by rewrite app_nil_r. Qed.

(** Closes [extends a b] once the facts about the states in between are
    in the context. *)
Ltac solve_extends :=
  try solve [apply extends_refl];
  unfold extends in *;
  repeat match goal with H : exists _, _ |- _ => destruct H as [? H] end;
  simpl in *;
  repeat match goal with H : ir_code _ = _ |- _ => rewrite H; clear H end;
  rewrite <- ?app_assoc; eexists; reflexivity.

(** Splits a hypothesis [r ≫= k = Ok x] into the value of [r] and the rest. *)
Ltac ok_inv :=
  repeat match goal with
  | H : Ok _ = Ok _ |- _ => injection H as H; try subst
  | H : (_, _) = (_, _) |- _ => injection H as ? ?; try subst
  | H : Raise _ = Ok _ |- _ => discriminate H
  | H : mbind _ ?r = Ok _ |- _ =>
      let E := fresh "E" in
      lazymatch type of r with
      | result _ (prod _ _) => destruct r as [[? ?]|?] eqn:E; simpl in H
      | _ => destruct r as [?|?] eqn:E; simpl in H
      end
  end.

Lemma visit_atom_extends a self place self' :
  _visit_AtomNode a self = Ok (place, self') -> extends self self'.
Proof.
  destruct a as [v|n]; simpl.
  - destruct (_visit_VarNode v); simpl; intros H; ok_inv. solve_extends.
  - intros H. ok_inv. solve_extends.
Qed.

Lemma visit_term_extends :
  (forall t self place self', _visit_TermNode t self = Ok (place, self') ->
                              extends self self') /\
  (forall p self place self', _visit_ParenTermNode p self = Ok (place, self') ->
                              extends self self').
Proof.
  apply Term_mutind.
  - intros a self place self' H. by eapply visit_atom_extends.
  - intros p IH self place self' H. by eapply IH.
  - intros op t IH self place self'. simpl. intros H. ok_inv.
    destruct op; [|done]. ok_inv. apply IH in E. solve_extends.
  - intros l IHl op r IHr ty self place self'. simpl.
    destruct (_ && _); [done|]. intros H. ok_inv.
    destruct (op_map op); [|done]. ok_inv. apply IHl in E. apply IHr in E0. solve_extends.
Qed.

Lemma jump_extends :
  (forall t lt lf ng self self',
      _generate_conditional_jump t lt lf ng self = Ok self' -> extends self self') /\
  (forall p lt lf ng self self',
      _generate_conditional_jump (TermParen p) lt lf ng self = Ok self' ->
      extends self self').
Proof.
  destruct visit_term_extends as [Ht _].
  apply Term_mutind.
  - intros a lt lf ng self self'. simpl. intros H. ok_inv.
    apply visit_atom_extends in E. solve_extends.
  - intros p IH. exact IH.
  - intros op t IH lt lf ng self self'. simpl. destruct op; [done|].
    intros H. by eapply IH.
  - intros l IHl op r IHr ty lt lf ng self self'. simpl.
    destruct op; try done; intros H; ok_inv.
    + apply Ht in E. apply Ht in E0. solve_extends.
    + apply Ht in E. apply Ht in E0. solve_extends.
    + apply IHl in E. apply IHr in H. solve_extends.
    + apply IHl in E. apply IHr in H. solve_extends.
Qed.

Lemma visit_arguments_extends args : forall self places self',
  visit_arguments args self = Ok (places, self') -> extends self self'.
Proof.
  induction args as [|a args IH]; simpl; intros self places self' H; ok_inv.
  - solve_extends.
  - apply visit_atom_extends in E. apply IH in E0. solve_extends.
Qed.

Lemma visit_rhs_extends rhs self place self' :
  visit_rhs rhs self = Ok (place, self') -> extends self self'.
Proof.
  destruct rhs as [a|f args|p]; simpl.
  - apply visit_atom_extends.
  - unfold _visit_FunctionCallNode. intros H. ok_inv.
    destruct (symbol_info f) as [info|]; [|done].
    destruct (decide _); [|done]. ok_inv.
    apply visit_arguments_extends in E. solve_extends.
  - apply visit_term_extends.
Qed.

Lemma visit_instr_extends i : forall self self',
  _visit_Instr i self = Ok self' -> extends self self'.
Proof.
  destruct jump_extends as [Hj _]. destruct visit_term_extends as [Ht _].
  assert (Hall : forall l, Forall (fun i => forall self self',
              _visit_Instr i self = Ok self' -> extends self self') l ->
            forall self self', _visit_AlgorithmNode l self = Ok self' ->
                               extends self self').
  { induction 1 as [|x l Hx _ IH]; simpl; intros self self' H; ok_inv.
    - solve_extends.
    - apply Hx in E. apply IH in H. solve_extends. }
  induction i as [|o|v r|n a|c b IHb|b c IHb|c t IHt|c t e IHt IHe]
    using Instr_nested_ind; intros self self'.
  - simpl. intros H. ok_inv. solve_extends.
  - destruct o as [a|s]; simpl; intros H; ok_inv.
    + apply visit_atom_extends in E. solve_extends.
    + solve_extends.
  - simpl. unfold _visit_AssignmentNode. intros H. ok_inv.
    apply visit_rhs_extends in E. solve_extends.
  - simpl. unfold _visit_ProcedureCallNode. intros H. ok_inv.
    destruct (symbol_info n) as [info|]; [|done].
    destruct (decide _); [|done]. ok_inv.
    apply visit_arguments_extends in E. solve_extends.
  - change (_visit_Instr (WhileLoopNode c b) self) with
      (let '(label_cond, s) := _new_label self in
       let '(label_body, s) := _new_label s in
       let '(label_exit, s) := _new_label s in
       let s := _emit ("REM " +:+ label_cond) s in
       s ← _generate_conditional_jump c label_body label_exit false s;
       let s := _emit ("REM " +:+ label_body) s in
       s ← _visit_AlgorithmNode b s;
       let s := _emit ("GOTO " +:+ label_cond) s in
       Ok (_emit ("REM " +:+ label_exit) s)).
    simpl. intros H. ok_inv. apply Hj in E. apply (Hall _ IHb) in E0. solve_extends.
  - change (_visit_Instr (DoUntilLoopNode b c) self) with
      (let '(label_body, s) := _new_label self in
       let '(label_exit, s) := _new_label s in
       let s := _emit ("REM " +:+ label_body) s in
       s ← _visit_AlgorithmNode b s;
       '(cond_place, s) ← _visit_TermNode c s;
       Ok (_emit ("IF " +:+ cond_place +:+ " = 0 THEN " +:+ label_body) s)).
    simpl. intros H. ok_inv. apply (Hall _ IHb) in E. apply Ht in E0. solve_extends.
  - change (_visit_Instr (IfBranchNode c t None) self) with
      (let '(label_then, s) := _new_label self in
       let '(label_exit, s) := _new_label s in
       s ← _generate_conditional_jump c label_then label_exit false s;
       let s := _emit ("GOTO " +:+ label_exit) s in
       let s := _emit ("REM " +:+ label_then) s in
       s ← _visit_AlgorithmNode t s;
       Ok (_emit ("REM " +:+ label_exit) s)).
    simpl. intros H. ok_inv. apply Hj in E. apply (Hall _ IHt) in E0. solve_extends.
  - change (_visit_Instr (IfBranchNode c t (Some e)) self) with
      (let '(label_then, s) := _new_label self in
       let '(label_else, s) := _new_label s in
       let '(label_exit, s) := _new_label s in
       s ← _generate_conditional_jump c label_then label_else false s;
       s ← _visit_AlgorithmNode e s;
       let s := _emit ("GOTO " +:+ label_exit) s in
       let s := _emit ("REM " +:+ label_then) s in
       s ← _visit_AlgorithmNode t s;
       Ok (_emit ("REM " +:+ label_exit) s)).
    simpl. intros H. ok_inv.
    apply Hj in E. apply (Hall _ IHe) in E0. apply (Hall _ IHt) in E1. solve_extends.
Qed.

Lemma visit_algorithm_extends l : forall self self',
  _visit_AlgorithmNode l self = Ok self' -> extends self self'.
Proof.
  induction l as [|x l IH]; simpl; intros self self' H; ok_inv.
  - solve_extends.
  - apply visit_instr_extends in E. apply IH in H. solve_extends.
Qed.

(** The lowering of [If(cond, thenBody, elseBody)]: three labels are
    allocated, then, else and exit in this order; the condition jump is
    generated with the else label as its false target, then come the else
    body, [GOTO exit], [REM then], the then body and [REM exit]. *)
Lemma if_else_lowering (condition : TermNode) (then_branch else_body : list Instr)
    (self final : CodeGenerator) :
  _visit_Instr (IfBranchNode condition then_branch (Some else_body)) self = Ok final ->
  if_else_lowered 3 2 condition then_branch else_body self final.
Proof.
  change (_visit_Instr (IfBranchNode condition then_branch (Some else_body)) self) with
    (let '(label_then, s) := _new_label self in
     let '(label_else, s) := _new_label s in
     let '(label_exit, s) := _new_label s in
     s ← _generate_conditional_jump condition label_then label_else false s;
     s ← _visit_AlgorithmNode else_body s;
     let s := _emit ("GOTO " +:+ label_exit) s in
     let s := _emit ("REM " +:+ label_then) s in
     s ← _visit_AlgorithmNode then_branch s;
     Ok (_emit ("REM " +:+ label_exit) s)).
  simpl. intros H. unfold if_else_lowered.
  replace (_label_counter self + 1 + 1 + 1) with (_label_counter self + 3) in * by lia.
  replace (_label_counter self + 1 + 1) with (_label_counter self + 2) in * by lia.
  destruct (_generate_conditional_jump _ _ _ _ _) as [s1|?] eqn:E; [|done].
  simpl in H.
  destruct (_visit_AlgorithmNode else_body s1) as [s2|?] eqn:E0; [|done].
  simpl in H.
  destruct (_visit_AlgorithmNode then_branch _) as [s3|?] eqn:E1; [|done].
  simpl in H. injection H as <-.
  destruct (proj1 jump_extends _ _ _ _ _ _ E) as [cond_code Hc].
  destruct (visit_algorithm_extends _ _ _ E0) as [else_code He].
  destruct (visit_algorithm_extends _ _ _ E1) as [then_code Ht].
  simpl in Hc, Ht.
  exists s1, s2, s3, cond_code, else_code, then_code.
  split_and!; try done.
  - by rewrite Ht, <- !app_assoc.
  - simpl. rewrite Ht, He, Hc. by rewrite <- !app_assoc.
Qed.

(** A do-until loop on a comparison is lowered: the comparison goes into a
    temporary and the loop repeats while it is 0. *)
Example do_until_comparison_ir :
  compile Examples.do_until_gt
  = Some (Ok ["REM L1"; "STOP"; "t1 = 0"; "t2 = v_x_1 > t1"; "IF t2 = 0 THEN L1"]).
Proof. vm_compute. reflexivity. Qed.

(** With [not] in the condition of an if-else, the jump goes to the else
    label, which no line defines. *)
Example if_not_else_ir :
  compile Examples.if_not_else = Some (Ok InlinerExamples.dangling_body).
Proof. vm_compute. reflexivity. Qed.

(** C2, at the failing inputs.  A do-until loop whose condition is a [not],
    an [and] or an [or] of comparisons passes the analysis, and the generator
    raises on it. *)
Theorem do_until_logical_condition_raises :
  compile Examples.do_until_not = Some (Raise NotOutsideCondition) /\
  compile Examples.do_until_and = Some (Raise (LogicalOutsideCondition op_and)) /\
  compile Examples.do_until_or = Some (Raise (LogicalOutsideCondition op_or)).
Proof. split_and!; vm_compute; reflexivity. Qed.

(** C9.  For [if (x > 0) { x = 1 }] the generated IR is, in this order: the
    constant of the condition, [IF <x> > <temp> THEN L1], [GOTO L2],
    [REM L1], the assignment to the unique name of [x], and [REM L2] last;
    this for any resolution [info] of [x], and the analyzer resolves a global
    [x] to [v_x_1]. *)
Theorem if_then_ir (info : SymbolTable.SymbolInfo) (ty : option Ty) :
  let u := SymbolTable.unique_name info in
  generate (Examples.if_then (Examples.resolved "x" info) ty)
  = Ok ["t1 = 0"; "IF " +:+ u +:+ " > t1 THEN L1"; "GOTO L2"; "REM L1";
        "t2 = 1"; u +:+ " = t2"; "REM L2"]
  /\ compile (Examples.if_then (Var "x") None)
      = Some (Ok ["t1 = 0"; "IF v_x_1 > t1 THEN L1"; "GOTO L2"; "REM L1";
                  "t2 = 1"; "v_x_1 = t2"; "REM L2"]).
Proof. split; [reflexivity|vm_compute; reflexivity]. Qed.

End CodeGeneratorFacts.
(** ** Inliner *)

Module InlinerFacts.
Import Text TextFacts Inliner Specs.

Lemma strip_prefix_Some p : forall s r, strip_prefix p s = Some r <-> s = p +:+ r.
Proof.
  induction p as [|c p IH]; intros s r; simpl.
  - split; [by intros [= ->]|by intros ->].
  - destruct s as [|d s]; [split; discriminate|].
    destruct (Ascii.eqb_spec c d) as [->|Hne].
    + rewrite IH. split; [by intros ->|by intros [= ->]].
    + split; [discriminate|]. intros [= -> _]. done.
Qed.

Lemma strip_prefix_app p r : strip_prefix p (p +:+ r) = Some r.
Proof. by apply strip_prefix_Some. Qed.

Lemma chomp_no_newline s :
  s <> "" -> all_chars no_newline s = true -> chomp s = s.
Proof.
  induction s as [|c s IH]; [done|]. intros _ H. simpl in H.
  apply andb_prop in H as [Hc Hs].
  destruct s as [|d s].
  - simpl. unfold no_newline in Hc. by destruct (Ascii.eqb c newline).
  - change (chomp (String c (String d s))) with (String c (chomp (String d s))).
    by rewrite IH.
Qed.

Lemma chomp_app p s :
  s <> "" -> all_chars no_newline s = true -> chomp (p +:+ s) = p +:+ s.
Proof.
  intros Hne Hs. induction p as [|c p IH]; [by apply chomp_no_newline|].
  change (String c p +:+ s) with (String c (p +:+ s)).
  destruct (p +:+ s) as [|d t] eqn:E.
  - destruct p; [simpl in E; done|discriminate].
  - change (chomp (String c (String d t))) with (String c (chomp (String d t))).
    by rewrite IH.
Qed.

(** [chomp s] is [s] or [s] without its last character. *)
Lemma chomp_prefix s : exists t, s = chomp s +:+ t.
Proof.
  induction s as [|c s [t IH]]; [by exists ""|].
  destruct s as [|d s].
  - simpl. destruct (Ascii.eqb c newline); [by exists (String c "")|by exists ""].
  - change (chomp (String c (String d s))) with (String c (chomp (String d s))).
    exists t. change (String c (String d s) = String c (chomp (String d s) +:+ t)).
    by rewrite <- IH.
Qed.

Lemma all_chars_impl (p q : ascii -> bool) s :
  (forall c, p c = true -> q c = true) -> all_chars p s = true -> all_chars q s = true.
Proof.
  intros Hpq. induction s as [|c s IH]; simpl; [done|].
  intros [Hc Hs]%andb_prop. by rewrite (Hpq c Hc), IH.
Qed.

Lemma digit_no_newline c : is_digit c = true -> no_newline c = true.
Proof.
  unfold is_digit, no_newline. destruct (Ascii.eqb_spec c newline) as [->|]; [|done].
  vm_compute. done.
Qed.

Lemma digit_is_word c : is_digit c = true -> is_word c = true.
Proof. unfold is_word. intros ->. by rewrite orb_true_r. Qed.

Lemma digits1_inv d : digits1 d = true -> d <> "" /\ all_chars is_digit d = true.
Proof.
  unfold digits1. intros [H1 H2]%andb_prop. split; [|done].
  intros ->. done.
Qed.

Lemma is_label_inv l :
  is_label l = true -> exists d, l = String "L"%char d /\ d <> "" /\ all_chars is_digit d = true.
Proof.
  destruct l as [|c d]; [done|]. simpl. intros [Hc Hd]%andb_prop.
  apply Ascii.eqb_eq in Hc as ->. apply digits1_inv in Hd as [? ?]. by exists d.
Qed.

Lemma label_no_newline l : is_label l = true -> l <> "" /\ all_chars no_newline l = true.
Proof.
  intros (d & -> & _ & Hd)%is_label_inv. split; [done|]. simpl.
  eapply all_chars_impl; [apply digit_no_newline|done].
Qed.

(** A line [REM L<n>] is matched by the label pattern. *)
Lemma rem_label_pattern_exact l :
  is_label l = true -> rem_label_pattern ("REM " +:+ l) = Some l.
Proof.
  intros Hl. unfold rem_label_pattern.
  destruct (label_no_newline l Hl) as [Hne Hnl].
  rewrite chomp_app by done. rewrite strip_prefix_app. by rewrite Hl.
Qed.

Lemma rem_label_pattern_inv line l :
  rem_label_pattern line = Some l -> is_label l = true /\ chomp line = "REM " +:+ l.
Proof.
  unfold rem_label_pattern.
  destruct (strip_prefix "REM " (chomp line)) as [l'|] eqn:E; [|done].
  destruct (is_label l') eqn:Hl; [|done]. intros [= <-].
  split; [done|]. by apply strip_prefix_Some.
Qed.


(** The patterns on lines of the tests, and where [$] and the character
    classes matter. *)
Example patterns_on_lines :
  call_pattern "t2 = CALL v_add_1(v_p_7, v_q_8)" = Some ("t2", "v_add_1", "v_p_7, v_q_8") /\
  call_pattern "t2 = CALL v_add_1()" = Some ("t2", "v_add_1", "") /\
  call_pattern "t2 = CALL v_add(1)" = None /\
  call_pattern "t2x = CALL v_add_1(1)" = None /\
  assignment_pattern "v_result_9 = t2" = Some ("v_result_9", "t2") /\
  assignment_pattern "v_result_9 = v_t_4" = None /\
  rem_label_pattern "REM L12" = Some "L12" /\
  rem_label_pattern ("REM L12" +:+ String newline "") = Some "L12" /\
  rem_label_pattern "REM L1_inline_2" = None /\
  jump_pattern "IF t10 > t11 THEN L3" = Some ("IF t10 > t11 THEN", "L3") /\
  jump_pattern "GOTO L4" = Some ("GOTO", "L4") /\
  jump_pattern "IF THEN L1" = None /\
  return_pattern "RETURN v_y_12" = Some "v_y_12" /\
  return_pattern "RETURN t12" = Some "t12" /\
  return_pattern "RETURN 5" = None /\
  parse_call_args " a, b ,,c " = ["a"; "b"; "c"] /\
  has_return ["  RETURN t1"] = true.
Proof. vm_compute. repeat split. Qed.

(** The registry and the calls of the tests. *)
Example inline_calls_on_tests :
  inline_from InlinerExamples.registry
    ["v_p_7 = 5"; "v_q_8 = 10"; InlinerExamples.call_add_vars; "v_result_9 = t2"; "STOP"] 0
  = Ok (["v_p_7 = 5"; "v_q_8 = 10"; "v_a_2 = v_p_7"; "v_b_3 = v_q_8";
         "REM L1_inline_1"; "t1 = v_a_2 + v_b_3"; "v_t_4 = t1";
         "v_result_9 = v_t_4"; "REM L2_inline_1"; "STOP"], 1) /\
  inline_from InlinerExamples.registry
    [InlinerExamples.call_unknown; "v_res_17 = t1"; "STOP"] 0
  = Ok ([InlinerExamples.call_unknown; "v_res_17 = t1"; "STOP"], 0) /\
  inline_from InlinerExamples.registry ["t1 = CALL v_add_1(5)"; "v_res_18 = t1"; "STOP"] 0
  = Raise (ArgumentCountMismatch "v_add_1" 2 1).
Proof. vm_compute. repeat split. Qed.

(** *** The dictionary of the first pass *)

Lemma collect_keeps body k : forall acc l v,
  acc !! l = Some v -> collect_labels body k acc !! l = Some v.
Proof.
  induction body as [|line body IH]; intros acc l v Hl; simpl; [done|].
  destruct (rem_label_pattern line) as [l0|]; [|by apply IH].
  destruct (acc !! l0) eqn:E0; [by apply IH|].
  apply IH. rewrite lookup_insert_ne; [done|]. congruence.
Qed.

Lemma collect_defined body k : forall acc l line,
  line ∈ body -> rem_label_pattern line = Some l -> acc !! l = None ->
  collect_labels body k acc !! l = Some (suffixed l k).
Proof.
  induction body as [|x body IH]; intros acc l line Hin Hm Hacc.
  { by apply elem_of_nil in Hin. }
  simpl. apply elem_of_cons in Hin as [<-|Hin].
  - rewrite Hm, Hacc. apply collect_keeps. by rewrite lookup_insert_eq.
  - destruct (rem_label_pattern x) as [l0|] eqn:E0; [|by eapply IH].
    destruct (acc !! l0) eqn:E1; [by eapply IH|].
    destruct (decide (l0 = l)) as [->|Hne].
    + apply collect_keeps. by rewrite lookup_insert_eq.
    + eapply IH; [done|done|]. by rewrite lookup_insert_ne.
Qed.

Lemma collect_undefined body k : forall acc l,
  (forall line, line ∈ body -> rem_label_pattern line <> Some l) ->
  collect_labels body k acc !! l = acc !! l.
Proof.
  induction body as [|x body IH]; intros acc l Hno; simpl; [done|].
  assert (Hrest : forall line, line ∈ body -> rem_label_pattern line <> Some l).
  { intros line Hin. apply Hno. by right. }
  destruct (rem_label_pattern x) as [l0|] eqn:E0; [|by apply IH].
  destruct (acc !! l0) eqn:E1; [by apply IH|].
  rewrite IH by done. rewrite lookup_insert_ne; [done|].
  intros ->. apply (Hno x); [by left|done].
Qed.


(** *** Jump lines *)

Lemma split_last_Some sep : forall s a b,
  split_last sep s = Some (a, b) ->
  s = a +:+ String sep b /\ all_chars (not_char sep) b = true.
Proof.
  induction s as [|c s IH]; intros a b; simpl; [done|].
  destruct (split_last sep s) as [[a' b']|] eqn:E.
  - intros [= <- <-]. destruct (IH _ _ eq_refl) as [-> H]. done.
  - destruct (Ascii.eqb_spec c sep) as [->|Hne]; [|done]. intros [= <- <-].
    split; [done|]. clear IH. revert E.
    induction s as [|d s IH]; simpl; [done|].
    destruct (split_last sep s) as [[? ?]|]; [done|].
    unfold not_char. destruct (Ascii.eqb d sep); [done|]. intros _. by apply IH.
Qed.

Lemma split_last_None sep s :
  all_chars (not_char sep) s = true -> split_last sep s = None.
Proof.
  induction s as [|c s IH]; simpl; [done|]. intros [Hc Hs]%andb_prop.
  rewrite (IH Hs). unfold not_char in Hc. by destruct (Ascii.eqb c sep).
Qed.

Lemma split_last_app sep a b :
  all_chars (not_char sep) b = true -> split_last sep (a +:+ String sep b) = Some (a, b).
Proof.
  intros Hb. induction a as [|c a IH]; simpl.
  - by rewrite (split_last_None _ _ Hb), Ascii.eqb_refl.
  - by rewrite IH.
Qed.

Lemma label_no_space l : is_label l = true -> all_chars (not_char " ") l = true.
Proof.
  intros (d & -> & _ & Hd)%is_label_inv. simpl.
  eapply all_chars_impl; [|exact Hd].
  intros c. unfold is_digit, not_char.
  destruct (Ascii.eqb_spec c " ") as [->|]; [|done]. vm_compute. done.
Qed.

Lemma jump_pattern_inv line command_part l :
  jump_pattern line = Some (command_part, l) ->
  chomp line = command_part +:+ " " +:+ l /\ is_label l = true /\
  (command_part = "GOTO" \/ is_if_then command_part = true).
Proof.
  unfold jump_pattern.
  destruct (split_last " " (chomp line)) as [[c l']|] eqn:E; [|done].
  destruct (is_label l') eqn:Hl; [|done]. simpl.
  destruct (String.eqb_spec c "GOTO") as [->|Hne]; simpl.
  - intros [= <- <-]. apply split_last_Some in E as [E _]. auto.
  - destruct (is_if_then c) eqn:Hif; [|done]. intros [= <- <-].
    apply split_last_Some in E as [E _]. auto.
Qed.

Lemma jump_not_rem line x : jump_pattern line = Some x -> rem_label_pattern line = None.
Proof.
  destruct x as [c l]. intros (Hc & Hl & Hcmd)%jump_pattern_inv.
  destruct (rem_label_pattern line) as [l'|] eqn:E; [|done]. exfalso.
  apply rem_label_pattern_inv in E as [Hl' E].
  assert (H1 : split_last " " (chomp line) = Some (c, l)).
  { rewrite Hc. apply split_last_app. by apply label_no_space. }
  assert (H2 : split_last " " (chomp line) = Some ("REM", l')).
  { rewrite E. apply (split_last_app " " "REM"). by apply label_no_space. }
  rewrite H1 in H2. injection H2 as -> _. by destruct Hcmd.
Qed.

Lemma return_pattern_inv line p :
  return_pattern line = Some p ->
  is_place p = true /\ exists t, line = "RETURN " +:+ p +:+ t.
Proof.
  unfold return_pattern.
  destruct (strip_prefix "RETURN " (chomp line)) as [p'|] eqn:E; [|done].
  destruct (is_place p') eqn:Hp; [|done]. intros [= <-]. split; [done|].
  apply strip_prefix_Some in E. destruct (chomp_prefix line) as [t Ht].
  exists t. rewrite Ht at 1. by rewrite E.
Qed.

Lemma jump_line_not_return command_part l :
  command_part = "GOTO" \/ is_if_then command_part = true ->
  return_pattern (command_part +:+ " " +:+ l) = None.
Proof.
  intros Hcmd. destruct (return_pattern _) as [p|] eqn:E; [|done]. exfalso.
  apply return_pattern_inv in E as (_ & t & E).
  destruct Hcmd as [->|Hif]; [discriminate|].
  unfold is_if_then in Hif.
  destruct (strip_prefix "IF " command_part) as [r|] eqn:Hr; [|done].
  apply strip_prefix_Some in Hr as ->. discriminate.
Qed.

Lemma adapt_lines_keeps x ir return_target :
  x ∈ ir -> return_pattern x = None -> x ∈ adapt_lines ir return_target.
Proof.
  intros Hin Hx. induction ir as [|y ir IH]; [by apply elem_of_nil in Hin|].
  simpl. apply elem_of_cons in Hin as [<-|Hin].
  - rewrite Hx. by left.
  - destruct (return_pattern y); [|right; by apply IH].
    destruct (truthy return_target); [right|]; by apply IH.
Qed.

(** C10.  A label that a GOTO or IF...THEN line of a callee body refers to
    and that no [REM L<n>] line of that body defines is copied without a
    suffix: the line of the relabelled body is the command and the label as
    they were, whatever the call site, and it is part of every adapted copy
    of the body. *)
Theorem undefined_label_copied_unchanged (body : list string) (inline_id i : nat)
    (line command_part label : string) :
  body !! i = Some line ->
  jump_pattern line = Some (command_part, label) ->
  (forall line', line' ∈ body -> rem_label_pattern line' <> Some label) ->
  _make_labels_unique body inline_id !! i = Some (command_part +:+ " " +:+ label) /\
  forall return_target,
    command_part +:+ " " +:+ label ∈ _adapt_body body return_target inline_id.
Proof.
  intros Hi Hj Hundef.
  assert (Hline : _make_labels_unique body inline_id !! i
                  = Some (command_part +:+ " " +:+ label)).
  { unfold _make_labels_unique.
    rewrite (list_lookup_fmap_Some_2 (relabel_line _) body i line Hi). f_equal.
    unfold relabel_line. rewrite (jump_not_rem _ _ Hj), Hj.
    by rewrite collect_undefined, lookup_empty. }
  split; [done|]. intros return_target. unfold _adapt_body.
  apply adapt_lines_keeps.
  - by eapply list_elem_of_lookup_2.
  - apply jump_line_not_return. by apply jump_pattern_inv in Hj as (_ & _ & ?).
Qed.

Lemma undefined_label_copied_unchanged_witness :
  _make_labels_unique InlinerExamples.dangling_body 7 !! 1
    = Some ("IF v_x_1 > t1 THEN" +:+ " " +:+ "L2") /\
  forall return_target,
    "IF v_x_1 > t1 THEN" +:+ " " +:+ "L2"
      ∈ _adapt_body InlinerExamples.dangling_body return_target 7.
Proof.
  apply (undefined_label_copied_unchanged InlinerExamples.dangling_body 7 1
           "IF v_x_1 > t1 THEN L2").
  - reflexivity.
  - vm_compute. reflexivity.
  - intros line' Hin.
    repeat (apply elem_of_cons in Hin as [->|Hin]; [vm_compute; discriminate|]).
    by apply elem_of_nil in Hin.
Defined.


(** *** The loop of [inline_calls] *)

Section loop.
Variable fb : gmap string FunctionBodyInfo.

Lemma inline_from_copy instruction rest c :
  copied fb instruction ->
  inline_from fb (instruction :: rest) c
  = '(out, c') ← inline_from fb rest c; Ok (instruction :: out, c').
Proof.
  unfold copied. simpl.
  destruct (call_pattern instruction) as [[[t f] a]|]; [|done]. by intros ->.
Qed.

Lemma inline_from_call instruction rest c target func_name args_str func_info :
  call_pattern instruction = Some (target, func_name, args_str) ->
  fb !! func_name = Some func_info ->
  inline_from fb (instruction :: rest) c
  = let '(actual_return_target, skip) := return_target_of func_info target (head rest) in
    if decide (length (parse_call_args args_str) = length (params func_info)) then
      '(out, c') ← inline_from fb (if skip then tail rest else rest) (c + 1);
      Ok ((param_assignments (params func_info) (parse_call_args args_str)
           ++ _adapt_body (body_ir func_info) actual_return_target (c + 1) ++ out)%list, c')
    else Raise (ArgumentCountMismatch func_name (length (params func_info))
                  (length (parse_call_args args_str))).
Proof.
  intros Hc Hf. simpl. rewrite Hc, Hf.
  destruct (return_target_of func_info target (head rest)) as [rt skip].
  destruct (decide _); [|done]. destruct skip; [|done]. by destruct rest.
Qed.

(** A call line is not a copy line: the look-ahead never skips a call. *)
Lemma call_not_assignment line x :
  call_pattern line = Some x -> assignment_pattern line = None.
Proof.
  unfold call_pattern, assignment_pattern.
  destruct (span is_word (chomp line)) as [w r1].
  destruct (is_place w); [|done].
  destruct (strip_prefix " = CALL " r1) as [r2|] eqn:E; [|done]. intros _.
  apply strip_prefix_Some in E as ->.
  by destruct (is_unique_name w).
Qed.

Lemma return_target_of_skip info target next rt :
  return_target_of info target next = (rt, true) ->
  exists line final, next = Some line /\ assignment_pattern line = Some (final, target)
                     /\ rt = Some final.
Proof.
  unfold return_target_of. destruct (has_return _); [|done].
  destruct next as [line|]; [|done].
  destruct (assignment_pattern line) as [[final t]|] eqn:E; [|done].
  destruct (String.eqb_spec t target) as [->|]; [|done].
  intros [= <-]. by exists line, final.
Qed.

Lemma return_target_of_no_assignment info target line :
  assignment_pattern line = None ->
  return_target_of info target (Some line) = return_target_of info target None.
Proof. unfold return_target_of. by intros ->. Qed.

Lemma inline_from_app_bounded n : forall pre l c,
  length pre <= n -> not_assignment l ->
  inline_from fb (pre ++ l) c
  = '(o1, c1) ← inline_from fb pre c;
    '(o2, c2) ← inline_from fb l c1;
    Ok ((o1 ++ o2)%list, c2).
Proof.
  induction n as [|n IH]; intros pre l c Hlen Hl.
  { destruct pre; [|simpl in Hlen; lia]. simpl.
    by destruct (inline_from fb l c) as [[o2 c2]|e]. }
  destruct pre as [|instruction pre].
  { simpl. by destruct (inline_from fb l c) as [[o2 c2]|e]. }
  simpl in Hlen.
  change ((instruction :: pre) ++ l)%list with (instruction :: (pre ++ l))%list.
  destruct (call_pattern instruction) as [[[target f] args]|] eqn:Hc.
  2:{ rewrite !inline_from_copy by (unfold copied; by rewrite Hc).
      rewrite IH by (done || lia).
      destruct (inline_from fb pre c) as [[o1 c1]|e]; [|done]. simpl.
      by destruct (inline_from fb l c1) as [[o2 c2]|e]. }
  destruct (fb !! f) as [info|] eqn:Hf.
  2:{ rewrite !inline_from_copy by (unfold copied; by rewrite Hc).
      rewrite IH by (done || lia).
      destruct (inline_from fb pre c) as [[o1 c1]|e]; [|done]. simpl.
      by destruct (inline_from fb l c1) as [[o2 c2]|e]. }
  rewrite !(inline_from_call _ _ _ _ _ _ _ Hc Hf).
  assert (Hrt : return_target_of info target (head (pre ++ l))
                = return_target_of info target (head pre)).
  { destruct pre as [|y pre]; [|done]. simpl. unfold not_assignment in Hl.
    destruct (head l) as [x|]; [|done]. by apply return_target_of_no_assignment. }
  rewrite Hrt.
  destruct (return_target_of info target (head pre)) as [rt skip] eqn:Hrt'.
  destruct (decide _); [|done].
  assert (Hrec : (if skip then tail (pre ++ l) else pre ++ l)
                 = ((if skip then tail pre else pre) ++ l)%list).
  { destruct skip; [|done]. destruct pre as [|y pre]; [|done].
    apply return_target_of_skip in Hrt' as (? & ? & ? & _). done. }
  rewrite Hrec. rewrite IH; [|destruct skip, pre; simpl in *; lia|done].
  destruct (inline_from fb (if skip then tail pre else pre) (c + 1)) as [[o1 c1]|?];
    [|done]. simpl.
  destruct (inline_from fb l c1) as [[o2 c2]|?]; [|done]. simpl.
  by rewrite <- !app_assoc.
Qed.

Lemma inline_from_app pre l c :
  not_assignment l ->
  inline_from fb (pre ++ l) c
  = '(o1, c1) ← inline_from fb pre c;
    '(o2, c2) ← inline_from fb l c1;
    Ok ((o1 ++ o2)%list, c2).
Proof. by apply (inline_from_app_bounded (length pre)). Qed.

End loop.

(** C7.  A call whose callee is not in the registry is in the output as it
    was, between the output for the instructions before it and the output for
    the instructions after it: the pass goes on with the rest, and raises only
    where the instructions before or after make it raise. *)
Theorem unknown_callee_kept (self : Inliner) (pre rest : list string)
    (instruction target func_name args_str : string) :
  call_pattern instruction = Some (target, func_name, args_str) ->
  function_bodies self !! func_name = None ->
  inline_calls self (pre ++ instruction :: rest)
  = '(out_pre, self1) ← inline_calls self pre;
    '(out_rest, self2) ← inline_calls self1 rest;
    Ok ((out_pre ++ instruction :: out_rest)%list, self2).
Proof.
  intros Hc Hf. unfold inline_calls.
  rewrite inline_from_app by (unfold not_assignment; simpl; by eapply call_not_assignment).
  destruct (inline_from _ pre _) as [[o1 c1]|e]; [|done].
  cbv beta iota delta [mbind result_bind].
  rewrite inline_from_copy by (unfold copied; by rewrite Hc).
  simpl. by destruct (inline_from _ rest c1) as [[o2 c2]|e].
Qed.

Lemma unknown_callee_kept_witness :
  inline_calls (init InlinerExamples.registry)
    (["v_x_1 = 5"] ++ InlinerExamples.call_unknown :: ["v_res_17 = t1"; "STOP"])
  = '(out_pre, self1) ← inline_calls (init InlinerExamples.registry) ["v_x_1 = 5"];
    '(out_rest, self2) ← inline_calls self1 ["v_res_17 = t1"; "STOP"];
    Ok (out_pre ++ InlinerExamples.call_unknown :: out_rest, self2).
Proof.
  apply (unknown_callee_kept (init InlinerExamples.registry) ["v_x_1 = 5"]
           ["v_res_17 = t1"; "STOP"] InlinerExamples.call_unknown
           "t1" "v_undefined_func_99" "1").
  - vm_compute. reflexivity.
  - vm_compute. reflexivity.
Defined.


(** *** Places and the copy after a call *)

Lemma word_no_newline c : is_word c = true -> no_newline c = true.
Proof.
  unfold no_newline. destruct (Ascii.eqb_spec c newline) as [->|]; [|done].
  vm_compute. done.
Qed.

Lemma word_no_space c : is_word c = true -> not_char " " c = true.
Proof.
  unfold not_char. destruct (Ascii.eqb_spec c " ") as [->|]; [|done].
  vm_compute. done.
Qed.

Lemma is_unique_name_word s :
  is_unique_name s = true -> s <> "" /\ all_chars is_word s = true.
Proof.
  unfold is_unique_name.
  destruct (strip_prefix "v_" s) as [[|c r]|] eqn:E; try done.
  intros [Hw _]%andb_prop. apply strip_prefix_Some in E as ->. split; [done|].
  simpl in *. done.
Qed.

Lemma is_temp_word s : is_temp s = true -> s <> "" /\ all_chars is_word s = true.
Proof.
  destruct s as [|c d]; [done|]. simpl. intros [Hc Hd]%andb_prop.
  apply Ascii.eqb_eq in Hc as ->. apply digits1_inv in Hd as [_ Hd].
  split; [done|]. simpl. eapply all_chars_impl; [apply digit_is_word|done].
Qed.

Lemma is_place_word s : is_place s = true -> s <> "" /\ all_chars is_word s = true.
Proof.
  unfold is_place. intros [H|H]%orb_prop;
    [by apply is_temp_word|by apply is_unique_name_word].
Qed.

Lemma span_app (p : ascii -> bool) a c r :
  all_chars p a = true -> p c = false -> span p (a +:+ String c r) = (a, String c r).
Proof.
  intros Ha Hc. induction a as [|x a IH]; simpl.
  - by rewrite Hc.
  - simpl in Ha. apply andb_prop in Ha as [Hx Ha]. by rewrite Hx, (IH Ha).
Qed.

Lemma append_assoc (a b c : string) : (a +:+ b) +:+ c = a +:+ (b +:+ c).
Proof.
  induction a as [|x a IH]; [done|].
  change (String x ((a +:+ b) +:+ c) = String x (a +:+ (b +:+ c))). by rewrite IH.
Qed.

(** The text [<final> = <target>] is matched by the copy pattern. *)
Lemma assignment_pattern_exact final target :
  is_unique_name final = true -> is_temp target = true ->
  assignment_pattern (final +:+ " = " +:+ target) = Some (final, target).
Proof.
  intros Hf Ht. unfold assignment_pattern.
  destruct (is_unique_name_word _ Hf) as [_ Hfw].
  destruct (is_temp_word _ Ht) as [Htne Htw].
  rewrite <- (append_assoc final " = " target).
  rewrite chomp_app; [|done|by eapply all_chars_impl; [apply word_no_newline|]].
  rewrite (append_assoc final " = " target).
  change (" = " +:+ target) with (String " " ("= " +:+ target)).
  rewrite span_app by done. rewrite Hf.
  change (String " " ("= " +:+ target)) with (" = " +:+ target).
  by rewrite strip_prefix_app, Ht.
Qed.

Lemma return_pattern_exact place :
  is_place place = true -> return_pattern ("RETURN " +:+ place) = Some place.
Proof.
  intros Hp. destruct (is_place_word _ Hp) as [Hne Hw]. unfold return_pattern.
  rewrite chomp_app; [|done|by eapply all_chars_impl; [apply word_no_newline|]].
  by rewrite strip_prefix_app, Hp.
Qed.

Lemma call_pattern_inv line target callee args :
  call_pattern line = Some (target, callee, args) -> is_place target = true.
Proof.
  unfold call_pattern. destruct (span is_word (chomp line)) as [w r1].
  destruct (is_place w) eqn:Hw; [|done].
  destruct (strip_prefix " = CALL " r1) as [r2|]; [|done].
  destruct (span is_word r2) as [f r3]. destruct (is_unique_name f); [|done].
  destruct r3 as [|c r4]; [done|]. destruct (Ascii.eqb c "("); [|done].
  destruct (span _ r4) as [a r5]. destruct (String.eqb r5 ")"); [|done].
  by intros [= <- _ _].
Qed.

(** *** Labels of the copies *)

Lemma collect_spec body k l :
  collect_labels body k ∅ !! l = None \/
  collect_labels body k ∅ !! l = Some (suffixed l k).
Proof.
  destruct (decide (Exists (fun line => rem_label_pattern line = Some l) body))
    as [Hex|Hno].
  - right. apply Exists_exists in Hex as (line & Hin & Hm).
    by eapply collect_defined.
  - left. rewrite collect_undefined; [done|].
    intros line Hin Hm. apply Hno. apply Exists_exists. by exists line.
Qed.


(** *** Label definitions in the output *)

Lemma labels_defined_cons line ir :
  labels_defined (line :: ir)
  = match defines line with
    | Some l => l :: labels_defined ir
    | None => labels_defined ir
    end.
Proof. done. Qed.

Lemma labels_defined_app ir1 ir2 :
  labels_defined (ir1 ++ ir2) = labels_defined ir1 ++ labels_defined ir2.
Proof. apply omap_app. Qed.

Lemma defines_inv line l : defines line = Some l -> line = "REM " +:+ l.
Proof. apply strip_prefix_Some. Qed.

Lemma defines_first c r x :
  c <> "R"%char -> defines (String c r +:+ x) = None.
Proof.
  intros Hc. unfold defines.
  change (strip_prefix "REM " (String c r +:+ x))
    with (if Ascii.eqb "R" c then strip_prefix "EM " (r +:+ x) else None).
  by destruct (Ascii.eqb_spec "R" c) as [<-|].
Qed.

Lemma is_place_first d :
  is_place d = true -> exists c r, d = String c r /\ c <> "R"%char.
Proof.
  unfold is_place. intros [H|H]%orb_prop.
  - destruct d as [|c r]; [done|]. simpl in H. apply andb_prop in H as [Hc _].
    apply Ascii.eqb_eq in Hc as ->. by exists "t"%char, r.
  - unfold is_unique_name in H.
    destruct (strip_prefix "v_" d) as [r|] eqn:E; [|done].
    apply strip_prefix_Some in E as ->. by exists "v"%char, (String "_" r).
Qed.

Lemma defines_place_assignment d x : is_place d = true -> defines (d +:+ x) = None.
Proof. intros (c & r & -> & Hc)%is_place_first. by apply defines_first. Qed.

Lemma defines_jump command_part x :
  command_part = "GOTO" \/ is_if_then command_part = true ->
  defines (command_part +:+ x) = None.
Proof.
  intros [->|H]; [done|]. unfold is_if_then in H.
  destruct (strip_prefix "IF " command_part) as [r|] eqn:E; [|done].
  apply strip_prefix_Some in E as ->. done.
Qed.

Lemma return_pattern_rem x : return_pattern ("REM " +:+ x) = None.
Proof.
  destruct (return_pattern _) as [p|] eqn:E; [|done].
  apply return_pattern_inv in E as (_ & t & E). discriminate.
Qed.

Lemma rem_pattern_defines line l :
  rem_label_pattern line = Some l -> exists l', defines line = Some l'.
Proof.
  intros [_ E]%rem_label_pattern_inv. destruct (chomp_prefix line) as [t Ht].
  exists (l +:+ t). unfold defines. apply strip_prefix_Some.
  rewrite Ht at 1. rewrite E. by rewrite append_assoc.
Qed.

Lemma relabel_defines_none m line :
  defines line = None -> defines (relabel_line m line) = None.
Proof.
  intros Hd. unfold relabel_line.
  destruct (rem_label_pattern line) as [l|] eqn:E.
  { apply rem_pattern_defines in E as [l' E]. congruence. }
  destruct (jump_pattern line) as [[cmd l]|] eqn:Ej; [|done].
  apply defines_jump. by apply jump_pattern_inv in Ej as (_ & _ & ?).
Qed.

Lemma generated_labels_inv ir :
  generated_labels ir = true -> plain_labels ir /\ NoDup (labels_defined ir).
Proof.
  unfold generated_labels. intros [H1 H2]%andb_prop. split.
  - apply Forall_forall. intros line Hin l Hl.
    rewrite forallb_forall in H1. specialize (H1 line).
    rewrite Hl in H1. apply H1. by apply list_elem_of_In.
  - by apply bool_decide_eq_true in H2.
Qed.

Lemma adapt_lines_cons line rest rt :
  adapt_lines (line :: rest) rt
  = match return_pattern line with
    | Some place =>
        match truthy rt with
        | Some target => (target +:+ " = " +:+ place) :: adapt_lines rest rt
        | None => adapt_lines rest rt
        end
    | None => line :: adapt_lines rest rt
    end.
Proof. done. Qed.

Lemma adapted_labels body k rt :
  plain_labels body -> place_or_none rt ->
  labels_defined (_adapt_body body rt k)
  = map (fun l => suffixed l k) (labels_defined body).
Proof.
  intros Hwf Hrt. unfold _adapt_body, _make_labels_unique.
  set (m := collect_labels body k ∅).
  assert (H : forall ir, (forall line, line ∈ ir -> line ∈ body) ->
            labels_defined (adapt_lines (map (relabel_line m) ir) rt)
            = map (fun l => suffixed l k) (labels_defined ir)); [|by apply H].
  induction ir as [|line ir IH]; intros Hsub; [done|].
  assert (Hin : line ∈ body) by (apply Hsub; by left).
  assert (Hsub' : forall x, x ∈ ir -> x ∈ body) by (intros x Hx; apply Hsub; by right).
  specialize (IH Hsub').
  change (map (relabel_line m) (line :: ir))
    with (relabel_line m line :: map (relabel_line m) ir).
  rewrite (labels_defined_cons line).
  destruct (defines line) as [l|] eqn:Hd.
  - assert (Hl : is_label l = true).
    { unfold plain_labels in Hwf. rewrite Forall_forall in Hwf.
      by apply (Hwf line Hin). }
    apply defines_inv in Hd as ->.
    assert (Hy : relabel_line m ("REM " +:+ l) = "REM " +:+ suffixed l k).
    { unfold relabel_line. rewrite (rem_label_pattern_exact _ Hl). unfold m.
      by rewrite (collect_defined _ _ _ _ _ Hin (rem_label_pattern_exact _ Hl)). }
    rewrite Hy, adapt_lines_cons, return_pattern_rem.
    rewrite labels_defined_cons. unfold defines at 1. rewrite strip_prefix_app.
    by rewrite IH.
  - pose proof (relabel_defines_none m line Hd) as Hy.
    rewrite adapt_lines_cons.
    destruct (return_pattern (relabel_line m line)) as [p|].
    + destruct rt as [d|]; [|done]. simpl in Hrt.
      destruct d as [|c d]; [done|]. cbv beta iota delta [truthy].
      by rewrite labels_defined_cons, (defines_place_assignment (String c d)).
    + by rewrite labels_defined_cons, Hy.
Qed.


(** *** Suffixed labels do not collide *)

Lemma digits_then_sep_inj (d1 d2 r1 r2 : string) :
  all_chars is_digit d1 = true -> all_chars is_digit d2 = true ->
  d1 +:+ String underscore r1 = d2 +:+ String underscore r2 ->
  d1 = d2 /\ r1 = r2.
Proof.
  revert d2. induction d1 as [|c d1 IH]; intros [|c' d2] H1 H2 Heq.
  - by injection Heq as ->.
  - injection Heq as <- _. simpl in H2. done.
  - injection Heq as -> _. simpl in H1. done.
  - change (String c (d1 +:+ String underscore r1)
            = String c' (d2 +:+ String underscore r2)) in Heq.
    injection Heq as -> Heq. simpl in H1, H2.
    apply andb_prop in H1 as [_ H1]. apply andb_prop in H2 as [_ H2].
    by destruct (IH d2 H1 H2 Heq) as [-> ->].
Qed.

Lemma suffixed_inj l1 k1 l2 k2 :
  is_label l1 = true -> is_label l2 = true ->
  suffixed l1 k1 = suffixed l2 k2 -> l1 = l2 /\ k1 = k2.
Proof.
  intros (d1 & -> & _ & H1)%is_label_inv (d2 & -> & _ & H2)%is_label_inv.
  unfold suffixed. intros Heq.
  change (String "L" (d1 +:+ String underscore ("inline_" +:+ str_of_nat k1))
          = String "L" (d2 +:+ String underscore ("inline_" +:+ str_of_nat k2))) in Heq.
  injection Heq as Heq.
  apply digits_then_sep_inj in Heq as [-> Heq]; [|done|done].
  split; [done|]. apply (inj (String.app "inline_")) in Heq.
  by apply str_of_nat_inj.
Qed.

Lemma suffixed_not_label l k : is_label l = true -> is_label (suffixed l k) = false.
Proof.
  intros (d & -> & _ & Hd)%is_label_inv. unfold suffixed.
  change (String "L" d +:+ "_inline_" +:+ str_of_nat k)
    with (String "L" (d +:+ String underscore ("inline_" +:+ str_of_nat k))).
  simpl. unfold digits1. rewrite all_chars_app. simpl. by rewrite !andb_false_r.
Qed.

Lemma binds_no_labels ps args :
  forallb is_unique_name ps = true -> labels_defined (param_assignments ps args) = [].
Proof.
  revert args. induction ps as [|p ps IH]; intros args; [done|]. simpl.
  intros [Hp Hps]%andb_prop. destruct args as [|a args]; [done|].
  change (param_assignments (p :: ps) (a :: args))
    with ((p +:+ " = " +:+ a) :: param_assignments ps args).
  rewrite labels_defined_cons, defines_place_assignment.
  - by apply IH.
  - unfold is_place. by rewrite Hp, orb_true_r.
Qed.

Lemma assignment_pattern_inv line final t :
  assignment_pattern line = Some (final, t) -> is_unique_name final = true.
Proof.
  unfold assignment_pattern. destruct (span is_word (chomp line)) as [w r1].
  destruct (is_unique_name w) eqn:Hw; [|done].
  destruct (strip_prefix " = " r1) as [x|]; [|done].
  destruct (is_temp x); [|done]. by intros [= <- _].
Qed.

Lemma return_target_is_place info instruction target callee args next rt skip :
  call_pattern instruction = Some (target, callee, args) ->
  return_target_of info target next = (rt, skip) -> place_or_none rt.
Proof.
  intros Hc%call_pattern_inv. unfold return_target_of.
  destruct (has_return _); [|by intros [= <- _]].
  destruct next as [line|]; [|by intros [= <- _]].
  destruct (assignment_pattern line) as [[final t]|] eqn:Ha; [|by intros [= <- _]].
  destruct (String.eqb t target); intros [= <- _]; [|done].
  simpl. unfold is_place. apply assignment_pattern_inv in Ha. by rewrite Ha, orb_true_r.
Qed.

Section labels.
Variable fb : gmap string FunctionBodyInfo.
Hypothesis fb_generated : registry_generated fb.

Lemma plain_labels_defined ir l :
  plain_labels ir -> l ∈ labels_defined ir -> is_label l = true.
Proof.
  intros Hwf Hin. unfold labels_defined in Hin.
  apply list_elem_of_omap in Hin as (line & Hline & Hd).
  unfold plain_labels in Hwf. rewrite Forall_forall in Hwf. by eapply Hwf.
Qed.

Lemma inline_labels_bounded n : forall ir c out c',
  length ir <= n -> plain_labels ir -> NoDup (labels_defined ir) ->
  inline_from fb ir c = Ok (out, c') ->
  c <= c' /\ NoDup (labels_defined out) /\
  forall l, l ∈ labels_defined out -> label_origin ir c c' l.
Proof.
  induction n as [|n IH]; intros ir c out c' Hlen Hwf Hnd H.
  { destruct ir; [|simpl in Hlen; lia]. injection H as <- <-.
    split_and!; [done|constructor|]. intros l Hl. by apply elem_of_nil in Hl. }
  destruct ir as [|instruction rest].
  { injection H as <- <-.
    split_and!; [done|constructor|]. intros l Hl. by apply elem_of_nil in Hl. }
  simpl in Hlen. apply Forall_cons in Hwf as [Hwf1 Hwf].
  rewrite labels_defined_cons in Hnd.
  assert (Hnd' : NoDup (labels_defined rest)).
  { destruct (defines instruction); [by apply NoDup_cons in Hnd as [_ ?]|done]. }
  assert (Hup : forall l, l ∈ labels_defined rest ->
                          l ∈ labels_defined (instruction :: rest)).
  { intros l Hl. rewrite labels_defined_cons.
    destruct (defines instruction); [by right|done]. }
  assert (Hhd : forall l, defines instruction = Some l ->
                          l ∈ labels_defined (instruction :: rest)).
  { intros l Hl. rewrite labels_defined_cons, Hl. by left. }
  assert (Hcopy : copied fb instruction ->
    c <= c' /\ NoDup (labels_defined out) /\
    forall l, l ∈ labels_defined out -> label_origin (instruction :: rest) c c' l).
  { intros Hcp. rewrite inline_from_copy in H by done.
    destruct (inline_from fb rest c) as [[o c1]|e] eqn:E; [|done].
    injection H as <- <-.
    destruct (IH rest c o c1 ltac:(lia) Hwf Hnd' E) as (Hle & Hndo & Hor).
    split; [done|]. rewrite (labels_defined_cons instruction o).
    destruct (defines instruction) as [l0|] eqn:Hd0.
    - split.
      + apply NoDup_cons. split; [|done]. intros Hin.
        apply NoDup_cons in Hnd as [Hnotin _].
        destruct (Hor l0 Hin) as [?|(b & k & Hb & _ & ->)]; [done|].
        pose proof (Hwf1 _ eq_refl) as Hl0. by rewrite suffixed_not_label in Hl0.
      + intros l [->|Hl]%elem_of_cons; [left; by apply Hhd|].
        destruct (Hor l Hl) as [?|?]; [left; by apply Hup|by right].
    - split; [done|]. intros l Hl.
      destruct (Hor l Hl) as [?|?]; [left; by apply Hup|by right]. }
  destruct (call_pattern instruction) as [[[target f] args]|] eqn:Hc;
    [|apply Hcopy; unfold copied; by rewrite Hc].
  destruct (fb !! f) as [info|] eqn:Hf;
    [|apply Hcopy; unfold copied; by rewrite Hc].
  clear Hcopy.
  rewrite (inline_from_call _ _ _ _ _ _ _ _ Hc Hf) in H.
  destruct (return_target_of info target (head rest)) as [rt skip] eqn:Hrt.
  destruct (decide _); [|done].
  destruct (inline_from fb (if skip then tail rest else rest) (c + 1))
    as [[o c1]|?] eqn:E; [|done].
  injection H as <- <-.
  set (rest' := if skip then tail rest else rest) in *.
  assert (Hsub : forall l, l ∈ labels_defined rest' -> l ∈ labels_defined rest).
  { subst rest'. destruct skip; [|done]. destruct rest as [|x rest]; [done|].
    intros l Hl. simpl tail in Hl. rewrite labels_defined_cons.
    destruct (defines x); [by right|done]. }
  assert (Hwf' : plain_labels rest').
  { subst rest'. destruct skip; [|done]. destruct rest as [|x rest]; [done|].
    by apply Forall_cons in Hwf as [_ ?]. }
  assert (Hnd'' : NoDup (labels_defined rest')).
  { subst rest'. destruct skip; [|done]. destruct rest as [|x rest]; [done|].
    rewrite labels_defined_cons in Hnd'.
    destruct (defines x); [by apply NoDup_cons in Hnd' as [_ ?]|done]. }
  assert (Hlen' : length rest' <= n).
  { subst rest'. destruct skip; [|lia]. destruct rest; simpl in *; lia. }
  destruct (IH rest' (c + 1) o c1 Hlen' Hwf' Hnd'' E) as (Hle & Hndo & Hor).
  pose proof (fb_generated f info Hf) as Hgen. unfold generated_body in Hgen.
  apply andb_prop in Hgen as [Hbody Hparams].
  apply generated_labels_inv in Hbody as [Hbwf Hbnd].
  rewrite !labels_defined_app, (binds_no_labels _ _ Hparams).
  rewrite (adapted_labels _ _ _ Hbwf (return_target_is_place _ _ _ _ _ _ _ _ Hc Hrt)).
  split; [lia|]. simpl app. split.
  - apply NoDup_app. split_and!; [|intros l Hl1 Hl2|done].
    + apply (NoDup_fmap_2_strong (fun l => suffixed l (c + 1))); [|done].
      intros x y Hx Hy Heq.
      by apply suffixed_inj in Heq as [? _]; [|by eapply plain_labels_defined..].
    + apply (list_elem_of_fmap_1 (fun l => suffixed l (c + 1))) in Hl1
        as (b & -> & Hb).
      pose proof (plain_labels_defined _ _ Hbwf Hb) as Hlb.
      destruct (Hor _ Hl2) as [Hin|(b' & k & Hb' & Hk & Heq)].
      * apply Hsub in Hin. pose proof (plain_labels_defined _ _ Hwf Hin) as Hcontra.
        by rewrite suffixed_not_label in Hcontra.
      * apply suffixed_inj in Heq as [_ ?]; [lia|done|done].
  - intros l [Hl|Hl]%elem_of_app.
    + apply (list_elem_of_fmap_1 (fun l => suffixed l (c + 1))) in Hl as (b & -> & Hb).
      right. exists b, (c + 1). split_and!; [by eapply plain_labels_defined|lia|lia|done].
    + destruct (Hor _ Hl) as [Hin|(b' & k & Hb' & Hk & ->)].
      * left. by apply Hup, Hsub.
      * right. exists b', k. split_and!; [done|lia|lia|done].
Qed.

End labels.


Lemma inline_copied fb pre c :
  Forall (copied fb) pre -> inline_from fb pre c = Ok (pre, c).
Proof.
  induction 1 as [|x pre Hx _ IH]; [done|].
  rewrite inline_from_copy by done. by rewrite IH.
Qed.

End InlinerFacts.

(** * More properties *)

(** ** Symbol table: scopes, lookup and numbering *)

Module SymbolTableMoreFacts.
Import Text TextFacts SymbolTable SymbolTableMore Specs SymbolTableFacts.

Lemma lookup_snoc (n : string) (l : list (gmap string SymbolInfo)) top :
  lookup_scan n (reverse (l ++ [top]))
  = match top !! n with
    | Some i => Some i
    | None => lookup_scan n (reverse l)
    end.
Proof. by rewrite reverse_snoc. Qed.

Lemma declare_scopes nm k ty i self info self' :
  _declare nm k ty i self = Ok (info, self') ->
  exists l curr,
    _scopes self = l ++ [curr] /\ curr !! nm = None /\
    _scopes self' = l ++ [<[nm := info]> curr] /\
    _scope_meta self' = _scope_meta self /\
    info = mkSymbolInfo nm k ty (length (_scopes self))
             (format_unique (_unique_prefix self) nm
                (default 0 (_name_counters self !! nm) + 1)) i.
Proof.
  unfold _declare. destruct (last (_scopes self)) as [curr|] eqn:Hl; [|done].
  destruct (curr !! nm) eqn:Hc; [done|]. simpl. intros [= <- <-]. simpl.
  apply last_Some in Hl as [l Hl]. exists l, curr. rewrite Hl.
  split_and!; try done.
  rewrite length_app. simpl.
  replace (length l + 1 - 1) with (length l + 0) by lia.
  by rewrite insert_app_r.
Qed.

(** X1.  After a successful declaration of [nm], [lookup] and
    [assert_exists] return the entry just created, also when an outer scope
    holds another entry for [nm] and also from a scope entered afterwards;
    the lookup of any other name is what it was before. *)
Theorem declare_then_lookup nm k ty i self info self' :
  _declare nm k ty i self = Ok (info, self') ->
  lookup nm self' = Some info /\
  assert_exists nm self' = Ok info /\
  (forall sk si, lookup nm (enter_scope sk si self') = Some info) /\
  (forall m, m <> nm -> lookup m self' = lookup m self).
Proof.
  intros (l & curr & Hs & Hc & Hs' & _ & _)%declare_scopes.
  assert (H1 : lookup nm self' = Some info).
  { unfold lookup. by rewrite Hs', lookup_snoc, lookup_insert_eq. }
  split_and!; [done| | |].
  - unfold assert_exists. by rewrite H1.
  - intros sk si. unfold lookup. simpl. rewrite lookup_snoc, lookup_empty. exact H1.
  - intros m Hm. unfold lookup. rewrite Hs, Hs', !lookup_snoc.
    by rewrite lookup_insert_ne.
Qed.

Lemma declare_then_lookup_witness :
  exists info st',
    _declare "x" kind_var (Some "numeric") 0 MoreExamples.global_table
      = Ok (info, st') /\
    lookup "x" st' = Some info /\
    lookup "x" (enter_scope "Procedure" 0 st') = Some info.
Proof.
  eexists _, _. split; [reflexivity|].
  destruct (declare_then_lookup "x" kind_var (Some "numeric") 0
              MoreExamples.global_table _ _ eq_refl) as (H1 & _ & H3 & _).
  split; [exact H1|exact (H3 "Procedure" 0)].
Defined.


Lemma length_removelast {A} (l : list A) :
  length (removelast l) = pred (length l).
Proof.
  induction l as [|a [|b l] IH]; [done..|].
  change (S (length (removelast (b :: l))) = S (length l)). by rewrite IH.
Qed.

(** Declarations only touch the innermost scope. *)
Lemma run_declares_scopes ops : forall self l top,
  forallb is_declare ops = true ->
  _scopes self = l ++ [top] ->
  exists top', _scopes (run ops self).2 = l ++ [top'] /\
               _scope_meta (run ops self).2 = _scope_meta self.
Proof.
  induction ops as [|op ops IH]; intros self l top Hops Hs; simpl.
  { by exists top. }
  destruct op as [sk si| |nm k ty i]; try done. simpl in Hops.
  destruct (_declare nm k ty i self) as [[info s']|e] eqn:Hd; [|by eapply IH].
  apply declare_scopes in Hd as (l' & curr & Hs1 & _ & Hs' & Hm & _).
  rewrite Hs in Hs1. apply app_inj_tail in Hs1 as [<- <-].
  destruct (IH s' l _ Hops Hs') as (top' & H1 & H2).
  destruct (run ops s') as [infos final]. simpl in *.
  exists top'. by rewrite H1, H2, Hm.
Qed.

(** X2.  Entering a scope, declaring any names in it and leaving it gives
    back the scopes the table had: [exit_scope] succeeds, the list of scopes
    and its metadata are those from before [enter_scope], and every lookup
    answers as it did then (the declarations of the scope are gone, the
    names they shadowed are visible again). *)
Theorem exit_scope_restores (self : SymbolTable) (sk : string) (si : nat)
    (ops : list Op) :
  forallb is_declare ops = true ->
  exists self',
    exit_scope (run ops (enter_scope sk si self)).2 = Ok self' /\
    _scopes self' = _scopes self /\
    _scope_meta self' = _scope_meta self /\
    forall n, lookup n self' = lookup n self.
Proof.
  intros Hops.
  destruct (run_declares_scopes ops (enter_scope sk si self) (_scopes self) ∅ Hops
              eq_refl) as (top' & Hs & Hm).
  unfold exit_scope. rewrite Hs.
  destruct (_scopes self ++ [top']) as [|x r] eqn:E.
  { by destruct (_scopes self). }
  rewrite <- E. eexists. split; [done|]. simpl.
  rewrite removelast_last, Hm. simpl. rewrite removelast_last.
  done.
Qed.

Lemma exit_scope_restores_witness :
  exists st',
    exit_scope (run MoreExamples.local_ops
                  (enter_scope "Procedure" 0 MoreExamples.table_with_x)).2 = Ok st' /\
    _scopes st' = _scopes MoreExamples.table_with_x /\
    forall n, lookup n st' = lookup n MoreExamples.table_with_x.
Proof.
  destruct (exit_scope_restores MoreExamples.table_with_x "Procedure" 0
              MoreExamples.local_ops eq_refl) as (st' & H1 & H2 & _ & H4).
  by exists st'.
Defined.

(** X3.  [_declare] raises the duplicate-declaration error exactly when the
    innermost scope already holds the name, and the no-scope error exactly
    when no scope was entered; in a scope that was just entered every
    declaration succeeds, whatever the outer scopes hold. *)
Theorem declare_fails_on_top_scope_only nm k ty i self :
  (_declare nm k ty i self = Raise (DuplicateDeclaration nm) <-> in_top self nm) /\
  (_declare nm k ty i self = Raise NoScopeToDeclare <-> _scopes self = []) /\
  (forall sk si, is_ok (_declare nm k ty i (enter_scope sk si self)) = true).
Proof.
  unfold _declare, in_top. split_and!.
  - destruct (last (_scopes self)) as [curr|] eqn:Hl.
    + destruct (curr !! nm) eqn:Hc; simpl.
      * split; [|done]. intros _. exists curr. split; [done|]. by eexists.
      * split; [done|]. intros (c & [= <-] & Hs). rewrite Hc in Hs. by destruct Hs.
    + split; [done|]. by intros (c & ? & _).
  - destruct (last (_scopes self)) as [curr|] eqn:Hl.
    + destruct (curr !! nm); simpl; (split; [done|]);
        intros E; rewrite E in Hl; done.
    + split; [|done]. intros _. by apply last_None.
  - intros sk si. simpl. rewrite last_snoc, lookup_empty. done.
Qed.

(** The counter of a name after a run is its counter before plus the
    declarations of the name in between. *)
Lemma run_numbering ops : forall self j info,
  (run ops self).1 !! j = Some info ->
  unique_name info
  = format_unique (_unique_prefix self) (name info)
      (default 0 (_name_counters self !! name info)
       + declared_as (name info) (take j (run ops self).1) + 1).
Proof.
  induction ops as [|op ops IH]; intros self j info; simpl; [done|].
  destruct op as [sk si| |nm k ty i].
  - intros H. by rewrite (IH _ _ _ H).
  - destruct (exit_scope self) as [s'|] eqn:He; [|apply IH].
    intros H. rewrite (IH _ _ _ H). unfold exit_scope in He.
    destruct (_scopes self); [done|]. by injection He as <-.
  - destruct (_declare nm k ty i self) as [[info0 s']|e] eqn:Hd; [|apply IH].
    pose proof (declare_inv _ _ _ _ _ _ _ Hd) as (Hu & Hp & Hcnt).
    apply declare_scopes in Hd as (_ & _ & _ & _ & _ & _ & Hinfo).
    specialize (IH s'). destruct (run ops s') as [infos final]. simpl in *.
    destruct j as [|j]; simpl.
    + intros [= <-]. rewrite Hu. rewrite Hinfo. simpl.
      unfold declared_as. simpl. f_equal. lia.
    + intros H. rewrite (IH _ _ H), Hp, Hcnt. f_equal.
      unfold declared_as. rewrite filter_cons.
      assert (Hn : name info0 = nm) by (by rewrite Hinfo).
      destruct (decide (name info0 = name info)) as [Heq|Hne].
      * rewrite <- Heq, Hn, lookup_insert_eq. simpl. lia.
      * rewrite lookup_insert_ne by congruence. simpl. lia.
Qed.

(** X4.  In any sequence of calls on a new table, the unique name of a
    successful declaration is [<prefix>_<name>_<c>] where [c] is one more
    than the number of earlier successful declarations of the same name, in
    whatever scopes they were made. *)
Theorem unique_names_numbered (prefix : string) (ops : list Op) (j : nat)
    (info : SymbolInfo) :
  (run ops (init prefix)).1 !! j = Some info ->
  unique_name info
  = format_unique prefix (name info)
      (declared_as (name info) (take j (run ops (init prefix)).1) + 1).
Proof.
  intros H. rewrite (run_numbering _ _ _ _ H). simpl. by rewrite lookup_empty.
Qed.

Lemma unique_names_numbered_witness :
  exists info,
    (run MoreExamples.scope_ops (init "v")).1 !! 4 = Some info /\
    unique_name info = format_unique "v" "y" 2.
Proof.
  eexists. split; [vm_compute; reflexivity|].
  refine (eq_trans (unique_names_numbered "v" MoreExamples.scope_ops 4 _ _) _);
    vm_compute; reflexivity.
Defined.

(** X5.  After any sequence of calls on a new table the metadata list is as
    long as the list of scopes, [current_scope_name] is [None] exactly when
    [current_scope_level] is 0, and every entry that was declared has a scope
    level of at least 1. *)
Theorem scope_meta_in_step (prefix : string) (ops : list Op) :
  let self := (run ops (init prefix)).2 in
  length (_scope_meta self) = length (_scopes self) /\
  (current_scope_name self = None <-> current_scope_level self = 0) /\
  Forall (fun info => 1 <= scope_level info) (run ops (init prefix)).1.
Proof.
  assert (H : forall self,
    length (_scope_meta self) = length (_scopes self) ->
    length (_scope_meta (run ops self).2) = length (_scopes (run ops self).2) /\
    Forall (fun info => 1 <= scope_level info) (run ops self).1).
  { induction ops as [|op ops IH]; intros self Hlen; simpl; [done|].
    destruct op as [sk si| |nm k ty i].
    - apply IH. simpl. rewrite !length_app. simpl. lia.
    - destruct (exit_scope self) as [s'|] eqn:He; [|by apply IH].
      apply IH. unfold exit_scope in He.
      destruct (_scopes self) as [|x r] eqn:E; [done|]. injection He as <-.
      cbn [_scopes _scope_meta].
      rewrite length_removelast, Hlen. symmetry. apply (length_removelast (x :: r)).
    - destruct (_declare nm k ty i self) as [[info s']|e] eqn:Hd; [|by apply IH].
      apply declare_scopes in Hd as (l & curr & Hs & _ & Hs' & Hm & Hinfo).
      destruct (IH s') as [H1 H2].
      { rewrite Hm, Hs', Hlen, Hs, !length_app. done. }
      destruct (run ops s') as [infos final]. simpl in *. split; [done|].
      constructor; [|done]. rewrite Hinfo, Hs, length_app. simpl. lia. }
  intros self. destruct (H (init prefix) eq_refl) as [Hlen Hall].
  split_and!; [done| |done].
  unfold current_scope_name, current_scope_level. fold self in Hlen.
  destruct (_scope_meta self) as [|y q] eqn:E.
  - simpl in *. split; [by intros _|done].
  - rewrite <- E. destruct (last (_scope_meta self)) eqn:El.
    + split; [done|]. intros H0. rewrite <- Hlen in H0. done.
    + apply last_None in El. congruence.
Qed.

(** *** The entries of a table *)

Lemma exit_scope_inv self self' :
  exit_scope self = Ok self' ->
  _scopes self' = removelast (_scopes self) /\
  _scope_meta self' = removelast (_scope_meta self) /\
  _unique_prefix self' = _unique_prefix self /\
  _name_counters self' = _name_counters self.
Proof.
  unfold exit_scope. destruct (_scopes self); [done|]. by intros [= <-].
Qed.

Lemma entries_ok_init prefix : entries_ok (init prefix).
Proof. intros scope n info Hin. by apply elem_of_nil in Hin. Qed.

Lemma entries_ok_enter_scope sk si self :
  entries_ok self -> entries_ok (enter_scope sk si self).
Proof.
  intros H scope n info. simpl. rewrite elem_of_app, list_elem_of_singleton.
  intros [Hin| ->]; [by apply H|]. by rewrite lookup_empty.
Qed.

Lemma elem_of_removelast {A} (x : A) (l : list A) : x ∈ removelast l -> x ∈ l.
Proof.
  destruct l as [|a l _] using rev_ind; [done|].
  rewrite removelast_last, elem_of_app. by left.
Qed.

Lemma entries_ok_exit_scope self self' :
  exit_scope self = Ok self' -> entries_ok self -> entries_ok self'.
Proof.
  intros He H.
  destruct (exit_scope_inv _ _ He) as (Hs & _ & Hp & Hc).
  intros scope n info Hin Hl. rewrite Hs in Hin. apply elem_of_removelast in Hin.
  unfold entry_ok. rewrite Hp, Hc. by apply (H scope).
Qed.

Lemma entries_ok_declare nm k ty i self info self' :
  _declare nm k ty i self = Ok (info, self') ->
  entries_ok self -> entries_ok self' /\ entry_ok self' nm info.
Proof.
  intros Hd H.
  pose proof (declare_inv _ _ _ _ _ _ _ Hd) as (Hu & Hp & Hcnt).
  destruct (declare_scopes _ _ _ _ _ _ _ Hd) as (l & curr & Hs & Hc & Hs' & _ & Hinfo).
  assert (Hnew : entry_ok self' nm info).
  { split; [by rewrite Hinfo|]. eexists. rewrite Hp, Hcnt, lookup_insert_eq.
    split; [exact Hu|]. simpl. lia. }
  split; [|done]. intros scope n info' Hin Hl.
  assert (Hold : forall sc, sc ∈ _scopes self -> sc !! n = Some info' ->
                            entry_ok self' n info').
  { intros sc Hsc Hl'. destruct (H sc n info' Hsc Hl') as (Hn & c & Hc1 & Hc2).
    split; [done|]. exists c. rewrite Hp, Hcnt. split; [done|].
    destruct (decide (n = nm)) as [->|Hne].
    - rewrite lookup_insert_eq. simpl. lia.
    - by rewrite lookup_insert_ne. }
  rewrite Hs' in Hin. apply elem_of_app in Hin as [Hin|Hin].
  - apply (Hold scope); [|done]. rewrite Hs, elem_of_app. by left.
  - apply list_elem_of_singleton in Hin as ->.
    destruct (decide (n = nm)) as [->|Hne].
    + rewrite lookup_insert_eq in Hl. by injection Hl as <-.
    + rewrite lookup_insert_ne in Hl by done. apply (Hold curr); [|done].
      rewrite Hs, elem_of_app, list_elem_of_singleton. by right.
Qed.

Lemma lookup_scan_Some n scopes info :
  lookup_scan n scopes = Some info ->
  exists scope, scope ∈ scopes /\ scope !! n = Some info.
Proof.
  induction scopes as [|s scopes IH]; simpl; [done|].
  destruct (s !! n) as [i|] eqn:E.
  - intros [= <-]. exists s. split; [apply list_elem_of_here|done].
  - intros (scope & Hin & Hl)%IH. exists scope. split; [by apply list_elem_of_further|done].
Qed.

Lemma lookup_entry_ok n self info :
  entries_ok self -> lookup n self = Some info -> entry_ok self n info.
Proof.
  intros H (scope & Hin & Hl)%lookup_scan_Some. apply (H scope); [|done].
  by rewrite elem_of_reverse in Hin.
Qed.

Lemma run_entries_ok ops : forall self,
  entries_ok self -> entries_ok (run ops self).2.
Proof.
  induction ops as [|op ops IH]; intros self H; simpl; [done|].
  destruct op as [sk si| |nm k ty i].
  - by apply IH, entries_ok_enter_scope.
  - destruct (exit_scope self) as [s'|] eqn:He; [|by apply IH].
    apply IH. by eapply entries_ok_exit_scope.
  - destruct (_declare nm k ty i self) as [[info s']|e] eqn:Hd; [|by apply IH].
    specialize (IH s'). destruct (run ops s') as [infos final]. simpl in *.
    apply IH. by eapply entries_ok_declare.
Qed.

Lemma run_prefix ops : forall self,
  _unique_prefix (run ops self).2 = _unique_prefix self.
Proof.
  induction ops as [|op ops IH]; intros self; simpl; [done|].
  destruct op as [sk si| |nm k ty i].
  - by rewrite IH.
  - destruct (exit_scope self) as [s'|] eqn:He; [|by rewrite IH].
    rewrite IH. by apply exit_scope_inv in He as (_ & _ & -> & _).
  - destruct (_declare nm k ty i self) as [[info s']|e] eqn:Hd; [|by rewrite IH].
    specialize (IH s'). destruct (run ops s') as [infos final]. simpl in *.
    rewrite IH. by apply declare_inv in Hd as (_ & -> & _).
Qed.

(** X6.  After any sequence of calls on a new table, an entry that [lookup]
    returns for [n] was declared under the name [n], and its unique name is
    [<prefix>_<n>_<c>] for a counter value [c] of at least 1. *)
Theorem lookup_finds_entry_of_name (prefix : string) (ops : list Op) (n : string)
    (info : SymbolInfo) :
  lookup n (run ops (init prefix)).2 = Some info ->
  name info = n /\
  exists c, 1 <= c /\ unique_name info = format_unique prefix n c.
Proof.
  intros H. eapply lookup_entry_ok in H; [|apply run_entries_ok, entries_ok_init].
  destruct H as (Hn & c & Hu & Hc). split; [done|]. exists c. split; [lia|].
  by rewrite Hu, run_prefix.
Qed.

Lemma lookup_finds_entry_of_name_witness :
  exists info,
    lookup "y" (run MoreExamples.scope_ops (init "v")).2 = Some info /\
    name info = "y" /\
    exists c, 1 <= c /\ unique_name info = format_unique "v" "y" c.
Proof.
  eexists. split; [vm_compute; reflexivity|].
  apply (lookup_finds_entry_of_name "v" MoreExamples.scope_ops).
  vm_compute. reflexivity.
Defined.

End SymbolTableMoreFacts.
Module AnalyzerMoreFacts.
Import Ast SemanticAnalyzer Specs MoreSpecs SymbolTableFacts AnalyzerFacts.
Import CodeGeneratorFacts SymbolTableMore SymbolTableMoreFacts.

(** Splits a hypothesis [r ≫= k = Raise e] into the failure of [r] or its
    value and the rest. *)
Ltac raise_inv :=
  repeat match goal with
  | H : Raise _ = Raise _ |- _ => injection H as H; try subst
  | H : Ok _ = Raise _ |- _ => discriminate H
  | H : mbind _ ?r = Raise _ |- _ =>
      let E := fresh "E" in
      lazymatch type of r with
      | result _ (prod _ _) => destruct r as [[? ?]|?] eqn:E; simpl in H
      | _ => destruct r as [?|?] eqn:E; simpl in H
      end
  end.

Lemma visit_atom_raise a st e :
  _visit_atom a st = Raise e -> error_class e = UndeclaredIdentifier.
Proof.
  destruct a as [v|n]; simpl; [|done].
  destruct (SymbolTable.lookup _ _); [done|]. by intros [= <-].
Qed.

Lemma visit_atom_numeric a st a' ty :
  _visit_atom a st = Ok (a', ty) -> ty = numeric.
Proof.
  destruct a as [v|n]; simpl.
  - destruct (SymbolTable.lookup _ _); [|done]. by intros [= _ <-].
  - by intros [= _ <-].
Qed.

Lemma visit_input_raise args st e :
  _visit_input args st = Raise e -> error_class e = UndeclaredIdentifier.
Proof.
  induction args as [|a args IH]; simpl; [done|]. intros H. raise_inv.
  - by apply IH.
  - by eapply visit_atom_raise.
Qed.

Lemma check_unary_raise op ty e :
  check_unary_op op ty = Raise e -> error_class e = TypeMismatch.
Proof. destruct op; simpl; destruct (decide _); try done; by intros [= <-]. Qed.

Lemma check_binary_raise op lt rt e :
  check_binary_op op lt rt = Raise e -> error_class e = TypeMismatch.
Proof.
  destruct op; simpl; repeat destruct (decide _); try done; by intros [= <-].
Qed.

Lemma visit_term_raise :
  (forall t st e, _visit_term t st = Raise e ->
                  statement_class (error_class e) = true) /\
  (forall p st e, _visit_paren_term p st = Raise e ->
                  statement_class (error_class e) = true).
Proof.
  apply Term_mutind.
  - intros a st e. simpl. intros H. raise_inv.
    by rewrite (visit_atom_raise _ _ _ E).
  - intros p IH st e. simpl. intros H. raise_inv. by eapply IH.
  - intros op t IH st e. simpl. intros H. raise_inv.
    + by rewrite (check_unary_raise _ _ _ E0).
    + by eapply IH.
  - intros l IHl op r IHr ty st e. simpl. intros H. raise_inv.
    + by rewrite (check_binary_raise _ _ _ _ E1).
    + by eapply IHr.
    + by eapply IHl.
Qed.


Lemma visit_function_call_raise f args st e :
  _visit_function_call f args st = Raise e ->
  statement_class (error_class e) = true.
Proof.
  unfold _visit_function_call. destruct (SymbolTable.lookup _ _); [|by intros [= <-]].
  destruct (decide _); [|by intros [= <-]]. intros H. raise_inv.
  by rewrite (visit_input_raise _ _ _ E).
Qed.

Lemma visit_procedure_call_raise f args st e :
  _visit_procedure_call f args st = Raise e ->
  statement_class (error_class e) = true.
Proof.
  unfold _visit_procedure_call. destruct (SymbolTable.lookup _ _); [|by intros [= <-]].
  destruct (decide _); [|by intros [= <-]]. intros H. raise_inv.
  by rewrite (visit_input_raise _ _ _ E).
Qed.

Lemma visit_assignment_raise v rhs st e :
  _visit_assignment v rhs st = Raise e ->
  statement_class (error_class e) = true.
Proof.
  destruct visit_term_raise as [_ Hp].
  unfold _visit_assignment. destruct (SymbolTable.lookup _ _); [|by intros [= <-]].
  destruct (decide _); [|by intros [= <-]]. intros H. raise_inv.
  - destruct (decide _); [done|]. by injection H as <-.
  - destruct rhs as [a|f args|p]; simpl in E; raise_inv.
    + by rewrite (visit_atom_raise _ _ _ E0).
    + by eapply visit_function_call_raise.
    + by eapply Hp.
Qed.

(** The loop inside [_visit_instruction] is [_visit_algorithm]. *)
Lemma visit_algorithm_local st l :
  (fix go (instructions : list Instr) : result SemanticError (list Instr) :=
     match instructions with
     | [] => Ok []
     | i :: rest =>
         i' ← _visit_instruction i st; rest' ← go rest; Ok (i' :: rest')
     end) l = _visit_algorithm l st.
Proof.
  induction l as [|i l IH]; [done|].
  change (_visit_algorithm (i :: l) st) with
    (i' ← _visit_instruction i st; rest' ← _visit_algorithm l st; Ok (i' :: rest')).
  by rewrite <- IH.
Qed.

Lemma visit_while_eq c b st :
  _visit_instruction (WhileLoopNode c b) st
  = '(condition', condition_type) ← _visit_term c st;
    if decide (condition_type = boolean) then
      body' ← _visit_algorithm b st; Ok (WhileLoopNode condition' body')
    else Raise (WhileConditionNotBoolean condition_type).
Proof. by rewrite <- visit_algorithm_local. Qed.

Lemma visit_do_until_eq b c st :
  _visit_instruction (DoUntilLoopNode b c) st
  = body' ← _visit_algorithm b st;
    '(condition', condition_type) ← _visit_term c st;
    if decide (condition_type = boolean) then Ok (DoUntilLoopNode body' condition')
    else Raise (DoUntilConditionNotBoolean condition_type).
Proof. by rewrite <- visit_algorithm_local. Qed.

Lemma visit_if_eq c t st :
  _visit_instruction (IfBranchNode c t None) st
  = '(condition', condition_type) ← _visit_term c st;
    if decide (condition_type = boolean) then
      then' ← _visit_algorithm t st; Ok (IfBranchNode condition' then' None)
    else Raise (IfConditionNotBoolean condition_type).
Proof. by rewrite <- visit_algorithm_local. Qed.

Lemma visit_if_else_eq c t e st :
  _visit_instruction (IfBranchNode c t (Some e)) st
  = '(condition', condition_type) ← _visit_term c st;
    if decide (condition_type = boolean) then
      then' ← _visit_algorithm t st;
      e' ← _visit_algorithm e st; Ok (IfBranchNode condition' then' (Some e'))
    else Raise (IfConditionNotBoolean condition_type).
Proof. by rewrite <- !visit_algorithm_local. Qed.

Lemma visit_instruction_raise i : forall st e,
  _visit_instruction i st = Raise e -> statement_class (error_class e) = true.
Proof.
  destruct visit_term_raise as [Ht _].
  assert (Hall : forall l st, Forall (fun i => forall st e,
              _visit_instruction i st = Raise e ->
              statement_class (error_class e) = true) l ->
            forall e, _visit_algorithm l st = Raise e ->
                      statement_class (error_class e) = true).
  { intros l st. induction 1 as [|x l Hx _ IH]; simpl; intros e H; raise_inv.
    - by apply IH.
    - by eapply Hx. }
  induction i as [|o|v r|n a|c b IHb|b c IHb|c t IHt|c t e' IHt IHe]
    using Instr_nested_ind; intros st e.
  - done.
  - destruct o as [a|s]; simpl; [|done]. intros H. raise_inv.
    by rewrite (visit_atom_raise _ _ _ E).
  - apply visit_assignment_raise.
  - apply visit_procedure_call_raise.
  - rewrite visit_while_eq.
    intros H. raise_inv.
    + destruct (decide _); [|by injection H as <-]. raise_inv. by eapply Hall.
    + by eapply Ht.
  - rewrite visit_do_until_eq.
    intros H. raise_inv.
    + destruct (decide _); [done|]. by injection H as <-.
    + by eapply Ht.
    + by eapply Hall.
  - rewrite visit_if_eq.
    intros H. raise_inv.
    + destruct (decide _); [|by injection H as <-]. raise_inv. by eapply Hall.
    + by eapply Ht.
  - rewrite visit_if_else_eq.
    intros H. raise_inv.
    + destruct (decide _); [|by injection H as <-]. raise_inv; (eapply Hall; [|eassumption]; done).
    + by eapply Ht.
Qed.

Lemma visit_algorithm_raise l : forall st e,
  _visit_algorithm l st = Raise e -> statement_class (error_class e) = true.
Proof.
  induction l as [|i l IH]; simpl; intros st e H; raise_inv.
  - by eapply IH.
  - by eapply visit_instruction_raise.
Qed.


Lemma statement_analysis c : statement_class c = true -> analysis_class c = true.
Proof. by destruct c. Qed.

(** *** Scopes during the analysis *)

(** [st'] has the scopes of [st] below the innermost one, which it may have
    filled, and entries that are in order. *)
Section declare_each_more.
Variable duplicate : string -> SemanticError.
Variable declare : string -> SymbolTable.SymbolTable ->
  result SymbolTable.SymbolTableError (SymbolTable.SymbolInfo * SymbolTable.SymbolTable).
Variables (k : SymbolTable.Kind) (ty : option string).
Hypothesis declare_eq : forall n st, declare n st = SymbolTable._declare n k ty 0 st.

Lemma declare_each_scopes names : forall seen st st' l top,
  declare_each duplicate declare names seen st = Ok st' ->
  SymbolTable._scopes st = l ++ [top] ->
  exists top', SymbolTable._scopes st' = l ++ [top'] /\
               (entries_ok st -> entries_ok st') /\
               SymbolTable._unique_prefix st' = SymbolTable._unique_prefix st.
Proof.
  induction names as [|n rest IH]; intros seen st st' l top; simpl.
  - intros [= <-] Hs. by exists top.
  - destruct (decide (n ∈ seen)); [done|]. rewrite declare_eq.
    destruct (SymbolTable._declare n k ty 0 st) as [[info st1]|e1] eqn:Hd; [|done].
    simpl. intros H Hs.
    pose proof (declare_inv _ _ _ _ _ _ _ Hd) as (_ & Hp & _).
    pose proof (entries_ok_declare _ _ _ _ _ _ _ Hd) as Hok1.
    apply declare_scopes in Hd as (l' & curr & Hs1 & _ & Hs' & _).
    rewrite Hs in Hs1. apply app_inj_tail in Hs1 as [<- <-].
    destruct (IH _ _ _ _ _ H Hs') as (top' & ? & Hok' & Hp').
    exists top'. split_and!; [done| |by rewrite <- Hp, <- Hp'].
    intros Hok. by apply Hok', Hok1.
Qed.

End declare_each_more.

Lemma exit_scope_snoc st l top :
  SymbolTable._scopes st = l ++ [top] ->
  exists st', SymbolTable.exit_scope st = Ok st' /\ SymbolTable._scopes st' = l /\
              SymbolTable._unique_prefix st' = SymbolTable._unique_prefix st /\
              (entries_ok st -> entries_ok st').
Proof.
  intros Hs. destruct (SymbolTable.exit_scope st) as [st'|e] eqn:He.
  - exists st'. pose proof (exit_scope_inv _ _ He) as (Hs' & _ & Hp & _).
    rewrite Hs, removelast_last in Hs'. split_and!; try done.
    by apply entries_ok_exit_scope.
  - unfold SymbolTable.exit_scope in He. rewrite Hs in He. by destruct l.
Qed.

Lemma visit_body_ok locals alg param_names st alg' st1 l top :
  _visit_body locals alg param_names st = Ok (alg', st1) ->
  SymbolTable._scopes st = l ++ [top] ->
  exists top', SymbolTable._scopes st1 = l ++ [top'] /\
               (entries_ok st -> entries_ok st1) /\
               SymbolTable._unique_prefix st1 = SymbolTable._unique_prefix st /\
               _visit_algorithm alg st1 = Ok alg'.
Proof.
  unfold _visit_body. intros H Hs. ok_inv.
  eapply declare_each_scopes in E as (top' & ? & ? & ?); [|done..].
  by exists top'.
Qed.

(** A local that repeated a parameter was rejected when it was declared:
    the check that follows the declarations finds nothing. *)
Lemma shadowing_check_passes params locals st st1 st2 :
  SymbolTable._scopes st <> [] ->
  declare_each DuplicateParameter
    (fun n => SymbolTable.declare_param n 0 "numeric") params ∅ st = Ok st1 ->
  declare_each DuplicateLocalVariable
    (fun n => SymbolTable.declare_var n 0 "numeric") locals ∅ st1 = Ok st2 ->
  SymbolTable.check_no_shadowing_of_params params locals = Ok tt.
Proof.
  intros Hne Hp Hl.
  eapply declare_each_ok in Hp as (Hne1 & _ & Htop1); [|done..].
  eapply declare_each_ok in Hl as (_ & Hfresh & _); [|done..].
  unfold SymbolTable.check_no_shadowing_of_params.
  destruct (decide _) as [|Hx]; [done|]. exfalso. apply Hx.
  apply set_eq. intros n.
  rewrite elem_of_intersection, !elem_of_list_to_set, elem_of_empty.
  split; [|done]. intros [Hin1 Hin2]. apply (Hfresh n Hin2), Htop1. by left.
Qed.

Lemma visit_body_raise locals alg params st0 st e :
  SymbolTable._scopes st0 <> [] ->
  declare_each DuplicateParameter
    (fun n => SymbolTable.declare_param n 0 "numeric") params ∅ st0 = Ok st ->
  _visit_body locals alg params st = Raise e ->
  analysis_class (error_class e) = true.
Proof.
  intros Hne Hp. unfold _visit_body. intros H. raise_inv.
  - apply statement_analysis. by eapply visit_algorithm_raise.
  - erewrite shadowing_check_passes in E0; done.
  - eapply declare_each_raise in E as ->; [done..|].
    by eapply declare_each_ok in Hp as (? & _); [|done..].
Qed.


Lemma visit_parameters_inv variables st names st' :
  _visit_parameters variables st = Ok (names, st') ->
  names = map var_name variables /\
  declare_each DuplicateParameter
    (fun n => SymbolTable.declare_param n 0 "numeric") (map var_name variables) ∅ st
  = Ok st'.
Proof. unfold _visit_parameters. intros H. by ok_inv. Qed.

Lemma visit_parameters_raise variables st e :
  _visit_parameters variables st = Raise e -> SymbolTable._scopes st <> [] ->
  analysis_class (error_class e) = true.
Proof.
  unfold _visit_parameters. intros H Hne. raise_inv.
  by eapply declare_each_raise in E as ->.
Qed.

Lemma snoc_ne {A} (l : list A) (x : A) : l ++ [x] <> [].
Proof. by destruct l. Qed.

Lemma enter_scope_nonempty sk si st :
  SymbolTable._scopes (SymbolTable.enter_scope sk si st) <> [].
Proof. simpl. by destruct (SymbolTable._scopes st). Qed.

Lemma visit_procedure_def_ok d st d' st' :
  _visit_procedure_def d st = Ok (d', st') ->
  SymbolTable._scopes st' = SymbolTable._scopes st /\
  (entries_ok st -> entries_ok st') /\
  SymbolTable._unique_prefix st' = SymbolTable._unique_prefix st.
Proof.
  unfold _visit_procedure_def. intros H. ok_inv.
  apply visit_parameters_inv in E as [-> E].
  eapply declare_each_scopes in E as (top1 & Hs1 & Hok1 & Hp1); [|done..].
  eapply visit_body_ok in E0 as (top2 & Hs2 & Hok2 & Hp2 & _); [|done].
  destruct (exit_scope_snoc _ _ _ Hs2) as (st'' & He & Hs3 & Hp3 & Hok3).
  rewrite He in E1. injection E1 as <-.
  split_and!; [done| |by rewrite Hp3, Hp2, Hp1].
  intros Hok. by apply Hok3, Hok2, Hok1, entries_ok_enter_scope.
Qed.

Lemma visit_procedure_def_raise d st e :
  _visit_procedure_def d st = Raise e -> analysis_class (error_class e) = true.
Proof.
  unfold _visit_procedure_def. intros H. raise_inv.
  - apply visit_parameters_inv in E as [-> E].
    eapply declare_each_scopes in E as (top1 & Hs1 & _); [|done..].
    eapply visit_body_ok in E0 as (top2 & Hs2 & _); [|done].
    destruct (exit_scope_snoc _ _ _ Hs2) as (st'' & He & _).
    by rewrite He in E1.
  - apply visit_parameters_inv in E as [-> E].
    eapply visit_body_raise; [|done..]. apply enter_scope_nonempty.
  - eapply visit_parameters_raise; [done|]. apply enter_scope_nonempty.
Qed.

Lemma visit_function_def_ok d st d' st' :
  _visit_function_def d st = Ok (d', st') ->
  SymbolTable._scopes st' = SymbolTable._scopes st /\
  (entries_ok st -> entries_ok st') /\
  SymbolTable._unique_prefix st' = SymbolTable._unique_prefix st.
Proof.
  unfold _visit_function_def. intros H. ok_inv.
  destruct (decide _); [|done]. ok_inv.
  apply visit_parameters_inv in E as [-> E].
  eapply declare_each_scopes in E as (top1 & Hs1 & Hok1 & Hp1); [|done..].
  eapply visit_body_ok in E0 as (top2 & Hs2 & Hok2 & Hp2 & _); [|done].
  destruct (exit_scope_snoc _ _ _ Hs2) as (st'' & He & Hs3 & Hp3 & Hok3).
  rewrite He in E2. injection E2 as <-.
  split_and!; [done| |by rewrite Hp3, Hp2, Hp1].
  intros Hok. by apply Hok3, Hok2, Hok1, entries_ok_enter_scope.
Qed.

Lemma visit_function_def_raise d st e :
  _visit_function_def d st = Raise e -> analysis_class (error_class e) = true.
Proof.
  unfold _visit_function_def. intros H. raise_inv.
  - destruct (decide _) as [|Hn].
    + raise_inv.
      apply visit_parameters_inv in E as [-> E].
      eapply declare_each_scopes in E as (top1 & Hs1 & _); [|done..].
      eapply visit_body_ok in E0 as (top2 & Hs2 & _); [|done].
      destruct (exit_scope_snoc _ _ _ Hs2) as (st'' & He & _).
      by rewrite He in E2.
    + by apply visit_atom_numeric in E1.
  - by rewrite (visit_atom_raise _ _ _ E1).
  - apply visit_parameters_inv in E as [-> E].
    eapply visit_body_raise; [|done..]. apply enter_scope_nonempty.
  - eapply visit_parameters_raise; [done|]. apply enter_scope_nonempty.
Qed.

Lemma visit_procedure_defs_ok ds : forall st ds' st',
  _visit_procedure_defs ds st = Ok (ds', st') ->
  SymbolTable._scopes st' = SymbolTable._scopes st /\
  (entries_ok st -> entries_ok st') /\
  SymbolTable._unique_prefix st' = SymbolTable._unique_prefix st.
Proof.
  induction ds as [|d ds IH]; simpl; intros st ds' st' H; ok_inv; [done|].
  apply visit_procedure_def_ok in E as (Hs1 & Hok1 & Hp1).
  apply IH in E0 as (Hs2 & Hok2 & Hp2).
  split_and!; [congruence|tauto|congruence].
Qed.

Lemma visit_procedure_defs_raise ds : forall st e,
  _visit_procedure_defs ds st = Raise e -> analysis_class (error_class e) = true.
Proof.
  induction ds as [|d ds IH]; simpl; intros st e H; raise_inv.
  - by eapply IH.
  - by eapply visit_procedure_def_raise.
Qed.

Lemma visit_function_defs_ok ds : forall st ds' st',
  _visit_function_defs ds st = Ok (ds', st') ->
  SymbolTable._scopes st' = SymbolTable._scopes st /\
  (entries_ok st -> entries_ok st') /\
  SymbolTable._unique_prefix st' = SymbolTable._unique_prefix st.
Proof.
  induction ds as [|d ds IH]; simpl; intros st ds' st' H; ok_inv; [done|].
  apply visit_function_def_ok in E as (Hs1 & Hok1 & Hp1).
  apply IH in E0 as (Hs2 & Hok2 & Hp2).
  split_and!; [congruence|tauto|congruence].
Qed.

Lemma visit_function_defs_raise ds : forall st e,
  _visit_function_defs ds st = Raise e -> analysis_class (error_class e) = true.
Proof.
  induction ds as [|d ds IH]; simpl; intros st e H; raise_inv.
  - by eapply IH.
  - by eapply visit_function_def_raise.
Qed.

(** What a successful visit of the main program did: the locals were
    declared into a scope of their own, the algorithm was checked in the
    table [stm] that holds them, and the scope was left. *)
Lemma visit_main_prog_ok m st m' st' :
  _visit_main_prog m st = Ok (m', st') ->
  SymbolTable._scopes st' = SymbolTable._scopes st /\
  exists stm,
    (entries_ok st -> entries_ok stm) /\
    SymbolTable._unique_prefix stm = SymbolTable._unique_prefix st /\
    _visit_algorithm (main_algorithm m) stm = Ok (main_algorithm m') /\
    main_locals m' = main_locals m.
Proof.
  unfold _visit_main_prog, _visit_variable_decls. intros H. ok_inv.
  eapply declare_each_scopes in E as (top1 & Hs1 & Hok1 & Hp1); [|done..].
  destruct (exit_scope_snoc _ _ _ Hs1) as (st'' & He & Hs3 & _).
  rewrite He in E1. injection E1 as <-. split; [done|].
  eexists. split_and!; [|exact Hp1|exact E0|done].
  intros Hok. by apply Hok1, entries_ok_enter_scope.
Qed.

Lemma visit_main_prog_raise m st e :
  _visit_main_prog m st = Raise e -> analysis_class (error_class e) = true.
Proof.
  unfold _visit_main_prog, _visit_variable_decls. intros H. raise_inv.
  - eapply declare_each_scopes in E as (top1 & Hs1 & _); [|done..].
    destruct (exit_scope_snoc _ _ _ Hs1) as (st'' & He & _). by rewrite He in E1.
  - apply statement_analysis. by eapply visit_algorithm_raise.
  - eapply declare_each_raise in E as ->; [done..|]. apply enter_scope_nonempty.
Qed.

Lemma global_phase_ok p st st' :
  global_phase p st = Ok st' ->
  exists top,
    SymbolTable._scopes st' =
      (if bool_decide (SymbolTable.current_scope_level st = 0)
       then SymbolTable._scopes st ++ [∅] else SymbolTable._scopes st) ++ [top] /\
    (entries_ok st -> entries_ok st') /\
    SymbolTable._unique_prefix st' = SymbolTable._unique_prefix st.
Proof.
  unfold global_phase, _visit_variable_decls, _declare_procedures, _declare_functions.
  intros H. ok_inv.
  set (st0 := if bool_decide (SymbolTable.current_scope_level st = 0)
              then SymbolTable.enter_scope "Global" 0 st else st) in *.
  assert (H0 : SymbolTable._scopes st0 =
               (if bool_decide (SymbolTable.current_scope_level st = 0)
                then SymbolTable._scopes st ++ [∅] else SymbolTable._scopes st) /\
               (entries_ok st -> entries_ok st0) /\
               SymbolTable._unique_prefix st0 = SymbolTable._unique_prefix st).
  { unfold st0. destruct (bool_decide _); [|done].
    split_and!; [done| |done]. apply entries_ok_enter_scope. }
  destruct H0 as (Hs0 & Hok0 & Hp0).
  eapply declare_each_scopes in E as (top1 & Hs1 & Hok1 & Hp1); [|done..].
  eapply declare_each_scopes in E0 as (top2 & Hs2 & Hok2 & Hp2); [|done..].
  eapply declare_each_scopes in E1 as (top3 & Hs3 & Hok3 & Hp3); [|done..].
  exists top3. rewrite <- Hs0. split_and!; [done| |].
  - intros Hok. by apply Hok3, Hok2, Hok1, entries_ok_enter_scope, Hok0.
  - by rewrite Hp3, Hp2, Hp1.
Qed.

Lemma global_phase_raise p st e :
  global_phase p st = Raise e -> analysis_class (error_class e) = true.
Proof.
  unfold global_phase, _visit_variable_decls, _declare_procedures, _declare_functions.
  intros H. raise_inv.
  - by rewrite clash_check_passes in E2.
  - eapply declare_each_scopes in E as (top1 & Hs1 & _); [|done..].
    eapply declare_each_scopes in E0 as (top2 & Hs2 & _); [|done..].
    eapply declare_each_raise in E1 as ->; [done..|]. rewrite Hs2. apply snoc_ne.
  - eapply declare_each_scopes in E as (top1 & Hs1 & _); [|done..].
    eapply declare_each_raise in E0 as ->; [done..|]. rewrite Hs1. apply snoc_ne.
  - eapply declare_each_raise in E as ->; [done..|]. apply enter_scope_nonempty.
Qed.


(** What a successful analysis did with the main program. *)
Lemma analyze_ok p p' st :
  analyze p = Ok (p', st) ->
  SymbolTable._scopes st = [∅] /\
  exists stm,
    entries_ok stm /\ SymbolTable._unique_prefix stm = "v" /\
    _visit_algorithm (main_algorithm (main p)) stm = Ok (main_algorithm (main p')).
Proof.
  unfold analyze, _visit_program. intros H. ok_inv.
  apply global_phase_ok in E as (top & Hs & Hok & Hp).
  apply visit_procedure_defs_ok in E0 as (Hs0 & Hok0 & Hp0).
  apply visit_function_defs_ok in E1 as (Hs1 & Hok1 & Hp1).
  apply visit_main_prog_ok in E2 as (Hs2 & stm & Hokm & Hpm & Halg & _).
  rewrite <- Hs0, <- Hs1, <- Hs2 in Hs.
  destruct (exit_scope_snoc _ [∅] top Hs) as (st'' & He & Hs4 & _).
  rewrite He in E3. injection E3 as <-. split; [done|].
  exists stm. split_and!; [|by rewrite Hpm, Hp1, Hp0, Hp|done].
  apply Hokm, Hok1, Hok0, Hok, entries_ok_init.
Qed.

Lemma visit_program_raise p st e :
  _visit_program p st = Raise e -> analysis_class (error_class e) = true.
Proof.
  unfold _visit_program. intros H. raise_inv.
  - apply global_phase_ok in E as (top & Hs & _).
    apply visit_procedure_defs_ok in E0 as (Hs0 & _).
    apply visit_function_defs_ok in E1 as (Hs1 & _).
    apply visit_main_prog_ok in E2 as (Hs2 & _).
    rewrite <- Hs0, <- Hs1, <- Hs2 in Hs.
    destruct (exit_scope_snoc _ _ _ Hs) as (st'' & He & _). by rewrite He in E3.
  - by eapply visit_main_prog_raise.
  - by eapply visit_function_defs_raise.
  - by eapply visit_procedure_defs_raise.
  - by eapply global_phase_raise.
Qed.

(** X7.  When [analyze] fails, the error is a duplicate declaration, an
    undeclared identifier, a kind mismatch, a type mismatch or a non-boolean
    condition.  The other raise sites are never reached: the global clash
    check and the parameter shadowing check never fail, a function's return
    atom is always numeric, and no symbol table error escapes. *)
Theorem analysis_error_classes (p : ProgramNode) (e : SemanticError) :
  analyze p = Raise e ->
  error_class e ∈ [DuplicateDeclaration; UndeclaredIdentifier; KindMismatch;
                   TypeMismatch; NonBooleanCondition].
Proof.
  intros H%visit_program_raise. destruct (error_class e); try done;
    rewrite !elem_of_cons; tauto.
Qed.

Lemma analysis_error_classes_witness :
  exists e,
    analyze Examples.var_proc_clash = Raise e /\
    error_class e ∈ [DuplicateDeclaration; UndeclaredIdentifier; KindMismatch;
                     TypeMismatch; NonBooleanCondition].
Proof.
  eexists. split; [vm_compute; reflexivity|].
  apply (analysis_error_classes Examples.var_proc_clash).
  vm_compute. reflexivity.
Defined.

(** X8.  A procedure or function definition one of whose locals has the
    name of one of its parameters is rejected with an error of the
    duplicate-declaration class (from the parameter list, from the list of
    locals, or from the symbol table, which holds the parameter in the same
    scope), in any table. *)
Theorem shadowing_local_is_duplicate_declaration (st : SymbolTable.SymbolTable) :
  (forall d : ProcedureDefNode,
     (exists n, n ∈ map var_name (proc_params d) /\ n ∈ map var_name (proc_locals d)) ->
     exists e, _visit_procedure_def d st = Raise e /\
               error_class e = DuplicateDeclaration) /\
  (forall d : FunctionDefNode,
     (exists n, n ∈ map var_name (func_params d) /\ n ∈ map var_name (func_locals d)) ->
     exists e, _visit_function_def d st = Raise e /\
               error_class e = DuplicateDeclaration).
Proof.
  assert (Hbody : forall params locals alg st0 st1,
    SymbolTable._scopes st0 <> [] ->
    declare_each DuplicateParameter
      (fun n => SymbolTable.declare_param n 0 "numeric") params ∅ st0 = Ok st1 ->
    (exists n, n ∈ params /\ n ∈ map var_name locals) ->
    exists e, _visit_body locals alg params st1 = Raise e /\
              error_class e = DuplicateDeclaration).
  { intros params locals alg st0 st1 Hne Hp (n & Hn1 & Hn2).
    eapply declare_each_ok in Hp as (Hne1 & _ & Htop1); [|done..].
    unfold _visit_body.
    destruct (declare_each DuplicateLocalVariable _ (map var_name locals) ∅ st1)
      as [st2|e] eqn:Hl; simpl.
    - eapply declare_each_ok in Hl as (_ & Hfresh & _); [|done..].
      destruct (Hfresh n Hn2). apply Htop1. by left.
    - exists e. split; [done|]. by eapply declare_each_raise in Hl. }
  split.
  - intros d Hsh. unfold _visit_procedure_def.
    destruct (_visit_parameters _ _) as [[names st1]|e] eqn:Hp; simpl.
    + apply visit_parameters_inv in Hp as [-> Hp].
      destruct (Hbody _ _ (proc_algorithm d) _ _ (enter_scope_nonempty _ _ _) Hp Hsh)
        as (e & -> & He).
      by exists e.
    + exists e. split; [done|]. unfold _visit_parameters in Hp. raise_inv.
      eapply declare_each_raise in E; [done..|]. apply enter_scope_nonempty.
  - intros d Hsh. unfold _visit_function_def.
    destruct (_visit_parameters _ _) as [[names st1]|e] eqn:Hp; simpl.
    + apply visit_parameters_inv in Hp as [-> Hp].
      destruct (Hbody _ _ (func_algorithm d) _ _ (enter_scope_nonempty _ _ _) Hp Hsh)
        as (e & -> & He).
      by exists e.
    + exists e. split; [done|]. unfold _visit_parameters in Hp. raise_inv.
      eapply declare_each_raise in E; [done..|]. apply enter_scope_nonempty.
Qed.

Lemma shadowing_local_is_duplicate_declaration_witness :
  exists e,
    _visit_procedure_def MoreExamples.shadowing_proc MoreExamples.global_table
      = Raise e /\
    error_class e = DuplicateDeclaration.
Proof.
  apply (proj1 (shadowing_local_is_duplicate_declaration MoreExamples.global_table)).
  exists "a". split; apply list_elem_of_here.
Defined.

End AnalyzerMoreFacts.

(** ** From the analyzer to the generator *)

Module PipelineFacts.
Import Ast SemanticAnalyzer CodeGenerator Specs MoreSpecs Pipeline.
Import SymbolTableMore SymbolTableMoreFacts AnalyzerFacts CodeGeneratorFacts.
Import AnalyzerMoreFacts.

(** Replaces a generator call that is known to succeed by its result. *)
Ltac ok_step H g :=
  let E := fresh "E" in
  pose proof (H g) as E;
  match type of E with
  | is_ok ?r = true => destruct r as [[? ?]|?]; [clear E|discriminate E]
  end.

Lemma analyzed_atom_generates a st a' ty :
  _visit_atom a st = Ok (a', ty) -> forall g, is_ok (_visit_AtomNode a' g) = true.
Proof.
  destruct a as [v|n]; simpl.
  - destruct (SymbolTable.lookup _ _); [|done]. by intros [= <- _] g.
  - by intros [= <- _] g.
Qed.

Lemma analyzed_term_generates :
  (forall t st t' ty, _visit_term t st = Ok (t', ty) ->
     (ty = numeric -> forall g, is_ok (_visit_TermNode t' g) = true) /\
     (ty = boolean ->
        (forall lt lf ng g, is_ok (_generate_conditional_jump t' lt lf ng g) = true) /\
        (forall g, is_ok (_visit_TermNode t' g) = comparison_condition t))) /\
  (forall p st p' ty, _visit_paren_term p st = Ok (p', ty) ->
     (ty = numeric -> forall g, is_ok (_visit_ParenTermNode p' g) = true) /\
     (ty = boolean ->
        (forall lt lf ng g,
           is_ok (_generate_conditional_jump (TermParen p') lt lf ng g) = true) /\
        (forall g, is_ok (_visit_ParenTermNode p' g)
                   = comparison_condition (TermParen p)))).
Proof.
  apply Term_mutind.
  - intros a st t' ty. simpl. intros H. ok_inv.
    pose proof (visit_atom_numeric _ _ _ _ E) as ->.
    split; [|done]. intros _ g. simpl. by eapply analyzed_atom_generates.
  - intros p IH st t' ty. simpl. intros H. ok_inv.
    destruct (IH _ _ _ E) as [Hn Hb]. split; [exact Hn|exact Hb].
  - intros op t IH st p' ty. simpl. intros H. ok_inv.
    destruct (IH _ _ _ E) as [Hn Hb]. destruct op; simpl in E0.
    + destruct (decide _) as [->|]; [|done]. ok_inv. split; [|done].
      intros _ g. simpl. ok_step (Hn eq_refl) g. done.
    + destruct (decide _) as [->|]; [|done]. ok_inv. split; [done|].
      intros _. destruct (Hb eq_refl) as [Hj _]. split.
      * intros lt lf ng g. simpl. apply Hj.
      * intros g. simpl. by destruct (_visit_TermNode _ g) as [[? ?]|].
  - intros l IHl op r IHr nt st p' ty. simpl. intros H. ok_inv.
    destruct (IHl _ _ _ E) as [Hln Hlb]. destruct (IHr _ _ _ E0) as [Hrn Hrb].
    destruct op; simpl in E1;
      (destruct (decide _) as [->|]; [|done]);
      (destruct (decide _) as [->|]; [|done]); ok_inv.
    1-4: split; [|done]; intros _ g; simpl;
         ok_step (Hln eq_refl) g; simpl; ok_step (Hrn eq_refl) c; done.
    1-2: split; [done|]; intros _; split;
         [intros lt lf ng g|intros g]; simpl;
         ok_step (Hln eq_refl) g; simpl; ok_step (Hrn eq_refl) c; done.
    1-2: split; [done|]; intros _; destruct (Hlb eq_refl) as [Hlj _];
         destruct (Hrb eq_refl) as [Hrj _]; split; [|done];
         intros lt lf ng g; simpl;
         match goal with
         | |- context [_generate_conditional_jump _ ?a ?b ?c ?d] =>
             pose proof (Hlj a b c d) as E2;
             destruct (_generate_conditional_jump _ a b c d); [|done]
         end; simpl; apply Hrj.
Qed.


(** The statement visitors of the generator, with the loop over a body
    named. *)
Lemma gen_while_eq c b self :
  _visit_Instr (WhileLoopNode c b) self
  = let '(label_cond, s) := _new_label self in
    let '(label_body, s) := _new_label s in
    let '(label_exit, s) := _new_label s in
    let s := _emit ("REM " +:+ label_cond) s in
    s ← _generate_conditional_jump c label_body label_exit false s;
    let s := _emit ("REM " +:+ label_body) s in
    s ← _visit_AlgorithmNode b s;
    let s := _emit ("GOTO " +:+ label_cond) s in
    Ok (_emit ("REM " +:+ label_exit) s).
Proof. done. Qed.

Lemma gen_do_until_eq b c self :
  _visit_Instr (DoUntilLoopNode b c) self
  = let '(label_body, s) := _new_label self in
    let '(label_exit, s) := _new_label s in
    let s := _emit ("REM " +:+ label_body) s in
    s ← _visit_AlgorithmNode b s;
    '(cond_place, s) ← _visit_TermNode c s;
    Ok (_emit ("IF " +:+ cond_place +:+ " = 0 THEN " +:+ label_body) s).
Proof. done. Qed.

Lemma gen_if_eq c t self :
  _visit_Instr (IfBranchNode c t None) self
  = let '(label_then, s) := _new_label self in
    let '(label_exit, s) := _new_label s in
    s ← _generate_conditional_jump c label_then label_exit false s;
    let s := _emit ("GOTO " +:+ label_exit) s in
    let s := _emit ("REM " +:+ label_then) s in
    s ← _visit_AlgorithmNode t s;
    Ok (_emit ("REM " +:+ label_exit) s).
Proof. done. Qed.

Lemma gen_if_else_eq c t e self :
  _visit_Instr (IfBranchNode c t (Some e)) self
  = let '(label_then, s) := _new_label self in
    let '(label_else, s) := _new_label s in
    let '(label_exit, s) := _new_label s in
    s ← _generate_conditional_jump c label_then label_else false s;
    s ← _visit_AlgorithmNode e s;
    let s := _emit ("GOTO " +:+ label_exit) s in
    let s := _emit ("REM " +:+ label_then) s in
    s ← _visit_AlgorithmNode t s;
    Ok (_emit ("REM " +:+ label_exit) s).
Proof. done. Qed.

Lemma analyzed_arguments_generate args : forall st args',
  _visit_input args st = Ok args' ->
  forall g, is_ok (visit_arguments args' g) = true.
Proof.
  induction args as [|a args IH]; simpl; intros st args' H; ok_inv; [done|].
  intros g. simpl. ok_step (analyzed_atom_generates _ _ _ _ E) g. simpl.
  ok_step (IH _ _ E0) c. done.
Qed.

Lemma analyzed_rhs_generates rhs st rhs' ty :
  _visit_rhs rhs st = Ok (rhs', ty) -> ty = numeric ->
  forall g, is_ok (visit_rhs rhs' g) = true.
Proof.
  destruct analyzed_term_generates as [_ Hp].
  destruct rhs as [a|f args|p]; simpl; intros H Hty g; ok_inv.
  - simpl. by eapply analyzed_atom_generates.
  - unfold _visit_function_call in H.
    destruct (SymbolTable.lookup _ _) as [info|]; [|done].
    destruct (decide _) as [Hk|]; [|done]. ok_inv. simpl.
    unfold _visit_FunctionCallNode.
    ok_step (analyzed_arguments_generate _ _ _ E) g. simpl.
    by destruct (decide _).
  - simpl. by apply (Hp _ _ _ _ E).
Qed.

Lemma analyzed_instruction_generates i : forall st i',
  _visit_instruction i st = Ok i' ->
  forall g, is_ok (_visit_Instr i' g) = do_until_comparisons i.
Proof.
  destruct analyzed_term_generates as [Ht _].
  assert (Hall : forall l st, Forall (fun i => forall st i',
              _visit_instruction i st = Ok i' ->
              forall g, is_ok (_visit_Instr i' g) = do_until_comparisons i) l ->
            forall l', _visit_algorithm l st = Ok l' ->
            forall g, is_ok (_visit_AlgorithmNode l' g)
                      = forallb do_until_comparisons l).
  { intros l st. induction 1 as [|x l Hx _ IH]; simpl; intros l' H; ok_inv; [done|].
    intros g. simpl. rewrite <- (Hx _ _ E g).
    destruct (_visit_Instr _ g); simpl; [|done]. by apply IH. }
  induction i as [|o|v r|n a|c b IHb|b c IHb|c t IHt|c t e' IHt IHe]
    using Instr_nested_ind; intros st i'.
  - by intros [= <-] g.
  - destruct o as [a|s]; simpl; intros H; ok_inv; intros g; [|done].
    simpl. ok_step (analyzed_atom_generates _ _ _ _ E) g. done.
  - simpl. unfold _visit_assignment.
    destruct (SymbolTable.lookup _ _) as [info|]; [|done].
    destruct (decide _); [|done]. intros H. ok_inv.
    destruct (decide _) as [Hty|]; [|done]. ok_inv. intros g. simpl.
    unfold _visit_AssignmentNode.
    ok_step (analyzed_rhs_generates _ _ _ _ E eq_refl) g. done.
  - simpl. unfold _visit_procedure_call.
    destruct (SymbolTable.lookup _ _) as [info|]; [|done].
    destruct (decide _) as [Hk|]; [|done]. intros H. ok_inv. intros g. simpl.
    unfold _visit_ProcedureCallNode.
    ok_step (analyzed_arguments_generate _ _ _ E) g. simpl.
    by destruct (decide _).
  - rewrite visit_while_eq. intros H. ok_inv.
    destruct (decide _) as [Hty|]; [|done]. ok_inv. intros g.
    rewrite gen_while_eq. simpl.
    destruct (Ht _ _ _ _ E) as [_ Hb]. destruct (Hb eq_refl) as [Hj _].
    match goal with
    | |- context [_generate_conditional_jump _ ?x ?y ?z ?w] =>
        pose proof (Hj x y z w) as Hj';
        destruct (_generate_conditional_jump _ x y z w); [|done]
    end. simpl.
    match goal with
    | |- context [_visit_AlgorithmNode _ ?x] =>
        rewrite <- (Hall _ _ IHb _ E0 x);
        by destruct (_visit_AlgorithmNode _ x)
    end.
  - rewrite visit_do_until_eq. intros H. ok_inv.
    destruct (decide _) as [Hty|]; [|done]. ok_inv. intros g.
    rewrite gen_do_until_eq. simpl.
    destruct (Ht _ _ _ _ E0) as [_ Hb]. destruct (Hb eq_refl) as [_ Hv].
    match goal with
    | |- context [_visit_AlgorithmNode _ ?x] =>
        rewrite <- (Hall _ _ IHb _ E x);
        destruct (_visit_AlgorithmNode _ x) as [g1|]; [|done]
    end. simpl. rewrite <- (Hv g1).
    by destruct (_visit_TermNode _ g1) as [[? ?]|].
  - rewrite visit_if_eq. intros H. ok_inv.
    destruct (decide _) as [Hty|]; [|done]. ok_inv. intros g.
    rewrite gen_if_eq. simpl.
    destruct (Ht _ _ _ _ E) as [_ Hb]. destruct (Hb eq_refl) as [Hj _].
    match goal with
    | |- context [_generate_conditional_jump _ ?x ?y ?z ?w] =>
        pose proof (Hj x y z w) as Hj';
        destruct (_generate_conditional_jump _ x y z w); [|done]
    end. simpl. rewrite andb_true_r.
    match goal with
    | |- context [_visit_AlgorithmNode _ ?x] =>
        rewrite <- (Hall _ _ IHt _ E0 x);
        by destruct (_visit_AlgorithmNode _ x)
    end.
  - rewrite visit_if_else_eq. intros H. ok_inv.
    destruct (decide _) as [Hty|]; [|done]. ok_inv. intros g.
    rewrite gen_if_else_eq. simpl.
    destruct (Ht _ _ _ _ E) as [_ Hb]. destruct (Hb eq_refl) as [Hj _].
    match goal with
    | |- context [_generate_conditional_jump _ ?x ?y ?z ?w] =>
        pose proof (Hj x y z w) as Hj';
        destruct (_generate_conditional_jump _ x y z w) as [g1|]; [|done]
    end. simpl.
    rewrite <- (Hall _ _ IHe _ E1 g1).
    destruct (_visit_AlgorithmNode _ g1) as [g2|]; simpl; [|by rewrite andb_false_r].
    rewrite andb_true_r.
    match goal with
    | |- context [_visit_AlgorithmNode _ ?x] =>
        rewrite <- (Hall _ _ IHt _ E0 x);
        by destruct (_visit_AlgorithmNode _ x)
    end.
Qed.

Lemma analyzed_algorithm_generates l : forall st l',
  _visit_algorithm l st = Ok l' ->
  forall g, is_ok (_visit_AlgorithmNode l' g) = forallb do_until_comparisons l.
Proof.
  induction l as [|i l IH]; simpl; intros st l' H; ok_inv; [done|].
  intros g. simpl. rewrite <- (analyzed_instruction_generates _ _ _ E g).
  destruct (_visit_Instr _ g); simpl; [|done]. by eapply IH.
Qed.

(** X9.  For a program that passes the analysis, code generation succeeds
    exactly when every do-until loop of the main program, nested ones
    included, has a comparison as its condition.  Everything else the
    analyzer accepts is generated without a [CodeGenError]. *)
Theorem generation_after_analysis (p : ProgramNode)
    (r : result CodeGenError (list string)) :
  compile p = Some r ->
  is_ok r = forallb do_until_comparisons (main_algorithm (main p)).
Proof.
  unfold compile. destruct (analyze p) as [[p' st]|] eqn:Ha; [|done].
  intros [= <-]. apply analyze_ok in Ha as (_ & stm & _ & _ & Halg).
  unfold generate, _visit_MainProgNode.
  rewrite <- (analyzed_algorithm_generates _ _ _ Halg (mkCodeGenerator [] 0 0)).
  by destruct (_visit_AlgorithmNode _ _).
Qed.

Lemma generation_after_analysis_witness :
  exists r, compile MoreExamples.loops = Some r /\ is_ok r = true.
Proof.
  eexists. split; [vm_compute; reflexivity|].
  refine (eq_trans (generation_after_analysis MoreExamples.loops _ _) _);
    vm_compute; reflexivity.
Defined.

End PipelineFacts.

(** ** Labels of generated code *)

Module GeneratedLabels.
Import Text TextFacts Ast SemanticAnalyzer CodeGenerator Specs MoreSpecs Pipeline.
Import SymbolTableMore SymbolTableMoreFacts AnalyzerFacts CodeGeneratorFacts.
Import AnalyzerMoreFacts PipelineFacts InlinerFacts.

Lemma labels_defined_rem l rest :
  labels_defined (("REM " +:+ l) :: rest) = l :: labels_defined rest.
Proof. done. Qed.

Lemma labels_defined_skip c s rest :
  negb (Ascii.eqb c "R"%char) = true ->
  labels_defined (String c s :: rest) = labels_defined rest.
Proof.
  intros H. rewrite labels_defined_cons. unfold defines.
  change (strip_prefix "REM " (String c s))
    with (if Ascii.eqb "R"%char c then strip_prefix "EM " s else None).
  rewrite Ascii.eqb_sym. by destruct (Ascii.eqb c "R"%char).
Qed.

Ltac simpl_labels :=
  repeat first
    [ rewrite labels_defined_app
    | rewrite labels_defined_rem
    | rewrite labels_defined_skip by done
    | progress change (labels_defined []) with (@nil string) ].

Ltac range_facts :=
  repeat match goal with
  | H : Forall _ ?ks, Hx : _ ∈ ?ks |- _ =>
      apply (proj1 (Forall_forall _ _) H) in Hx; simpl in Hx
  end.

Ltac split_elem :=
  repeat match goal with
  | H : _ ∈ _ ++ _ |- _ => apply elem_of_app in H as [H|H]
  | H : _ ∈ _ :: _ |- _ => apply elem_of_cons in H as [H|H]
  | H : _ ∈ [] |- _ => by apply elem_of_nil in H
  end.

Ltac solve_nodup :=
  rewrite ?NoDup_app, ?NoDup_cons, ?NoDup_nil; split_and?; try done;
  try (intros ? ?); intros ?; split_elem; range_facts; simpl in *; lia.

Ltac solve_range :=
  rewrite ?Forall_app, ?Forall_cons, ?Forall_nil; split_and?; try done;
  try (simpl; lia);
  (eapply Forall_impl; [eassumption|]; simpl; intros; lia).

Lemma goto_targets_app ir1 ir2 :
  goto_targets (ir1 ++ ir2) = goto_targets ir1 ++ goto_targets ir2.
Proof. apply omap_app. Qed.

Lemma goto_targets_goto l rest :
  goto_targets (("GOTO " +:+ l) :: rest) = l :: goto_targets rest.
Proof. done. Qed.

Lemma goto_targets_skip c s rest :
  negb (Ascii.eqb c "G"%char) = true ->
  goto_targets (String c s :: rest) = goto_targets rest.
Proof.
  intros H. unfold goto_targets. simpl. unfold goes_to at 1.
  change (strip_prefix "GOTO " (String c s))
    with (if Ascii.eqb "G"%char c then strip_prefix "OTO " s else None).
  rewrite Ascii.eqb_sym. by destruct (Ascii.eqb c "G"%char).
Qed.

Ltac simpl_gotos :=
  repeat first
    [ rewrite goto_targets_app
    | rewrite goto_targets_goto
    | rewrite goto_targets_skip by done
    | progress change (goto_targets []) with (@nil string) ].

Lemma app_base g m :
  ir_code m = ir_code g -> _label_counter g <= _label_counter m ->
  appends_labels g m [] [].
Proof. intros Hi Hc. split; [done|]. exists []. by rewrite Hi, app_nil_r. Qed.

Lemma app_trans g1 g2 g3 k1 k2 j1 j2 :
  appends_labels g1 g2 k1 j1 -> appends_labels g2 g3 k2 j2 ->
  appends_labels g1 g3 (k1 ++ k2) (j1 ++ j2).
Proof.
  intros (Hc1 & o1 & Hi1 & Hl1 & Hg1) (Hc2 & o2 & Hi2 & Hl2 & Hg2).
  split; [lia|]. exists (o1 ++ o2). split_and!.
  - by rewrite Hi2, Hi1, app_assoc.
  - by rewrite labels_defined_app, Hl1, Hl2, map_app.
  - by rewrite goto_targets_app, Hg1, Hg2, map_app.
Qed.

Lemma app_emit_label g s ks gs k :
  appends_labels g s ks gs ->
  appends_labels g (_emit ("REM " +:+ "L" +:+ str_of_nat k) s) (ks ++ [k]) gs.
Proof.
  intros (Hc & o & Hi & Hl & Hg). split; [done|].
  exists (o ++ ["REM " +:+ "L" +:+ str_of_nat k]). simpl. split_and!.
  - by rewrite Hi, app_assoc.
  - simpl_labels. by rewrite Hl, map_app.
  - simpl_gotos. by rewrite Hg, app_nil_r.
Qed.

Lemma app_emit_goto g s ks gs k :
  appends_labels g s ks gs ->
  appends_labels g (_emit ("GOTO " +:+ "L" +:+ str_of_nat k) s) ks (gs ++ [k]).
Proof.
  intros (Hc & o & Hi & Hl & Hg). split; [done|].
  exists (o ++ ["GOTO " +:+ "L" +:+ str_of_nat k]). simpl. split_and!.
  - by rewrite Hi, app_assoc.
  - simpl_labels. by rewrite Hl, app_nil_r.
  - simpl_gotos. by rewrite Hg, map_app.
Qed.

(** A line that begins with neither R nor G. *)
Lemma app_emit g s ks gs c line :
  negb (Ascii.eqb c "R"%char) && negb (Ascii.eqb c "G"%char) = true ->
  appends_labels g s ks gs -> appends_labels g (_emit (String c line) s) ks gs.
Proof.
  intros [Hc1 Hc2]%andb_prop (Hc & o & Hi & Hl & Hg). split; [done|].
  exists (o ++ [String c line]). simpl. split_and!.
  - by rewrite Hi, app_assoc.
  - simpl_labels. by rewrite Hl, app_nil_r.
  - simpl_gotos. by rewrite Hg, app_nil_r.
Qed.

Lemma app_bump g s ks gs tc n :
  appends_labels g s ks gs -> _label_counter s <= n ->
  appends_labels g (mkCodeGenerator (ir_code s) tc n) ks gs.
Proof.
  intros (Hc & o & Hi & Hl) Hn. split; [simpl; lia|]. by exists o.
Qed.

(** Builds [appends_labels g g' ?ks ?gs] from the last line emitted back to
    [g], through the steps in the context. *)
Ltac chain :=
  lazymatch goal with
  | |- appends_labels _ (_emit ("REM " +:+ _) _) _ _ => apply app_emit_label; chain
  | |- appends_labels _ (_emit ("GOTO " +:+ _) _) _ _ => apply app_emit_goto; chain
  | |- appends_labels _ (_emit _ _) _ _ => eapply app_emit; [done|chain]
  | H : appends_labels _ ?s' _ _ |- appends_labels _ ?s' _ _ =>
      eapply app_trans; [|exact H]; clear H; chain
  | |- appends_labels _ (mkCodeGenerator (ir_code _) _ _) _ _ =>
      eapply app_bump; [chain|simpl; lia]
  | |- _ => apply app_base; [reflexivity|simpl; lia]
  end.

Ltac fresh_inv :=
  repeat match goal with
  | H : appends_fresh_labels _ _ |- _ =>
      let ks := fresh "ks" in
      let gs := fresh "gs" in
      let A := fresh "A" in
      destruct H as (ks & gs & A & ? & ? & ?);
      let Hc := fresh "Hc" in pose proof (proj1 A) as Hc; simpl in Hc
  end.

Ltac solve_targets :=
  rewrite ?Forall_app, ?Forall_cons, ?Forall_nil; split_and?; try done;
  try (eapply Forall_impl; [eassumption|]; simpl; intros ? ?);
  repeat (rewrite elem_of_app || rewrite elem_of_cons); intuition auto.

Ltac solve_fresh :=
  fresh_inv; eexists _, _; split_and!; [chain|solve_nodup|solve_range|solve_targets].

Lemma fresh_refl g : appends_fresh_labels g g.
Proof. solve_fresh. Qed.

Lemma fresh_trans g1 g2 g3 :
  appends_fresh_labels g1 g2 -> appends_fresh_labels g2 g3 ->
  appends_fresh_labels g1 g3.
Proof. intros H1 H2. solve_fresh. Qed.

Lemma visit_atom_fresh a g place g' :
  _visit_AtomNode a g = Ok (place, g') -> appends_fresh_labels g g'.
Proof.
  destruct a as [v|n]; simpl.
  - destruct (_visit_VarNode v); simpl; intros H; ok_inv. apply fresh_refl.
  - intros H. ok_inv. solve_fresh.
Qed.

Lemma visit_term_fresh :
  (forall t g place g', _visit_TermNode t g = Ok (place, g') ->
                        appends_fresh_labels g g') /\
  (forall p g place g', _visit_ParenTermNode p g = Ok (place, g') ->
                        appends_fresh_labels g g').
Proof.
  apply Term_mutind.
  - intros a g place g' H. by eapply visit_atom_fresh.
  - intros p IH g place g' H. by eapply IH.
  - intros op t IH g place g'. simpl. intros H. ok_inv.
    destruct op; [|done]. ok_inv. apply IH in E. solve_fresh.
  - intros l IHl op r IHr ty g place g'. simpl.
    destruct (_ && _); [done|]. intros H. ok_inv.
    destruct (op_map op); [|done]. ok_inv. apply IHl in E. apply IHr in E0.
    solve_fresh.
Qed.

Lemma jump_fresh :
  (forall t lt lf ng g g',
      _generate_conditional_jump t lt lf ng g = Ok g' -> appends_fresh_labels g g') /\
  (forall p lt lf ng g g',
      _generate_conditional_jump (TermParen p) lt lf ng g = Ok g' ->
      appends_fresh_labels g g').
Proof.
  destruct visit_term_fresh as [Ht _].
  apply Term_mutind.
  - intros a lt lf ng g g'. simpl. intros H. ok_inv.
    apply visit_atom_fresh in E. solve_fresh.
  - intros p IH. exact IH.
  - intros op t IH lt lf ng g g'. simpl. destruct op; [done|].
    intros H. by eapply IH.
  - intros l IHl op r IHr ty lt lf ng g g'. simpl.
    destruct op; try done; intros H; ok_inv.
    + apply Ht in E. apply Ht in E0. solve_fresh.
    + apply Ht in E. apply Ht in E0. solve_fresh.
    + apply IHl in E. apply IHr in H. solve_fresh.
    + apply IHl in E. apply IHr in H. solve_fresh.
Qed.


Lemma visit_arguments_fresh args : forall g places g',
  visit_arguments args g = Ok (places, g') -> appends_fresh_labels g g'.
Proof.
  induction args as [|a args IH]; simpl; intros g places g' H; ok_inv.
  - apply fresh_refl.
  - apply visit_atom_fresh in E. apply IH in E0. by eapply fresh_trans.
Qed.

Lemma visit_rhs_fresh rhs g place g' :
  visit_rhs rhs g = Ok (place, g') -> appends_fresh_labels g g'.
Proof.
  destruct rhs as [a|f args|p]; simpl.
  - apply visit_atom_fresh.
  - unfold _visit_FunctionCallNode. intros H. ok_inv.
    destruct (symbol_info f) as [info|]; [|done].
    destruct (decide _); [|done]. ok_inv.
    apply visit_arguments_fresh in E. solve_fresh.
  - apply visit_term_fresh.
Qed.

Lemma v_named_inv v :
  v_named v = true ->
  exists r, _visit_VarNode v = Ok (String "v" (String "_" r)).
Proof.
  unfold v_named, _visit_VarNode, startswith.
  destruct (symbol_info v) as [info|]; [|done].
  destruct (strip_prefix "v_" _) as [r|] eqn:E; [|done]. intros _.
  apply strip_prefix_Some in E. exists r. by rewrite E.
Qed.

Lemma visit_instr_fresh i : forall g g',
  targets_named i = true -> _visit_Instr i g = Ok g' -> appends_fresh_labels g g'.
Proof.
  destruct jump_fresh as [Hj _]. destruct visit_term_fresh as [Ht _].
  assert (Hall : forall l, Forall (fun i => forall g g',
              targets_named i = true -> _visit_Instr i g = Ok g' ->
              appends_fresh_labels g g') l ->
            forall g g', forallb targets_named l = true ->
                         _visit_AlgorithmNode l g = Ok g' ->
                         appends_fresh_labels g g').
  { induction 1 as [|x l Hx _ IH]; simpl; intros g g' Hn H; ok_inv.
    - apply fresh_refl.
    - apply andb_prop in Hn as [Hn1 Hn2].
      apply Hx in E; [|done]. apply IH in H; [|done]. by eapply fresh_trans. }
  induction i as [|o|v r|n a|c b IHb|b c IHb|c t IHt|c t e IHt IHe]
    using Instr_nested_ind; intros g g' Hn.
  - simpl. intros H. ok_inv. solve_fresh.
  - destruct o as [a|s]; simpl; intros H; ok_inv.
    + apply visit_atom_fresh in E. solve_fresh.
    + solve_fresh.
  - simpl. unfold _visit_AssignmentNode. intros H. ok_inv.
    apply visit_rhs_fresh in E. simpl in Hn.
    apply v_named_inv in Hn as [r' Hv]. rewrite Hv in E0. ok_inv. solve_fresh.
  - simpl. unfold _visit_ProcedureCallNode. intros H. ok_inv.
    destruct (symbol_info n) as [info|]; [|done].
    destruct (decide _); [|done]. ok_inv.
    apply visit_arguments_fresh in E. solve_fresh.
  - rewrite gen_while_eq. simpl. intros H. ok_inv.
    apply Hj in E. apply (Hall _ IHb) in E0; [|done]. solve_fresh.
  - rewrite gen_do_until_eq. simpl. intros H. ok_inv.
    apply (Hall _ IHb) in E; [|done]. apply Ht in E0. solve_fresh.
  - rewrite gen_if_eq. simpl. intros H. ok_inv.
    simpl in Hn. rewrite andb_true_r in Hn.
    apply Hj in E. apply (Hall _ IHt) in E0; [|done]. solve_fresh.
  - rewrite gen_if_else_eq. simpl. intros H. ok_inv.
    simpl in Hn. apply andb_prop in Hn as [Hn1 Hn2].
    apply Hj in E. apply (Hall _ IHe) in E0; [|done].
    apply (Hall _ IHt) in E1; [|done]. solve_fresh.
Qed.

Lemma visit_algorithm_fresh l : forall g g',
  forallb targets_named l = true -> _visit_AlgorithmNode l g = Ok g' ->
  appends_fresh_labels g g'.
Proof.
  induction l as [|i l IH]; simpl; intros g g' Hn H; ok_inv.
  - apply fresh_refl.
  - apply andb_prop in Hn as [Hn1 Hn2].
    apply visit_instr_fresh in E; [|done]. apply IH in H; [|done].
    by eapply fresh_trans.
Qed.


Lemma str_of_nat_nonempty n : str_of_nat n <> "".
Proof.
  unfold str_of_nat. intros H.
  assert (Hn : Nat.to_uint n = Decimal.Nil).
  { pose proof (NilEmpty.usu (Nat.to_uint n)) as H1. rewrite H in H1.
    simpl in H1. congruence. }
  rewrite <- (DecimalNat.Unsigned.of_to n), DecimalNat.Unsigned.to_of in Hn.
  by apply DecimalFacts.unorm_nonnil in Hn.
Qed.

Lemma is_label_label_of k : is_label (label_of k) = true.
Proof.
  unfold label_of, is_label. change ("L" +:+ ?x) with (String "L" x).
  simpl. unfold digits1. rewrite str_of_nat_digits, andb_true_r.
  destruct (String.eqb_spec (str_of_nat k) ""); [|done].
  by destruct (str_of_nat_nonempty k).
Qed.

Lemma label_of_inj k1 k2 : label_of k1 = label_of k2 -> k1 = k2.
Proof. unfold label_of. intros [= H]. by apply str_of_nat_inj. Qed.

Lemma fresh_generated g g' :
  ir_code g = [] -> appends_fresh_labels g g' ->
  generated_labels (ir_code g') = true.
Proof.
  intros Hg (ks & gs & (_ & out & Hi & Hl & _) & Hn & _). rewrite Hg in Hi.
  simpl in Hi. rewrite Hi.
  unfold generated_labels. apply andb_true_intro. split.
  - apply forallb_forall. intros line Hin. destruct (defines line) as [l|] eqn:Hd; [|done].
    assert (Hl' : l ∈ labels_defined out).
    { apply list_elem_of_omap. exists line. split; [|done]. by apply list_elem_of_In. }
    rewrite Hl in Hl'. apply list_elem_of_fmap in Hl' as (k & -> & _).
    apply is_label_label_of.
  - apply bool_decide_eq_true. rewrite Hl.
    apply NoDup_fmap_2; [|done]. intros k1 k2. apply label_of_inj.
Qed.

Lemma analyzed_targets_named i : forall st i',
  _visit_instruction i st = Ok i' ->
  entries_ok st -> SymbolTable._unique_prefix st = "v" ->
  targets_named i' = true.
Proof.
  assert (Hall : forall l st, Forall (fun i => forall st i',
              _visit_instruction i st = Ok i' ->
              entries_ok st -> SymbolTable._unique_prefix st = "v" ->
              targets_named i' = true) l ->
            forall l', _visit_algorithm l st = Ok l' ->
            entries_ok st -> SymbolTable._unique_prefix st = "v" ->
            forallb targets_named l' = true).
  { intros l st. induction 1 as [|x l Hx _ IH]; simpl; intros l' H Hok Hp; ok_inv;
      [done|].
    simpl. by rewrite (Hx _ _ E Hok Hp), (IH _ eq_refl Hok Hp). }
  induction i as [|o|v r|n a|c b IHb|b c IHb|c t IHt|c t e IHt IHe]
    using Instr_nested_ind; intros st i'.
  - by intros [= <-].
  - destruct o as [a|s]; simpl; intros H; by ok_inv.
  - simpl. unfold _visit_assignment.
    destruct (SymbolTable.lookup _ _) as [info|] eqn:Hl; [|done].
    destruct (decide _); [|done]. intros H Hok Hp. ok_inv.
    destruct (decide _); [|done]. ok_inv. simpl. unfold v_named. simpl.
    apply (lookup_entry_ok _ _ _ Hok) in Hl as (_ & c & -> & _). by rewrite Hp.
  - simpl. unfold _visit_procedure_call.
    destruct (SymbolTable.lookup _ _) as [info|]; [|done].
    destruct (decide _); [|done]. intros H. by ok_inv.
  - rewrite visit_while_eq. intros H Hok Hp. ok_inv.
    destruct (decide _); [|done]. ok_inv. simpl. by eapply Hall.
  - rewrite visit_do_until_eq. intros H Hok Hp. ok_inv.
    destruct (decide _); [|done]. ok_inv. simpl. by eapply Hall.
  - rewrite visit_if_eq. intros H Hok Hp. ok_inv.
    destruct (decide _); [|done]. ok_inv. simpl. rewrite andb_true_r. by eapply Hall.
  - rewrite visit_if_else_eq. intros H Hok Hp. ok_inv.
    destruct (decide _); [|done]. ok_inv. simpl.
    rewrite (Hall _ _ IHt _ E0 Hok Hp). by eapply (Hall _ _ IHe).
Qed.

Lemma analyzed_algorithm_targets_named l : forall st l',
  _visit_algorithm l st = Ok l' ->
  entries_ok st -> SymbolTable._unique_prefix st = "v" ->
  forallb targets_named l' = true.
Proof.
  induction l as [|i l IH]; simpl; intros st l' H Hok Hp; ok_inv; [done|].
  simpl. by rewrite (analyzed_targets_named _ _ _ E Hok Hp), (IH _ _ E0 Hok Hp).
Qed.

(** What the generator appended for a program that passed the analysis. *)
Lemma compiled_fresh p ir :
  compile p = Some (Ok ir) ->
  exists g', ir = ir_code g' /\ appends_fresh_labels (mkCodeGenerator [] 0 0) g'.
Proof.
  unfold compile. destruct (analyze p) as [[p' st]|] eqn:Ha; [|done].
  intros [= Hg]. apply analyze_ok in Ha as (_ & stm & Hok & Hp & Halg).
  unfold generate, _visit_MainProgNode in Hg. ok_inv.
  apply analyzed_algorithm_targets_named in Halg; [|done..].
  apply visit_algorithm_fresh in E; [|done]. by eexists.
Qed.

(** X10.  In the IR generated for a program that passed the analysis,
    every line that begins with [REM ] is [REM L<k>] with [k] at least 1,
    and no label is defined twice: the IR has the form the inliner's
    relabelling expects. *)
Theorem compiled_labels_defined_once (p : ProgramNode) (ir : list string) :
  compile p = Some (Ok ir) ->
  generated_labels ir = true /\
  exists ks, labels_defined ir = map label_of ks /\ NoDup ks /\
             Forall (fun k => 1 <= k) ks.
Proof.
  intros (g' & -> & Hf)%compiled_fresh.
  split; [eapply fresh_generated; [|exact Hf]; done|].
  destruct Hf as (ks & gs & (_ & out & Hi & Hl & _) & Hn & Hr & _).
  simpl in Hi. rewrite Hi.
  exists ks. split_and!; [done..|]. eapply Forall_impl; [exact Hr|]. simpl. lia.
Qed.

Lemma compiled_labels_defined_once_witness :
  exists ir, compile MoreExamples.loops = Some (Ok ir) /\ generated_labels ir = true.
Proof.
  eexists. split; [vm_compute; reflexivity|].
  refine (proj1 (compiled_labels_defined_once MoreExamples.loops _ _)).
  vm_compute. reflexivity.
Defined.

(** X11.  In the IR generated for a program that passed the analysis,
    every [GOTO l] jumps to a label [L<k>] that a line [REM l] of the same IR
    defines.  (The targets of [IF ... THEN] have no such guarantee.) *)
Theorem compiled_gotos_reach_labels (p : ProgramNode) (ir : list string)
    (l : string) :
  compile p = Some (Ok ir) ->
  "GOTO " +:+ l ∈ ir ->
  "REM " +:+ l ∈ ir /\ is_label l = true.
Proof.
  intros (g' & -> & Hf)%compiled_fresh Hin.
  destruct Hf as (ks & gs & (_ & out & Hi & Hl & Hg) & _ & _ & Hsub).
  simpl in Hi. rewrite Hi in *.
  assert (Ht : l ∈ goto_targets out).
  { apply list_elem_of_omap. by exists ("GOTO " +:+ l). }
  rewrite Hg in Ht. apply list_elem_of_fmap in Ht as (k & -> & Hk).
  rewrite Forall_forall in Hsub. apply Hsub in Hk.
  split; [|apply is_label_label_of].
  assert (Hd : label_of k ∈ labels_defined out).
  { rewrite Hl. by apply (list_elem_of_fmap_2 label_of). }
  apply list_elem_of_omap in Hd as (line & Hline & Hd).
  by apply defines_inv in Hd as ->.
Qed.

Lemma compiled_gotos_reach_labels_witness :
  exists ir,
    compile MoreExamples.loops = Some (Ok ir) /\
    "GOTO " +:+ "L6" ∈ ir /\ "REM " +:+ "L6" ∈ ir.
Proof.
  eexists. split; [vm_compute; reflexivity|].
  assert (Hin : "GOTO " +:+ "L6" ∈
    ["REM L1"; "t1 = 0"; "IF v_x_1 > t1 THEN L2"; "REM L2"; "t2 = 1";
     "IF v_x_1 > t2 THEN L7"; "REM L7"; "t3 = 0"; "IF v_y_1 = t3 THEN L5";
     "STOP"; "GOTO L6"; "REM L4"; "t4 = 1"; "t5 = v_x_1 - t4"; "v_x_1 = t5";
     "REM L6"; "GOTO L1"; "REM L3"; "REM L8"; "PRINT v_x_1"; "t6 = 0";
     "t7 = v_x_1 = t6"; "IF t7 = 0 THEN L8"]).
  { by apply (list_elem_of_lookup_2 _ 10). }
  split; [exact Hin|].
  refine (proj1 (compiled_gotos_reach_labels MoreExamples.loops _ "L6" _ Hin)).
  vm_compute. reflexivity.
Defined.

End GeneratedLabels.

(** ** Inliner: the pass as a whole *)

Module InlinerMoreFacts.
Import Text TextFacts Inliner Specs MoreSpecs InlinerFacts.

Lemma inlinable_false fb line : inlinable fb line = false <-> copied fb line.
Proof.
  unfold inlinable, copied. destruct (call_pattern line) as [[[t f] a]|]; [|done].
  rewrite bool_decide_eq_false, <- eq_None_not_Some. done.
Qed.

Lemma inlinable_true fb line :
  inlinable fb line = true ->
  exists t f a info, call_pattern line = Some (t, f, a) /\ fb !! f = Some info.
Proof.
  unfold inlinable. destruct (call_pattern line) as [[[t f] a]|]; [|done].
  intros [info Hi]%bool_decide_eq_true. by exists t, f, a, info.
Qed.

(** X12.  IR in which no line is a call of a registered function (it has
    no call, or calls of unknown callees only) is returned as it is, and the
    inliner's counter does not move. *)
Theorem code_without_inlinable_calls_unchanged (self : Inliner) (ir : list string) :
  forallb (fun line => negb (inlinable (function_bodies self) line)) ir = true ->
  inline_calls self ir = Ok (ir, self).
Proof.
  intros H. unfold inline_calls. rewrite inline_copied.
  - by destruct self.
  - apply Forall_forall. intros line Hin. apply inlinable_false.
    rewrite forallb_forall in H. apply list_elem_of_In in Hin.
    by apply negb_true_iff, H.
Qed.

Lemma code_without_inlinable_calls_unchanged_witness :
  inline_calls (init InlinerExamples.registry) MoreExamples.no_calls
  = Ok (MoreExamples.no_calls, init InlinerExamples.registry).
Proof.
  apply code_without_inlinable_calls_unchanged. vm_compute. reflexivity.
Defined.

(** X13.  When the first call of a registered function in the IR passes a
    number of arguments other than the number of the function's parameters,
    [inline_calls] raises the argument-count error, with the callee, the
    number of parameters and the number of arguments given. *)
Theorem argument_count_mismatch_raises (self : Inliner) (pre rest : list string)
    (instruction target func_name args_str : string) (info : FunctionBodyInfo) :
  forallb (fun line => negb (inlinable (function_bodies self) line)) pre = true ->
  call_pattern instruction = Some (target, func_name, args_str) ->
  function_bodies self !! func_name = Some info ->
  length (parse_call_args args_str) <> length (params info) ->
  inline_calls self (pre ++ instruction :: rest)
  = Raise (ArgumentCountMismatch func_name (length (params info))
             (length (parse_call_args args_str))).
Proof.
  intros Hpre Hc Hf Hn. unfold inline_calls.
  rewrite inline_from_app.
  2:{ unfold not_assignment. simpl. by eapply call_not_assignment. }
  rewrite inline_copied.
  2:{ apply Forall_forall. intros line Hin. apply inlinable_false.
      rewrite forallb_forall in Hpre. apply list_elem_of_In in Hin.
      by apply negb_true_iff, Hpre. }
  cbv beta iota delta [mbind result_bind].
  rewrite (inline_from_call _ _ _ _ _ _ _ _ Hc Hf).
  destruct (return_target_of _ _ _) as [rt skip].
  by destruct (decide _).
Qed.

Lemma argument_count_mismatch_raises_witness :
  inline_calls (init InlinerExamples.registry)
    (["v_x_1 = 5"] ++ "t1 = CALL v_add_1(5)" :: ["v_res_18 = t1"; "STOP"])
  = Raise (ArgumentCountMismatch "v_add_1"
             (length (params InlinerExamples.add_body))
             (length (parse_call_args "5"))).
Proof.
  apply (argument_count_mismatch_raises (init InlinerExamples.registry)
           ["v_x_1 = 5"] ["v_res_18 = t1"; "STOP"] "t1 = CALL v_add_1(5)"
           "t1" "v_add_1" "5" InlinerExamples.add_body).
  - vm_compute. reflexivity.
  - vm_compute. reflexivity.
  - vm_compute. reflexivity.
  - vm_compute. intros H. discriminate H.
Defined.

(** X14.  Inlining a text in two chunks with the same inliner gives the
    output and the counter of inlining it in one piece, provided the second
    chunk does not begin with a copy [v = t<n>] (which the look-ahead of a
    call ending the first chunk would have consumed). *)
Theorem inline_calls_in_two_chunks (self : Inliner) (pre l : list string) :
  not_assignment l ->
  inline_calls self (pre ++ l)
  = '(out1, self1) ← inline_calls self pre;
    '(out2, self2) ← inline_calls self1 l;
    Ok (out1 ++ out2, self2).
Proof.
  intros H. unfold inline_calls. rewrite inline_from_app by done.
  destruct (inline_from _ pre _) as [[o1 c1]|]; [|done]. simpl.
  by destruct (inline_from _ l c1) as [[o2 c2]|].
Qed.

Lemma inline_calls_in_two_chunks_witness :
  inline_calls (init InlinerExamples.registry)
    ([InlinerExamples.call_add_1; "v_res1_11 = t1"]
     ++ [InlinerExamples.call_add_2; "v_res2_12 = t2"; "STOP"])
  = '(out1, self1) ← inline_calls (init InlinerExamples.registry)
                       [InlinerExamples.call_add_1; "v_res1_11 = t1"];
    '(out2, self2) ← inline_calls self1
                       [InlinerExamples.call_add_2; "v_res2_12 = t2"; "STOP"];
    Ok (out1 ++ out2, self2).
Proof.
  apply inline_calls_in_two_chunks. vm_compute. reflexivity.
Defined.


Lemma skipped_not_inlinable fb info target next rt :
  return_target_of info target next = (rt, true) ->
  exists line, next = Some line /\ inlinable fb line = false.
Proof.
  intros (line & final & -> & Ha & _)%return_target_of_skip. exists line.
  split; [done|]. unfold inlinable.
  destruct (call_pattern line) as [x|] eqn:Hc; [|done].
  apply call_not_assignment in Hc. congruence.
Qed.

Lemma inline_from_counter fb n : forall ir c out c',
  length ir <= n -> inline_from fb ir c = Ok (out, c') ->
  c' = c + length (List.filter (inlinable fb) ir).
Proof.
  induction n as [|n IH]; intros ir c out c' Hlen.
  { destruct ir; [|simpl in Hlen; lia]. intros [= _ <-]. simpl. lia. }
  destruct ir as [|x rest]; [intros [= _ <-]; simpl; lia|]. simpl in Hlen.
  change (List.filter (inlinable fb) (x :: rest))
    with (if inlinable fb x then x :: List.filter (inlinable fb) rest
          else List.filter (inlinable fb) rest).
  destruct (inlinable fb x) eqn:Hx.
  - apply inlinable_true in Hx as (t & f & a & info & Hc & Hf).
    rewrite (inline_from_call _ _ _ _ _ _ _ _ Hc Hf).
    destruct (return_target_of _ _ _) as [rt skip] eqn:Hrt.
    destruct (decide _); [|done].
    destruct (inline_from fb _ (c + 1)) as [[o1 c1]|] eqn:Hi; [|done].
    intros [= _ <-]. destruct skip.
    + apply (skipped_not_inlinable fb) in Hrt as (line & Hh & Hl).
      destruct rest as [|y rest']; [done|]. injection Hh as ->.
      simpl in Hi. apply IH in Hi; [|simpl in Hlen; lia].
      change (List.filter (inlinable fb) (line :: rest'))
        with (if inlinable fb line then line :: List.filter (inlinable fb) rest'
              else List.filter (inlinable fb) rest').
      rewrite Hl. simpl. lia.
    + apply IH in Hi; [|lia]. simpl. lia.
  - rewrite inline_from_copy by (by apply inlinable_false).
    destruct (inline_from fb rest c) as [[o1 c1]|] eqn:Hi; [|done].
    intros [= _ <-]. apply IH in Hi; [done|lia].
Qed.

(** X15.  A successful [inline_calls] leaves the registry as it was and
    advances the counter by the number of lines of the input that are calls
    of registered functions: each of them is a call site with an id of its
    own. *)
Theorem inline_counter_counts_call_sites (self self' : Inliner)
    (ir out : list string) :
  inline_calls self ir = Ok (out, self') ->
  function_bodies self' = function_bodies self /\
  _inline_counter self'
  = _inline_counter self
    + length (List.filter (inlinable (function_bodies self)) ir).
Proof.
  unfold inline_calls.
  destruct (inline_from _ ir _) as [[o c]|] eqn:Hi; [|done].
  intros [= _ <-]. split; [done|]. simpl. by eapply inline_from_counter.
Qed.

Lemma inline_counter_counts_call_sites_witness :
  exists out self',
    inline_calls (init InlinerExamples.registry) MoreExamples.two_calls
      = Ok (out, self') /\
    _inline_counter self' = 2.
Proof.
  eexists _, _. split; [vm_compute; reflexivity|].
  refine (eq_trans (proj2 (inline_counter_counts_call_sites
    (init InlinerExamples.registry) _ MoreExamples.two_calls _ _)) _);
    vm_compute; reflexivity.
Defined.

(** X16.  For a registry of generated bodies and IR with generated labels,
    the output of a new inliner defines no label twice, whatever the number
    of calls and of callees; each label of the output is a label of the
    input or [L<n>_inline_<k>] for a call site [k] between 1 and the final
    counter. *)
Theorem inlined_labels_distinct (fb : gmap string FunctionBodyInfo)
    (ir out : list string) (self' : Inliner) :
  registry_generated fb ->
  generated_labels ir = true ->
  inline_calls (init fb) ir = Ok (out, self') ->
  NoDup (labels_defined out) /\
  forall l, l ∈ labels_defined out ->
    l ∈ labels_defined ir \/
    exists b k, is_label b = true /\ 1 <= k <= _inline_counter self' /\
                l = suffixed b k.
Proof.
  intros Hfb [Hplain Hnd]%generated_labels_inv. unfold inline_calls, init. simpl.
  destruct (inline_from fb ir 0) as [[o c]|] eqn:Hi; [|done].
  intros [= <- <-]. simpl.
  destruct (inline_labels_bounded fb Hfb _ ir 0 o c (le_n _) Hplain Hnd Hi)
    as (_ & Hn & Horigin).
  split; [done|]. intros l Hl. destruct (Horigin l Hl) as [?|(b & k & ? & ? & ?)].
  - by left.
  - right. exists b, k. split_and!; [done|lia|lia|done].
Qed.

Lemma inlined_labels_distinct_witness :
  exists out self',
    inline_calls (init InlinerExamples.registry) MoreExamples.two_calls
      = Ok (out, self') /\
    NoDup (labels_defined out).
Proof.
  eexists _, _. split; [vm_compute; reflexivity|].
  refine (proj1 (inlined_labels_distinct InlinerExamples.registry
                   MoreExamples.two_calls _ _ _ _ _)).
  - apply map_Forall_singleton. vm_compute. reflexivity.
  - vm_compute. reflexivity.
  - vm_compute. reflexivity.
Defined.


(** *** Relabelling twice *)

Lemma suffixed_text l k :
  is_label l = true ->
  suffixed l k <> "" /\ all_chars no_newline (suffixed l k) = true.
Proof.
  intros Hl. destruct (label_no_newline _ Hl) as [Hne Hnl]. unfold suffixed. split.
  - destruct l; [done|]. discriminate.
  - rewrite !all_chars_app, Hnl. simpl.
    eapply all_chars_impl; [apply digit_no_newline|apply str_of_nat_digits].
Qed.

Lemma jump_line_chomp cp lab :
  lab <> "" -> all_chars no_newline lab = true ->
  chomp (cp +:+ " " +:+ lab) = cp +:+ " " +:+ lab.
Proof.
  intros Hne Hnl. apply chomp_app; [done|].
  change (" " +:+ lab) with (String " " lab). simpl. by rewrite Hnl.
Qed.

(** The three forms of a relabelled line. *)
Lemma relabel_line_cases body k line :
  line ∈ body ->
  let y := relabel_line (collect_labels body k ∅) line in
  (exists l, is_label l = true /\ y = "REM " +:+ suffixed l k) \/
  (exists cp lab, (cp = "GOTO" \/ is_if_then cp = true) /\
                  lab <> "" /\ all_chars no_newline lab = true /\
                  y = cp +:+ " " +:+ lab) \/
  (y = line /\ rem_label_pattern line = None /\ jump_pattern line = None).
Proof.
  intros Hin. unfold relabel_line. simpl.
  destruct (rem_label_pattern line) as [l|] eqn:Hr.
  - left. exists l. pose proof (rem_label_pattern_inv _ _ Hr) as [Hl _].
    split; [done|]. by erewrite collect_defined.
  - destruct (jump_pattern line) as [[cp l]|] eqn:Hj; [|by right; right].
    right. left. apply jump_pattern_inv in Hj as (_ & Hl & Hcp).
    exists cp, (default l (collect_labels body k ∅ !! l)). split; [done|].
    destruct (collect_spec body k l) as [->| ->]; simpl.
    + by destruct (label_no_newline _ Hl).
    + by destruct (suffixed_text l k Hl).
Qed.

Lemma relabelled_not_rem body k line :
  line ∈ body ->
  rem_label_pattern (relabel_line (collect_labels body k ∅) line) = None.
Proof.
  intros Hin.
  destruct (relabel_line_cases body k line Hin)
    as [(l & Hl & ->)|[(cp & lab & Hcp & Hne & Hnl & ->)|(-> & Hr & _)]]; [| |done].
  - unfold rem_label_pattern. destruct (suffixed_text l k Hl) as [Hne Hnl].
    rewrite chomp_app, strip_prefix_app by done. by rewrite suffixed_not_label.
  - unfold rem_label_pattern. rewrite (jump_line_chomp cp lab) by done.
    by rewrite (defines_jump cp (" " +:+ lab) Hcp : strip_prefix _ _ = None).
Qed.

Lemma relabelled_fixed body k line :
  line ∈ body ->
  relabel_line ∅ (relabel_line (collect_labels body k ∅) line)
  = relabel_line (collect_labels body k ∅) line.
Proof.
  intros Hin. pose proof (relabelled_not_rem body k line Hin) as Hr.
  unfold relabel_line at 1. rewrite Hr.
  destruct (jump_pattern _) as [[cp' l']|] eqn:Hj; [|done].
  rewrite lookup_empty. simpl.
  pose proof (jump_pattern_inv _ _ _ Hj) as (Hc & _). rewrite <- Hc. clear Hc Hr.
  destruct (relabel_line_cases body k line Hin)
    as [(l & Hl & Hy)|[(cp & lab & Hcp & Hne & Hnl & Hy)|(Hy & _ & Hj')]];
    rewrite Hy in *.
  - destruct (suffixed_text l k Hl). by apply chomp_app.
  - by apply jump_line_chomp.
  - congruence.
Qed.

Lemma collect_nothing body k : forall acc,
  (forall line, line ∈ body -> rem_label_pattern line = None) ->
  collect_labels body k acc = acc.
Proof.
  induction body as [|x body IH]; intros acc H; simpl; [done|].
  rewrite (H x) by apply list_elem_of_here. apply IH.
  intros line Hin. apply H. by apply list_elem_of_further.
Qed.

(** X17.  Relabelling is idempotent: a body relabelled for one call site
    holds no [REM L<n>] line and no jump to a label it defines, so a second
    [_make_labels_unique], for any call site, returns it unchanged (no label
    gets a second suffix). *)
Theorem make_labels_unique_idempotent (body : list string) (k k' : nat) :
  _make_labels_unique (_make_labels_unique body k) k' = _make_labels_unique body k.
Proof.
  unfold _make_labels_unique. rewrite collect_nothing.
  - rewrite map_map. apply map_ext_in. intros line Hin.
    apply relabelled_fixed. by apply list_elem_of_In.
  - intros y Hy. apply list_elem_of_In, in_map_iff in Hy as (line & <- & Hin).
    apply relabelled_not_rem. by apply list_elem_of_In.
Qed.

(** *** Calls of procedures *)

Lemma rstrip_cons c s : is_space c = false -> rstrip (String c s) = String c (rstrip s).
Proof. intros H. simpl. rewrite H. by destruct (rstrip s). Qed.

Lemma return_line_has_return line p :
  return_pattern line = Some p -> startswith "RETURN" (strip line) = true.
Proof.
  intros (_ & t & ->)%return_pattern_inv. unfold strip.
  change ("RETURN " +:+ p +:+ t)
    with (String "R" (String "E" (String "T" (String "U" (String "R"
           (String "N" (" " +:+ p +:+ t))))))).
  change (lstrip (String "R" ?x)) with (String "R" x).
  by rewrite !rstrip_cons.
Qed.

Lemma no_return_lines body :
  has_return body = false ->
  forall line, line ∈ body -> return_pattern line = None.
Proof.
  unfold has_return. intros H line Hin.
  destruct (return_pattern line) as [p|] eqn:Hr; [|done].
  apply return_line_has_return in Hr.
  assert (existsb (fun line => startswith "RETURN" (strip line)) body = true);
    [|congruence].
  apply existsb_exists. exists line. split; [by apply list_elem_of_In|done].
Qed.

Lemma relabelled_no_return body k line :
  line ∈ body -> return_pattern line = None ->
  return_pattern (relabel_line (collect_labels body k ∅) line) = None.
Proof.
  intros Hin Hr.
  destruct (relabel_line_cases body k line Hin)
    as [(l & Hl & ->)|[(cp & lab & Hcp & Hne & Hnl & ->)|(-> & _ & _)]].
  - apply return_pattern_rem.
  - by apply jump_line_not_return.
  - done.
Qed.

Lemma adapt_lines_none ir rt :
  (forall line, line ∈ ir -> return_pattern line = None) -> adapt_lines ir rt = ir.
Proof.
  induction ir as [|x ir IH]; intros H; [done|].
  rewrite adapt_lines_cons, (H x) by apply list_elem_of_here.
  rewrite IH; [done|]. intros line Hin. apply H. by apply list_elem_of_further.
Qed.

(** X18.  At a call of a registered body without a RETURN line (a
    procedure) with the right number of arguments, the output is the
    parameter assignments, then the body with its labels made unique and
    nothing else changed, then the output for the instructions after the
    call: the instruction that follows the call is never dropped, even when
    it copies the call's target. *)
Theorem procedure_call_inlined (fb : gmap string FunctionBodyInfo)
    (instruction target callee args_str : string) (info : FunctionBodyInfo)
    (rest : list string) (c : nat) :
  call_pattern instruction = Some (target, callee, args_str) ->
  fb !! callee = Some info ->
  has_return (body_ir info) = false ->
  length (parse_call_args args_str) = length (params info) ->
  inline_from fb (instruction :: rest) c
  = '(out, c') ← inline_from fb rest (c + 1);
    Ok (param_assignments (params info) (parse_call_args args_str)
        ++ _make_labels_unique (body_ir info) (c + 1) ++ out, c').
Proof.
  intros Hc Hf Hr Hlen. rewrite (inline_from_call _ _ _ _ _ _ _ _ Hc Hf).
  unfold return_target_of. rewrite Hr.
  destruct (decide _); [|done].
  unfold _adapt_body. rewrite adapt_lines_none; [done|].
  intros y Hy. unfold _make_labels_unique in Hy.
  apply list_elem_of_In, in_map_iff in Hy as (line & <- & Hin).
  apply list_elem_of_In in Hin.
  apply relabelled_no_return; [done|]. by eapply no_return_lines.
Qed.

Lemma procedure_call_inlined_witness :
  inline_from MoreExamples.registry_with_proc
    (MoreExamples.call_print_val :: ["v_res_1 = t3"; "STOP"]) 0
  = '(out, c') ← inline_from MoreExamples.registry_with_proc
                   ["v_res_1 = t3"; "STOP"] (0 + 1);
    Ok (param_assignments (params MoreExamples.print_val_body)
          (parse_call_args "v_val_10")
        ++ _make_labels_unique (body_ir MoreExamples.print_val_body) (0 + 1)
        ++ out, c').
Proof.
  apply (procedure_call_inlined MoreExamples.registry_with_proc
           MoreExamples.call_print_val "t3" "v_print_val_5" "v_val_10"
           MoreExamples.print_val_body).
  - vm_compute. reflexivity.
  - vm_compute. reflexivity.
  - vm_compute. reflexivity.
  - vm_compute. reflexivity.
Defined.

End InlinerMoreFacts.

(** ** Analysis, generation and inlining together *)

Module EndToEnd.
Import Text Ast SemanticAnalyzer CodeGenerator Inliner Specs MoreSpecs Pipeline.
Import InlinerFacts GeneratedLabels.

(** X19.  Analysis, generation and inlining in sequence: when a program
    passes the analysis and is generated, and the result is inlined by a new
    inliner over a registry of generated bodies, the final IR defines no
    label twice. *)
Theorem compiled_then_inlined_labels_distinct (p : ProgramNode)
    (fb : gmap string FunctionBodyInfo) (ir out : list string) (self' : Inliner) :
  compile p = Some (Ok ir) ->
  registry_generated fb ->
  inline_calls (init fb) ir = Ok (out, self') ->
  NoDup (labels_defined out).
Proof.
  intros (g' & -> & Hf)%compiled_fresh Hfb.
  apply fresh_generated in Hf; [|done].
  apply generated_labels_inv in Hf as [Hplain Hnd].
  unfold inline_calls, init. simpl.
  destruct (inline_from fb (ir_code g') 0) as [[o c]|] eqn:Hi; [|done].
  intros [= <- _].
  by destruct (inline_labels_bounded fb Hfb _ _ 0 o c (le_n _) Hplain Hnd Hi)
    as (_ & Hn & _).
Qed.

Lemma compiled_then_inlined_labels_distinct_witness :
  exists ir out self',
    compile MoreExamples.loops = Some (Ok ir) /\
    inline_calls (init InlinerExamples.registry) ir = Ok (out, self') /\
    NoDup (labels_defined out).
Proof.
  eexists _, _, _. split; [vm_compute; reflexivity|].
  split; [vm_compute; reflexivity|].
  refine (compiled_then_inlined_labels_distinct MoreExamples.loops
            InlinerExamples.registry _ _ _ _ _ _).
  - vm_compute. reflexivity.
  - apply map_Forall_singleton. vm_compute. reflexivity.
  - vm_compute. reflexivity.
Defined.

End EndToEnd.

(** ** Analyzer: what the type checks accept *)

Module TypeCheckFacts.
Import Ast SemanticAnalyzer Specs MoreSpecs.
Import CodeGeneratorFacts AnalyzerMoreFacts.

Lemma visit_term_top_type :
  (forall t st t' ty, _visit_term t st = Ok (t', ty) -> ty = top_type t) /\
  (forall p st p' ty, _visit_paren_term p st = Ok (p', ty) ->
                      ty = top_type (TermParen p)).
Proof.
  apply Term_mutind.
  - intros a st t' ty. simpl. intros H. ok_inv. by eapply visit_atom_numeric.
  - intros p IH st t' ty. simpl. intros H. ok_inv. by eapply IH.
  - intros op t _ st p' ty. simpl. intros H. ok_inv.
    destruct op; simpl in E0; destruct (decide _); by ok_inv.
  - intros l _ op r _ nt st p' ty. simpl. intros H. ok_inv.
    destruct op; simpl in E1; repeat destruct (decide _); by ok_inv.
Qed.

(** X20.  What the type checks accept is decided by the top operator: the
    condition of a while loop, a do-until loop or an if that passes the
    analysis is a comparison, an [and], an [or] or a [not], never an atom, a
    [neg] or an arithmetic operation; and a parenthesized term assigned to a
    variable is a [neg] or an arithmetic operation. *)
Theorem accepted_statements_by_top_operator (st : SymbolTable.SymbolTable)
    (i' : Instr) :
  (forall c b, _visit_instruction (WhileLoopNode c b) st = Ok i' ->
               top_type c = boolean) /\
  (forall b c, _visit_instruction (DoUntilLoopNode b c) st = Ok i' ->
               top_type c = boolean) /\
  (forall c t e, _visit_instruction (IfBranchNode c t e) st = Ok i' ->
                 top_type c = boolean) /\
  (forall v p, _visit_instruction (AssignmentNode v (RhsParen p)) st = Ok i' ->
               top_type (TermParen p) = numeric).
Proof.
  destruct visit_term_top_type as [Ht Hp]. split_and!.
  - intros c b. rewrite visit_while_eq. intros H. ok_inv.
    destruct (decide _) as [->|]; [|done]. symmetry. by eapply Ht.
  - intros b c. rewrite visit_do_until_eq. intros H. ok_inv.
    destruct (decide _) as [->|]; [|done]. symmetry. by eapply Ht.
  - intros c t [e|]; [rewrite visit_if_else_eq|rewrite visit_if_eq];
      intros H; ok_inv; (destruct (decide _) as [->|]; [|done]);
      symmetry; by eapply Ht.
  - intros v p. simpl. unfold _visit_assignment.
    destruct (SymbolTable.lookup _ _); [|done]. destruct (decide _); [|done].
    intros H. ok_inv. destruct (decide _) as [->|]; [|done].
    simpl in E. ok_inv. symmetry. by eapply Hp.
Qed.

Lemma accepted_statements_by_top_operator_witness :
  top_type (MoreExamples.x_gt 0) = boolean.
Proof.
  refine (proj1 (accepted_statements_by_top_operator MoreExamples.table_with_x _)
            (MoreExamples.x_gt 0) [HaltNode] _).
  vm_compute. reflexivity.
Defined.

Lemma visit_atom_is_ok a st : is_ok (_visit_atom a st) = atom_resolves st a.
Proof.
  destruct a as [v|n]; simpl; [|done].
  by destruct (SymbolTable.lookup _ _) as [info|].
Qed.

Lemma visit_input_is_ok args st :
  is_ok (_visit_input args st) = forallb (atom_resolves st) args.
Proof.
  induction args as [|a args IH]; simpl; [done|].
  rewrite <- visit_atom_is_ok, <- IH.
  destruct (_visit_atom a st) as [[a' ty]|]; simpl; [|done].
  by destruct (_visit_input args st).
Qed.

(** X21.  A function call passes the analysis exactly when its name
    resolves to an entry of kind function and each argument is a number or a
    name that resolves; likewise a procedure call with kind procedure.  The
    number of arguments plays no part. *)
Theorem call_checks_ignore_arity (st : SymbolTable.SymbolTable) (name : VarNode)
    (arguments : list AtomNode) :
  is_ok (_visit_function_call name arguments st)
  = resolves_to_kind st SymbolTable.kind_func name
    && forallb (atom_resolves st) arguments /\
  is_ok (_visit_procedure_call name arguments st)
  = resolves_to_kind st SymbolTable.kind_proc name
    && forallb (atom_resolves st) arguments.
Proof.
  unfold _visit_function_call, _visit_procedure_call, resolves_to_kind.
  destruct (SymbolTable.lookup _ _) as [info|]; [|done].
  rewrite <- visit_input_is_ok.
  split; destruct (decide _) as [Hk|Hk];
    rewrite ?(bool_decide_eq_true_2 _ Hk), ?(bool_decide_eq_false_2 _ Hk);
    try done; by destruct (_visit_input arguments st).
Qed.

End TypeCheckFacts.

(** ** Generator: loops *)

Module LoopFacts.
Import Text Ast CodeGenerator Specs MoreSpecs.
Import CodeGeneratorFacts PipelineFacts GeneratedLabels.

(** X22.  The lowering of the loops.  A while loop allocates three labels
    and emits [REM cond], the code of the condition (jumping to body),
    [REM body], the body, [GOTO cond] and [REM exit] last.  A do-until loop
    allocates two labels and emits [REM body], the body, the code that
    evaluates the condition into a place and [IF place = 0 THEN body]
    last. *)
Theorem loops_lowering (condition : TermNode) (body : list Instr)
    (self final : CodeGenerator) :
  (_visit_Instr (WhileLoopNode condition body) self = Ok final ->
   while_lowered condition body self final) /\
  (_visit_Instr (DoUntilLoopNode body condition) self = Ok final ->
   do_until_lowered body condition self final).
Proof.
  split.
  - rewrite gen_while_eq. simpl. intros H. unfold while_lowered, label_of.
    replace (_label_counter self + 1 + 1 + 1) with (_label_counter self + 3) in * by lia.
    replace (_label_counter self + 1 + 1) with (_label_counter self + 2) in * by lia.
    destruct (_generate_conditional_jump _ _ _ _ _) as [s1|?] eqn:E; [|done].
    simpl in H.
    destruct (_visit_AlgorithmNode body _) as [s2|?] eqn:E0; [|done].
    simpl in H. injection H as <-.
    destruct (proj1 jump_extends _ _ _ _ _ _ E) as [cond_code Hc].
    destruct (visit_algorithm_extends _ _ _ E0) as [body_code Hb].
    simpl in Hc, Hb.
    exists s1, s2, cond_code, body_code. split_and!; try done.
    + by rewrite Hc, <- !app_assoc.
    + by rewrite Hb, <- !app_assoc.
    + simpl. rewrite Hb, Hc. by rewrite <- !app_assoc.
  - rewrite gen_do_until_eq. simpl. intros H. unfold do_until_lowered, label_of.
    replace (_label_counter self + 1 + 1) with (_label_counter self + 2) in * by lia.
    destruct (_visit_AlgorithmNode body _) as [s1|?] eqn:E; [|done].
    simpl in H.
    destruct (_visit_TermNode condition s1) as [[place s2]|?] eqn:E0; [|done].
    simpl in H. injection H as <-.
    destruct (visit_algorithm_extends _ _ _ E) as [body_code Hb].
    destruct (proj1 visit_term_extends _ _ _ _ E0) as [cond_code Hc].
    simpl in Hb.
    exists s1, s2, place, body_code, cond_code. split_and!; try done.
    + by rewrite Hb, <- !app_assoc.
    + simpl. rewrite Hc, Hb. by rewrite <- !app_assoc.
Qed.

Lemma loops_lowering_witness :
  exists final final',
    _visit_Instr MoreExamples.while_halt Examples.fresh_generator = Ok final /\
    while_lowered Examples.x_positive [HaltNode] Examples.fresh_generator final /\
    _visit_Instr MoreExamples.do_halt Examples.fresh_generator = Ok final' /\
    do_until_lowered [HaltNode] Examples.x_positive Examples.fresh_generator final'.
Proof.
  eexists _, _. split_and!.
  - vm_compute. reflexivity.
  - refine (proj1 (loops_lowering _ _ _ _) _). vm_compute. reflexivity.
  - vm_compute. reflexivity.
  - refine (proj2 (loops_lowering _ _ _ _) _). vm_compute. reflexivity.
Defined.

End LoopFacts.

(** ** Analyzer: the table it returns *)

Module GlobalsFacts.
Import Ast SemanticAnalyzer Specs MoreSpecs SymbolTableFacts AnalyzerFacts.
Import CodeGeneratorFacts SymbolTableMore SymbolTableMoreFacts AnalyzerMoreFacts.

Lemma same_globals_refl st : same_globals st st.
Proof. done. Qed.

Lemma same_globals_trans st1 st2 st3 :
  same_globals st1 st2 -> same_globals st2 st3 -> same_globals st1 st3.
Proof. intros [? ?] [? ?]. split; congruence. Qed.

Lemma declare_globals nm k ty i self info self' :
  SymbolTable._declare nm k ty i self = Ok (info, self') ->
  length (SymbolTable._scopes self) <> 1 -> same_globals self self'.
Proof.
  unfold SymbolTable._declare.
  destruct (last _) as [curr|]; [|done]. destruct (curr !! nm); [done|].
  simpl. intros [= _ <-] Hlen. split; simpl.
  - destruct (decide _) as [[? _]|]; done.
  - destruct (decide _) as [[? _]|]; done.
Qed.

Lemma exit_scope_globals st st' :
  SymbolTable.exit_scope st = Ok st' -> same_globals st st'.
Proof.
  unfold SymbolTable.exit_scope. destruct (SymbolTable._scopes st); [done|].
  by intros [= <-].
Qed.

Section declare_each_globals.
Variable duplicate : string -> SemanticError.
Variable declare : string -> SymbolTable.SymbolTable ->
  result SymbolTable.SymbolTableError (SymbolTable.SymbolInfo * SymbolTable.SymbolTable).
Variables (k : SymbolTable.Kind) (ty : option string).
Hypothesis declare_eq : forall n st, declare n st = SymbolTable._declare n k ty 0 st.

Lemma declare_each_globals names : forall seen st st' l top,
  declare_each duplicate declare names seen st = Ok st' ->
  SymbolTable._scopes st = l ++ [top] -> l <> [] -> same_globals st st'.
Proof.
  induction names as [|n rest IH]; intros seen st st' l top; simpl.
  - by intros [= <-].
  - destruct (decide (n ∈ seen)); [done|]. rewrite declare_eq.
    destruct (SymbolTable._declare n k ty 0 st) as [[info st1]|e1] eqn:Hd; [|done].
    simpl. intros H Hs Hl.
    pose proof (declare_globals _ _ _ _ _ _ _ Hd) as Hg.
    apply declare_scopes in Hd as (l' & curr & Hs1 & _ & Hs' & _).
    rewrite Hs in Hs1. apply app_inj_tail in Hs1 as [<- <-].
    eapply same_globals_trans; [|by eapply IH].
    apply Hg. rewrite Hs, length_app. simpl. destruct l; [done|]. simpl. lia.
Qed.

End declare_each_globals.

Lemma visit_body_globals locals alg param_names st alg' st1 l top :
  _visit_body locals alg param_names st = Ok (alg', st1) ->
  SymbolTable._scopes st = l ++ [top] -> l <> [] -> same_globals st st1.
Proof.
  unfold _visit_body. intros H Hs Hl. ok_inv.
  by eapply declare_each_globals in E.
Qed.

Lemma visit_procedure_def_globals d st d' st' :
  _visit_procedure_def d st = Ok (d', st') ->
  SymbolTable._scopes st <> [] -> same_globals st st'.
Proof.
  unfold _visit_procedure_def. intros H Hne. ok_inv.
  apply visit_parameters_inv in E as [-> E].
  pose proof E as E'.
  eapply declare_each_scopes in E' as (top1 & Hs1 & _); [|done..].
  eapply declare_each_globals in E; [|done..].
  eapply visit_body_globals in E0; [|done..].
  destruct (SymbolTable.exit_scope _) as [st''|] eqn:He; [|done].
  injection E1 as <-. apply exit_scope_globals in He.
  destruct E as [? ?], E0 as [? ?], He as [? ?]. split; simpl in *; congruence.
Qed.

Lemma visit_function_def_globals d st d' st' :
  _visit_function_def d st = Ok (d', st') ->
  SymbolTable._scopes st <> [] -> same_globals st st'.
Proof.
  unfold _visit_function_def. intros H Hne. ok_inv.
  destruct (decide _); [|done]. ok_inv.
  apply visit_parameters_inv in E as [-> E].
  pose proof E as E'.
  eapply declare_each_scopes in E' as (top1 & Hs1 & _); [|done..].
  eapply declare_each_globals in E; [|done..].
  eapply visit_body_globals in E0; [|done..].
  destruct (SymbolTable.exit_scope _) as [st''|] eqn:He; [|done].
  injection E2 as <-. apply exit_scope_globals in He.
  destruct E as [? ?], E0 as [? ?], He as [? ?]. split; simpl in *; congruence.
Qed.

Lemma visit_procedure_defs_globals ds : forall st ds' st',
  _visit_procedure_defs ds st = Ok (ds', st') ->
  SymbolTable._scopes st <> [] -> same_globals st st'.
Proof.
  induction ds as [|d ds IH]; simpl; intros st ds' st' H Hne; ok_inv; [done|].
  pose proof (visit_procedure_def_ok _ _ _ _ E) as (Hs & _).
  apply visit_procedure_def_globals in E; [|done].
  eapply same_globals_trans; [exact E|]. eapply IH; [done|]. by rewrite Hs.
Qed.

Lemma visit_function_defs_globals ds : forall st ds' st',
  _visit_function_defs ds st = Ok (ds', st') ->
  SymbolTable._scopes st <> [] -> same_globals st st'.
Proof.
  induction ds as [|d ds IH]; simpl; intros st ds' st' H Hne; ok_inv; [done|].
  pose proof (visit_function_def_ok _ _ _ _ E) as (Hs & _).
  apply visit_function_def_globals in E; [|done].
  eapply same_globals_trans; [exact E|]. eapply IH; [done|]. by rewrite Hs.
Qed.

Lemma visit_main_prog_globals m st m' st' :
  _visit_main_prog m st = Ok (m', st') ->
  SymbolTable._scopes st <> [] -> same_globals st st'.
Proof.
  unfold _visit_main_prog, _visit_variable_decls. intros H Hne. ok_inv.
  eapply declare_each_globals in E; [|done..].
  destruct (SymbolTable.exit_scope _) as [st''|] eqn:He; [|done].
  injection E1 as <-. apply exit_scope_globals in He.
  destruct E as [? ?], He as [? ?]. split; simpl in *; congruence.
Qed.

Lemma global_phase_globals p st st' :
  global_phase p st = Ok st' -> same_globals st st'.
Proof.
  unfold global_phase, _visit_variable_decls, _declare_procedures, _declare_functions.
  intros H. ok_inv.
  set (st0 := if bool_decide (SymbolTable.current_scope_level st = 0)
              then SymbolTable.enter_scope "Global" 0 st else st) in *.
  assert (H0 : SymbolTable._scopes st0 <> [] /\ same_globals st st0).
  { unfold st0. destruct (bool_decide_reflect (SymbolTable.current_scope_level st = 0))
      as [|Hne]; [split; [apply enter_scope_nonempty|done]|].
    split; [|done]. unfold SymbolTable.current_scope_level in Hne.
    by destruct (SymbolTable._scopes st). }
  destruct H0 as [Hne0 Hg0].
  pose proof E as Ea. pose proof E0 as Eb.
  eapply declare_each_scopes in Ea as (top1 & Hs1 & _); [|done..].
  eapply declare_each_scopes in Eb as (top2 & Hs2 & _); [|done..].
  eapply declare_each_globals in E; [|done..].
  eapply declare_each_globals in E0; [|done..].
  eapply declare_each_globals in E1; [|done..].
  destruct Hg0 as [? ?], E as [? ?], E0 as [? ?], E1 as [? ?].
  split; simpl in *; congruence.
Qed.

Lemma analyze_globals p p' st :
  analyze p = Ok (p', st) ->
  SymbolTable._global_procs st = ∅ /\ SymbolTable._global_funcs st = ∅.
Proof.
  unfold analyze, _visit_program. intros H. ok_inv.
  pose proof (global_phase_ok _ _ _ E) as (top & Hs & _).
  pose proof (visit_procedure_defs_ok _ _ _ _ E0) as (Hs0 & _).
  pose proof (visit_function_defs_ok _ _ _ _ E1) as (Hs1 & _).
  apply global_phase_globals in E.
  apply visit_procedure_defs_globals in E0; [|rewrite Hs; apply snoc_ne].
  apply visit_function_defs_globals in E1; [|rewrite Hs0, Hs; apply snoc_ne].
  apply visit_main_prog_globals in E2; [|rewrite Hs1, Hs0, Hs; apply snoc_ne].
  destruct (SymbolTable.exit_scope _) as [st''|] eqn:He; [|done].
  injection E3 as <-. apply exit_scope_globals in He.
  destruct E as [? ?], E0 as [? ?], E1 as [? ?], E2 as [? ?], He as [? ?].
  split; simpl in *; congruence.
Qed.

(** X23.  The table a successful [analyze] returns has one scope left, the
    outer of the two global scopes [_visit_program] enters, and it is empty:
    no name resolves in it, and the dictionaries of global procedures and
    functions are empty too (the declarations were made at level 2). *)
Theorem analyzed_table_resolves_nothing (p p' : ProgramNode)
    (st : SymbolTable.SymbolTable) :
  analyze p = Ok (p', st) ->
  SymbolTable.current_scope_level st = 1 /\
  get_scope_snapshot st = [∅] /\
  SymbolTable._global_procs st = ∅ /\
  SymbolTable._global_funcs st = ∅ /\
  forall n, SymbolTable.lookup n st = None /\
            assert_exists n st = Raise (SymbolTable.NotDeclared n).
Proof.
  intros H. destruct (analyze_globals _ _ _ H) as [Hp Hf].
  apply analyze_ok in H as [Hs _].
  unfold SymbolTable.current_scope_level, get_scope_snapshot, assert_exists,
    SymbolTable.lookup.
  rewrite Hs. split_and!; try done.
Qed.

Lemma analyzed_table_resolves_nothing_witness :
  exists p' st,
    analyze MoreExamples.loops = Ok (p', st) /\
    SymbolTable.lookup "x" st = None.
Proof.
  eexists _, _. split; [vm_compute; reflexivity|].
  refine (proj1 (proj2 (proj2 (proj2 (proj2
    (analyzed_table_resolves_nothing MoreExamples.loops _ _ _)))) "x")).
  vm_compute. reflexivity.
Defined.

End GlobalsFacts.
Module LookupFacts.
Import Text SymbolTable SymbolTableMore Specs SymbolTableFacts SymbolTableMoreFacts.

Lemma lookup_scan_innermost n : forall (scopes : list (gmap string SymbolInfo)) info,
  lookup_scan n (reverse scopes) = Some info <->
  exists i scope,
    scopes !! i = Some scope /\ scope !! n = Some info /\
    forall j scope', i < j -> scopes !! j = Some scope' -> scope' !! n = None.
Proof.
  induction scopes as [|top scopes IH] using rev_ind; intros info.
  { simpl. split; [done|]. by intros (i & scope & H & _). }
  rewrite lookup_snoc. destruct (top !! n) as [i0|] eqn:Ht.
  - split.
    + intros [= <-]. exists (length scopes), top. split_and!; [|done|].
      * by rewrite lookup_app_r, Nat.sub_diag.
      * intros j scope' Hj Hl. apply lookup_lt_Some in Hl.
        rewrite length_app in Hl. simpl in Hl. lia.
    + intros (i & scope & Hi & Hn & Hout).
      destruct (decide (i = length scopes)) as [->|Hne].
      * rewrite lookup_app_r, Nat.sub_diag in Hi by done. simpl in Hi. congruence.
      * assert (Hlt : i < length scopes).
        { apply lookup_lt_Some in Hi. rewrite length_app in Hi. simpl in Hi. lia. }
        specialize (Hout (length scopes) top Hlt).
        rewrite lookup_app_r, Nat.sub_diag in Hout by done.
        specialize (Hout eq_refl). congruence.
  - rewrite IH. split.
    + intros (i & scope & Hi & Hn & Hout). exists i, scope. split_and!; [|done|].
      * by apply lookup_app_l_Some.
      * intros j scope' Hj Hl.
        destruct (decide (j = length scopes)) as [->|Hne].
        -- rewrite lookup_app_r, Nat.sub_diag in Hl by done. simpl in Hl. congruence.
        -- apply (Hout j); [done|].
           apply lookup_lt_Some in Hl as Hlen. rewrite length_app in Hlen.
           simpl in Hlen. rewrite lookup_app_l in Hl by lia. done.
    + intros (i & scope & Hi & Hn & Hout).
      assert (Hlt : i < length scopes).
      { destruct (decide (i = length scopes)) as [->|Hne].
        - rewrite lookup_app_r, Nat.sub_diag in Hi by done. simpl in Hi. congruence.
        - apply lookup_lt_Some in Hi. rewrite length_app in Hi. simpl in Hi. lia. }
      rewrite lookup_app_l in Hi by done. exists i, scope. split_and!; [done..|].
      intros j scope' Hj Hl. apply (Hout j); [done|]. by apply lookup_app_l_Some.
Qed.

(** X24.  Static scoping: [lookup] returns the entry of the innermost scope
    that holds the name (no scope entered later holds it), and [None]
    exactly when no scope holds it. *)
Theorem lookup_innermost (n : string) (self : SymbolTable) :
  (forall info,
     lookup n self = Some info <->
     exists i scope,
       _scopes self !! i = Some scope /\ scope !! n = Some info /\
       forall j scope', i < j -> _scopes self !! j = Some scope' ->
                        scope' !! n = None) /\
  (lookup n self = None <->
   forall scope, scope ∈ _scopes self -> scope !! n = None).
Proof.
  split; [intros info; apply lookup_scan_innermost|].
  unfold lookup. split.
  - intros H scope Hin. destruct (scope !! n) as [info|] eqn:Hs; [|done].
    exfalso. revert H. generalize (_scopes self) scope Hin Hs. clear.
    intros scopes. induction scopes as [|top scopes IH] using rev_ind;
      intros scope Hin Hs.
    { by apply elem_of_nil in Hin. }
    rewrite lookup_snoc. destruct (top !! n) eqn:Ht; [done|].
    apply elem_of_app in Hin as [Hin|Hin]; [by eapply IH|].
    apply list_elem_of_singleton in Hin as ->. congruence.
  - intros H. destruct (lookup_scan n _) as [info|] eqn:Hl; [|done].
    apply lookup_scan_Some in Hl as (scope & Hin & Hs).
    rewrite elem_of_reverse in Hin. rewrite (H scope Hin) in Hs. done.
Qed.

End LookupFacts.

(** ** Inliner: one pass is enough *)

Module InlinerOnePass.
Import Text TextFacts Inliner Specs MoreSpecs InlinerFacts InlinerMoreFacts.

Lemma span_inv p : forall s a b,
  span p s = (a, b) -> s = a +:+ b /\ all_chars p a = true.
Proof.
  induction s as [|c s IH]; intros a b; simpl.
  - by intros [= <- <-].
  - destruct (p c) eqn:Hc; [|by intros [= <- <-]].
    destruct (span p s) as [a' b'] eqn:E. intros [= <- <-].
    destruct (IH _ _ eq_refl) as [-> Ha]. split; [done|]. simpl. by rewrite Hc.
Qed.

Lemma call_pattern_full line target callee args :
  call_pattern line = Some (target, callee, args) ->
  chomp line = target +:+ " = CALL " +:+ callee +:+ "(" +:+ args +:+ ")".
Proof.
  unfold call_pattern. destruct (span is_word (chomp line)) as [w r1] eqn:E1.
  destruct (is_place w); [|done].
  destruct (strip_prefix " = CALL " r1) as [r2|] eqn:E2; [|done].
  destruct (span is_word r2) as [f r3] eqn:E3. destruct (is_unique_name f); [|done].
  destruct r3 as [|c r4]; [done|]. destruct (Ascii.eqb_spec c "("); [|done].
  destruct (span _ r4) as [a r5] eqn:E4. destruct (String.eqb_spec r5 ")"); [|done].
  intros [= <- <- <-]. subst.
  apply span_inv in E1 as [-> _]. apply strip_prefix_Some in E2 as ->.
  apply span_inv in E3 as [-> _]. apply span_inv in E4 as [-> _].
  done.
Qed.

Lemma all_chars_chomp p s : all_chars p s = true -> all_chars p (chomp s) = true.
Proof.
  destruct (chomp_prefix s) as [t Ht]. rewrite Ht at 1. rewrite all_chars_app.
  by intros [? _]%andb_prop.
Qed.

(** A line without a closing parenthesis is not a call. *)
Lemma no_paren_not_call line :
  all_chars (not_char ")") line = true -> call_pattern line = None.
Proof.
  intros H%all_chars_chomp. destruct (call_pattern line) as [[[t f] a]|] eqn:E; [|done].
  apply call_pattern_full in E. rewrite E, !all_chars_app in H.
  simpl in H. by rewrite !andb_false_r in H.
Qed.

(** A call begins with the first letter of a place. *)
Lemma call_first_char line x :
  call_pattern line = Some x ->
  exists r, line = String "t" r \/ line = String "v" r.
Proof.
  destruct x as [[t f] a]. intros H.
  pose proof (call_pattern_inv _ _ _ _ H) as Hp. apply call_pattern_full in H.
  destruct (chomp_prefix line) as [rest Hl]. rewrite H in Hl.
  unfold is_place in Hp. apply orb_prop in Hp as [Ht|Hv].
  - destruct t as [|c d]; [done|]. simpl in Ht. apply andb_prop in Ht as [Hc _].
    apply Ascii.eqb_eq in Hc as ->. eexists. left. exact Hl.
  - unfold is_unique_name in Hv.
    destruct (strip_prefix "v_" t) as [r|] eqn:E; [|done].
    apply strip_prefix_Some in E as ->. eexists. right. exact Hl.
Qed.

Lemma word_no_paren c : is_word c = true -> not_char ")" c = true.
Proof.
  unfold not_char. destruct (Ascii.eqb_spec c ")") as [->|]; [|done].
  vm_compute. done.
Qed.

Lemma place_no_paren s : is_place s = true -> all_chars (not_char ")") s = true.
Proof.
  intros [_ H]%is_place_word. eapply all_chars_impl; [apply word_no_paren|done].
Qed.

Lemma all_chars_lstrip p s : all_chars p s = true -> all_chars p (lstrip s) = true.
Proof.
  induction s as [|c s IH]; [done|]. simpl. intros [Hc Hs]%andb_prop.
  destruct (is_space c); [by apply IH|]. simpl. by rewrite Hc, Hs.
Qed.

Lemma all_chars_rstrip p s : all_chars p s = true -> all_chars p (rstrip s) = true.
Proof.
  induction s as [|c s IH]; [done|]. simpl. intros [Hc Hs]%andb_prop.
  specialize (IH Hs). destruct (rstrip s) as [|d r].
  - destruct (is_space c); [done|]. simpl. by rewrite Hc.
  - change (all_chars p (String c (String d r)))
      with (p c && all_chars p (String d r)). by rewrite Hc, IH.
Qed.

Lemma all_chars_split_on p sep : forall s,
  all_chars p s = true -> Forall (fun w => all_chars p w = true) (split_on sep s).
Proof.
  induction s as [|c s IH]; simpl; [by repeat constructor|].
  intros [Hc Hs]%andb_prop. specialize (IH Hs).
  destruct (Ascii.eqb c sep); [by constructor|].
  destruct (split_on sep s) as [|w ws]; [by repeat constructor; simpl; rewrite Hc|].
  apply Forall_cons in IH as [Hw Hws]. constructor; [|done]. simpl. by rewrite Hc, Hw.
Qed.

Lemma call_args_no_paren line target callee args :
  call_pattern line = Some (target, callee, args) ->
  Forall (fun a => all_chars (not_char ")") a = true) (parse_call_args args).
Proof.
  intros H.
  assert (Ha : all_chars (not_char ")") args = true).
  { unfold call_pattern in H. destruct (span is_word (chomp line)) as [w r1].
    destruct (is_place w); [|done].
    destruct (strip_prefix " = CALL " r1) as [r2|]; [|done].
    destruct (span is_word r2) as [f r3]. destruct (is_unique_name f); [|done].
    destruct r3 as [|c r4]; [done|]. destruct (Ascii.eqb c "("); [|done].
    destruct (span _ r4) as [a r5] eqn:E4. destruct (String.eqb r5 ")"); [|done].
    injection H as _ _ <-. by apply span_inv in E4 as [_ ?]. }
  unfold parse_call_args. apply Forall_forall. intros a Hin.
  apply list_elem_of_filter in Hin as [_ Hin].
  apply list_elem_of_In, in_map_iff in Hin as (w & <- & Hw).
  apply all_chars_rstrip, all_chars_lstrip.
  pose proof (all_chars_split_on (not_char ")") "," args Ha) as Hall.
  rewrite Forall_forall in Hall. apply Hall. by apply list_elem_of_In.
Qed.

Section one_pass.
Variable fb : gmap string FunctionBodyInfo.
Hypothesis fb_call_free : call_free_registry fb.

Lemma binds_copied ps argl :
  forallb is_unique_name ps = true ->
  Forall (fun a => all_chars (not_char ")") a = true) argl ->
  Forall (copied fb) (param_assignments ps argl).
Proof.
  revert argl. induction ps as [|p ps IH]; intros argl Hps Hargs; [constructor|].
  destruct argl as [|a argl]; [constructor|].
  simpl in Hps. apply andb_prop in Hps as [Hp Hps].
  apply Forall_cons in Hargs as [Ha Hargs].
  constructor; [|by apply IH].
  unfold copied. rewrite no_paren_not_call; [done|].
  rewrite !all_chars_app, Ha. simpl.
  rewrite place_no_paren; [done|]. unfold is_place. by rewrite Hp, orb_true_r.
Qed.

Lemma relabelled_copied body k line :
  line ∈ body -> copied fb line ->
  copied fb (relabel_line (collect_labels body k ∅) line).
Proof.
  intros Hin Hc.
  destruct (relabel_line_cases body k line Hin)
    as [(l & Hl & ->)|[(cp & lab & Hcp & Hne & Hnl & ->)|(-> & _ & _)]]; [| |done].
  - unfold copied. destruct (call_pattern _) as [x|] eqn:E; [|done].
    apply call_first_char in E as (r & [E|E]); discriminate.
  - unfold copied. destruct (call_pattern _) as [x|] eqn:E; [|done].
    apply call_first_char in E as (r & E).
    destruct Hcp as [->|Hif].
    + destruct E; discriminate.
    + unfold is_if_then in Hif.
      destruct (strip_prefix "IF " cp) as [r'|] eqn:E'; [|done].
      apply strip_prefix_Some in E' as ->. destruct E; discriminate.
Qed.

Lemma adapt_lines_copied ls rt :
  place_or_none rt -> Forall (copied fb) ls -> Forall (copied fb) (adapt_lines ls rt).
Proof.
  intros Hrt. induction 1 as [|x ls Hx _ IH]; [constructor|].
  rewrite adapt_lines_cons.
  destruct (return_pattern x) as [place|] eqn:Hr; [|by constructor].
  destruct (truthy rt) as [target|] eqn:Ht; [|done].
  constructor; [|done]. unfold copied. rewrite no_paren_not_call; [done|].
  apply return_pattern_inv in Hr as [Hp _].
  assert (Htp : is_place target = true).
  { destruct rt as [[|c d]|]; try done. simpl in Ht. injection Ht as <-. exact Hrt. }
  rewrite !all_chars_app, (place_no_paren target), (place_no_paren place) by done.
  reflexivity.
Qed.

Lemma adapted_body_copied info rt k f :
  fb !! f = Some info -> place_or_none rt ->
  Forall (copied fb) (_adapt_body (body_ir info) rt k).
Proof.
  intros Hf Hrt. destruct (fb_call_free f info Hf) as [_ Hbody].
  apply adapt_lines_copied; [done|]. unfold _make_labels_unique.
  apply Forall_forall. intros y Hy.
  apply list_elem_of_In, in_map_iff in Hy as (line & <- & Hin).
  apply relabelled_copied; [by apply list_elem_of_In|].
  apply inlinable_false. rewrite forallb_forall in Hbody.
  by apply negb_true_iff, Hbody.
Qed.

Lemma inline_from_output_copied n : forall ir c out c',
  length ir <= n -> inline_from fb ir c = Ok (out, c') -> Forall (copied fb) out.
Proof.
  induction n as [|n IH]; intros ir c out c' Hlen.
  { destruct ir; [|simpl in Hlen; lia]. intros [= <- _]. constructor. }
  destruct ir as [|x rest]; [intros [= <- _]; constructor|]. simpl in Hlen.
  destruct (inlinable fb x) eqn:Hx.
  - apply inlinable_true in Hx as (t & f & a & info & Hc & Hf).
    rewrite (inline_from_call _ _ _ _ _ _ _ _ Hc Hf).
    destruct (return_target_of _ _ _) as [rt skip] eqn:Hrt.
    destruct (decide _); [|done].
    destruct (inline_from fb _ (c + 1)) as [[o1 c1]|] eqn:Hi; [|done].
    intros [= <- _].
    apply IH in Hi; [|destruct skip, rest; simpl in *; lia].
    rewrite !Forall_app. split_and!; [|by eapply adapted_body_copied;
      [|eapply return_target_is_place]|done].
    apply binds_copied; [by destruct (fb_call_free f info Hf)|].
    by eapply call_args_no_paren.
  - rewrite inline_from_copy by (by apply inlinable_false).
    destruct (inline_from fb rest c) as [[o1 c1]|] eqn:Hi; [|done].
    intros [= <- _]. constructor; [by apply inlinable_false|].
    eapply IH; [|done]. lia.
Qed.

End one_pass.

(** X25.  When no body of the registry calls a registered function and the
    parameters are unique names, one pass is enough: the output of
    [inline_calls] holds no call of a registered function, and running the
    inliner again on it returns it unchanged with the counter where it
    was. *)
Theorem one_pass_removes_every_call (self self' : Inliner) (ir out : list string) :
  call_free_registry (function_bodies self) ->
  inline_calls self ir = Ok (out, self') ->
  forallb (fun line => negb (inlinable (function_bodies self) line)) out = true /\
  inline_calls self' out = Ok (out, self').
Proof.
  intros Hfb. unfold inline_calls at 1.
  destruct (inline_from _ ir _) as [[o c]|] eqn:Hi; [|done].
  intros [= <- <-].
  pose proof (inline_from_output_copied _ Hfb _ _ _ _ _ (le_n _) Hi) as Hall.
  split.
  - apply forallb_forall. intros line Hin. apply negb_true_iff, inlinable_false.
    rewrite Forall_forall in Hall. by apply Hall, list_elem_of_In.
  - unfold inline_calls. simpl. by rewrite inline_copied.
Qed.

Lemma one_pass_removes_every_call_witness :
  exists out self',
    inline_calls (init InlinerExamples.registry) MoreExamples.two_calls
      = Ok (out, self') /\
    inline_calls self' out = Ok (out, self').
Proof.
  eexists _, _. split; [vm_compute; reflexivity|].
  refine (proj2 (one_pass_removes_every_call (init InlinerExamples.registry) _
                   MoreExamples.two_calls _ _ _)).
  - apply map_Forall_singleton. split; vm_compute; reflexivity.
  - vm_compute. reflexivity.
Defined.

End InlinerOnePass.

(** ** Generator: the labels of an if-else *)

Module IfElseFacts.
Import Text TextFacts Ast CodeGenerator Specs MoreSpecs Pipeline.
Import CodeGeneratorFacts PipelineFacts InlinerFacts GeneratedLabels.

(** The lines appended for an if-else define then, exit and the labels
    allocated after them, and not the second label. *)
Lemma if_else_defines (condition : TermNode) (then_branch else_body : list Instr)
    (self final : CodeGenerator) :
  forallb targets_named then_branch = true ->
  forallb targets_named else_body = true ->
  _visit_Instr (IfBranchNode condition then_branch (Some else_body)) self = Ok final ->
  exists out, ir_code final = ir_code self ++ out /\
              label_of (_label_counter self + 2) ∉ labels_defined out.
Proof.
  intros Ht He H.
  rewrite gen_if_else_eq in H. simpl in H. ok_inv.
  apply (proj1 jump_fresh) in E. apply visit_algorithm_fresh in E0; [|done].
  apply visit_algorithm_fresh in E1; [|done].
  fresh_inv.
  match goal with |- context [ir_code ?g = _] =>
    assert (Happ : exists ks' gs', appends_labels self g ks' gs' /\
                                   _label_counter self + 2 ∉ ks')
  end.
  { eexists _, _. split; [chain|].
    intros Hin. split_elem; range_facts; simpl in *; lia. }
  destruct Happ as (ks' & gs' & (_ & out & Hi & Hl & _) & Hnot).
  exists out. split; [done|]. rewrite Hl. intros Hin.
  apply list_elem_of_fmap in Hin as (k & Hk%label_of_inj & Hin). by subst k.
Qed.

(** C3, as the code has it.  Lowering [If(cond, thenBody, elseBody)] from
    a label counter [n] allocates three labels, [L<n+1>] (then), [L<n+2>]
    (else) and [L<n+3>] (exit); the condition jump is generated with
    [L<n+2>] as its false target; the lines appended are the code of the
    condition, the else body, [GOTO L<n+3>], [REM L<n+1>], the then body
    and [REM L<n+3>]; and none of them defines [L<n+2>], the label a false
    condition jumps to. *)
Theorem if_else_label_never_defined (condition : TermNode)
    (then_branch else_body : list Instr) (self final : CodeGenerator) :
  forallb targets_named then_branch = true ->
  forallb targets_named else_body = true ->
  _visit_Instr (IfBranchNode condition then_branch (Some else_body)) self = Ok final ->
  if_else_lowered 3 2 condition then_branch else_body self final /\
  exists out, ir_code final = ir_code self ++ out /\
              label_of (_label_counter self + 2) ∉ labels_defined out.
Proof.
  intros Ht He H. split; [by apply if_else_lowering|].
  exact (if_else_defines _ _ _ _ _ Ht He H).
Qed.

(** At [if (not (x > 0)) { halt } else { print x }]: the analysis accepts
    the program, the generated IR jumps to [L2] when [x > 0], and no line
    defines [L2]. *)
Lemma if_else_label_never_defined_witness :
  compile Examples.if_not_else = Some (Ok Examples.if_not_else_lines) /\
  _visit_Instr Examples.if_not_else_analyzed Examples.fresh_generator
  = Ok Examples.if_not_else_final /\
  "IF v_x_1 > t1 THEN L2" ∈ Examples.if_not_else_lines /\
  exists out,
    Examples.if_not_else_lines = [] ++ out /\
    label_of (0 + 2) ∉ labels_defined out.
Proof.
  split_and!; [vm_compute; reflexivity..|by apply (list_elem_of_lookup_2 _ 1)|].
  refine (proj2 (if_else_label_never_defined
                   (TermParen (UnaryOperationNode op_not Examples.x_positive))
                   [HaltNode] [PrintNode (inl (AtomVar Examples.resolved_x))]
                   Examples.fresh_generator Examples.if_not_else_final _ _ _));
    [| |vm_compute; reflexivity]; vm_compute; reflexivity.
Defined.

End IfElseFacts.

(** ** Inliner: the copies of a body *)

Module InlinerCopies.
Import Text TextFacts Inliner Specs MoreSpecs InlinerFacts InlinerMoreFacts.

Lemma body_labels_spec body l :
  l ∈ body_labels body <->
  exists line, line ∈ body /\ rem_label_pattern line = Some l.
Proof. unfold body_labels. apply list_elem_of_omap. Qed.

(** The dictionary of the first pass holds exactly the labels of the body,
    each with its suffixed form. *)
Lemma collect_lookup body k l :
  collect_labels body k ∅ !! l
  = if bool_decide (l ∈ body_labels body) then Some (suffixed l k) else None.
Proof.
  case_bool_decide as H.
  - apply body_labels_spec in H as (line & Hin & Hm). by eapply collect_defined.
  - rewrite collect_undefined, lookup_empty; [done|].
    intros line Hin Hm. apply H, body_labels_spec. by exists line.
Qed.

(** One line through both steps of [_adapt_body]. *)
Lemma adapt_relabelled_line body k dest line rest :
  line ∈ body -> dest <> Some "" ->
  adapt_lines (relabel_line (collect_labels body k ∅) line :: rest) dest
  = match copy_line body k dest line with
    | Some line' => line' :: adapt_lines rest dest
    | None => adapt_lines rest dest
    end.
Proof.
  intros Hin Hd. rewrite adapt_lines_cons. unfold relabel_line, copy_line.
  destruct (rem_label_pattern line) as [l|] eqn:Hr.
  { rewrite (collect_defined _ _ _ _ _ Hin Hr) by done.
    cbn [default from_option id]. by rewrite return_pattern_rem. }
  destruct (jump_pattern line) as [[cmd l]|] eqn:Hj.
  { rewrite collect_lookup.
    apply jump_pattern_inv in Hj as (_ & _ & Hcmd).
    by case_bool_decide; cbn [default from_option id];
      rewrite jump_line_not_return. }
  destruct (return_pattern line) as [p|]; [|done].
  by destruct dest as [[|c d]|].
Qed.

Lemma adapt_body_copy body k dest :
  dest <> Some "" ->
  _adapt_body body dest k = omap (copy_line body k dest) body.
Proof.
  intros Hd. unfold _adapt_body, _make_labels_unique.
  assert (H : forall ir, (forall line, line ∈ ir -> line ∈ body) ->
            adapt_lines (map (relabel_line (collect_labels body k ∅)) ir) dest
            = omap (copy_line body k dest) ir); [|by apply H].
  induction ir as [|line ir IH]; intros Hsub; [done|].
  change (map ?f (line :: ir)) with (f line :: map f ir).
  rewrite adapt_relabelled_line; [|apply Hsub; by left|done].
  rewrite IH by (intros x Hx; apply Hsub; by right).
  simpl. by destruct (copy_line body k dest line).
Qed.

Lemma copy_line_is_Some body k dest line :
  (dest = None -> return_pattern line = None) ->
  is_Some (copy_line body k dest line).
Proof.
  intros H. unfold copy_line.
  destruct (rem_label_pattern line); [done|].
  destruct (jump_pattern line) as [[cmd l]|]; [done|].
  destruct (return_pattern line); [|done].
  destruct dest; [done|]. by specialize (H eq_refl).
Qed.

(** When no line is left out, the adapted body is the copy, line for
    line. *)
Lemma adapt_body_copy_of body k dest :
  dest <> Some "" ->
  (dest = None -> forall line, line ∈ body -> return_pattern line = None) ->
  copy_of body k dest (_adapt_body body dest k).
Proof.
  intros Hd Hret. rewrite adapt_body_copy by done. unfold copy_of.
  assert (H : forall ir, (forall line, line ∈ ir -> line ∈ body) ->
            Forall2 (fun line line' => copy_line body k dest line = Some line')
              ir (omap (copy_line body k dest) ir)); [|by apply H].
  induction ir as [|line ir IH]; intros Hsub; [constructor|].
  destruct (copy_line_is_Some body k dest line) as [y Hy].
  { intros ->. apply Hret; [done|]. apply Hsub. by left. }
  simpl. rewrite Hy. constructor; [done|].
  apply IH. intros x Hx. apply Hsub. by right.
Qed.

(** The destination [inline_calls] computes is a place, and it is missing
    only for a body without RETURN. *)
Lemma return_target_of_dest info instruction target callee args next rt skip :
  call_pattern instruction = Some (target, callee, args) ->
  return_target_of info target next = (rt, skip) ->
  rt <> Some "" /\
  (rt = None -> forall line, line ∈ body_ir info -> return_pattern line = None).
Proof.
  intros Hc Hrt. split.
  - pose proof (return_target_is_place _ _ _ _ _ _ _ _ Hc Hrt) as Hp.
    intros ->. simpl in Hp. done.
  - intros ->. apply no_return_lines. unfold return_target_of in Hrt.
    destruct (has_return (body_ir info)); [|done].
    destruct next as [line|]; [|done].
    destruct (assignment_pattern line) as [[final t]|]; [|done].
    by destruct (String.eqb t target).
Qed.

Lemma adapted_copy_of info instruction target callee args next rt skip k :
  call_pattern instruction = Some (target, callee, args) ->
  return_target_of info target next = (rt, skip) ->
  copy_of (body_ir info) k rt (_adapt_body (body_ir info) rt k).
Proof.
  intros Hc Hrt.
  destruct (return_target_of_dest _ _ _ _ _ _ _ _ Hc Hrt) as [Hd Hn].
  by apply adapt_body_copy_of.
Qed.

Lemma copy_line_return body k dest place :
  is_place place = true ->
  copy_line body k (Some dest) ("RETURN " +:+ place) = Some (dest +:+ " = " +:+ place).
Proof.
  intros Hp. destruct (is_place_word _ Hp) as [Hne Hw].
  assert (Hnl : all_chars no_newline place = true)
    by (by eapply all_chars_impl; [apply word_no_newline|]).
  unfold copy_line, rem_label_pattern, jump_pattern.
  rewrite chomp_app by done. simpl strip_prefix.
  change ("RETURN " +:+ place) with ("RETURN" +:+ String " " place).
  rewrite split_last_app by (by eapply all_chars_impl; [apply word_no_space|]).
  rewrite andb_false_r.
  change ("RETURN" +:+ String " " place) with ("RETURN " +:+ place).
  by rewrite return_pattern_exact.
Qed.

Lemma call_replaced_intro fb instruction target callee args_str info rest0 rest c rt skip :
  call_pattern instruction = Some (target, callee, args_str) ->
  fb !! callee = Some info ->
  length (parse_call_args args_str) = length (params info) ->
  return_target_of info target (head rest0) = (rt, skip) ->
  (if skip then tail rest0 else rest0) = rest ->
  call_replaced fb (instruction :: rest0) c
    (param_assignments (params info) (parse_call_args args_str)) (body_ir info) rt rest.
Proof.
  intros Hc Hf Hlen Hrt Hrest. exists (_adapt_body (body_ir info) rt (c + 1)).
  assert (Heq : inline_from fb (instruction :: rest0) c
    = '(out, c') ← inline_from fb rest (c + 1);
      Ok (param_assignments (params info) (parse_call_args args_str)
          ++ _adapt_body (body_ir info) rt (c + 1) ++ out, c')).
  { rewrite (inline_from_call _ _ _ _ _ _ _ _ Hc Hf), Hrt, Hrest.
    by rewrite decide_True. }
  split_and!; [by eapply adapted_copy_of|done|].
  intros Hcp. by rewrite Heq, inline_copied.
Qed.

(** C6, amended.  At a call of a function (its body has a RETURN) with the
    right number of arguments:
    - when the call's target is a temporary and the next instruction is
      [<finalVar> = <target>] with a unique name as [<finalVar>], that
      instruction is left out and the body copy returns into [<finalVar>];
    - when the next instruction does not match the copy pattern with the
      call's target as its source, the body copy returns into the call's
      target and the pass goes on with the next instruction;
    - in a body copy that returns into [dest], the line that stands for a
      line [RETURN <place>] of the body whose place is a temporary or a
      unique name is [<dest> = <place>]. *)
Theorem call_result_copy_collapsed (fb : gmap string FunctionBodyInfo)
    (instruction target callee args_str : string) (info : FunctionBodyInfo)
    (rest : list string) (c : nat) :
  call_pattern instruction = Some (target, callee, args_str) ->
  fb !! callee = Some info ->
  has_return (body_ir info) = true ->
  length (parse_call_args args_str) = length (params info) ->
  let binds := param_assignments (params info) (parse_call_args args_str) in
  (forall final,
      is_unique_name final = true -> is_temp target = true ->
      call_replaced fb (instruction :: (final +:+ " = " +:+ target) :: rest) c
        binds (body_ir info) (Some final) rest) /\
  ((forall next final, head rest = Some next ->
                       assignment_pattern next <> Some (final, target)) ->
   call_replaced fb (instruction :: rest) c binds (body_ir info) (Some target) rest) /\
  (forall k dest copy i place,
      copy_of (body_ir info) k (Some dest) copy ->
      is_place place = true ->
      body_ir info !! i = Some ("RETURN " +:+ place) ->
      copy !! i = Some (dest +:+ " = " +:+ place)).
Proof.
  intros Hc Hf Hret Hlen binds. split_and!.
  - intros final Hfin Htmp.
    apply (call_replaced_intro _ _ _ _ _ _ _ _ _ (Some final) true Hc Hf Hlen); [|done].
    unfold return_target_of. rewrite Hret. cbn [head].
    by rewrite assignment_pattern_exact, String.eqb_refl.
  - intros Hnext.
    apply (call_replaced_intro _ _ _ _ _ _ _ _ _ (Some target) false Hc Hf Hlen); [|done].
    unfold return_target_of. rewrite Hret.
    destruct (head rest) as [next|] eqn:Hh; [|done].
    destruct (assignment_pattern next) as [[final t]|] eqn:Ha; [|done].
    destruct (String.eqb_spec t target) as [->|]; [|done].
    by destruct (Hnext next final).
  - intros k dest copy i place Hcopy Hp Hi.
    destruct (Forall2_lookup_l _ _ _ _ _ Hcopy Hi) as (y & -> & Hy).
    rewrite copy_line_return in Hy by done. by injection Hy as <-.
Qed.

Lemma call_result_copy_collapsed_witness :
  inline_from InlinerExamples.registry
    (InlinerExamples.call_add_vars :: ("v_result_9" +:+ " = " +:+ "t2") :: ["STOP"]) 0
  = Ok (["v_a_2 = v_p_7"; "v_b_3 = v_q_8"; "REM L1_inline_1"; "t1 = v_a_2 + v_b_3";
         "v_t_4 = t1"; "v_result_9 = v_t_4"; "REM L2_inline_1"; "STOP"], 1) /\
  call_replaced InlinerExamples.registry
    (InlinerExamples.call_add_vars :: ("v_result_9" +:+ " = " +:+ "t2") :: ["STOP"]) 0
    (param_assignments (params InlinerExamples.add_body)
       (parse_call_args "v_p_7, v_q_8"))
    (body_ir InlinerExamples.add_body) (Some "v_result_9") ["STOP"].
Proof.
  split; [vm_compute; reflexivity|].
  refine (proj1 (call_result_copy_collapsed InlinerExamples.registry
                   InlinerExamples.call_add_vars "t2" "v_add_1" "v_p_7, v_q_8"
                   InlinerExamples.add_body ["STOP"] 0 _ _ _ _) "v_result_9" _ _);
    vm_compute; reflexivity.
Defined.

(** C6 as stated fails at two inputs.  A body [RETURN 5]: the line has no
    temporary and no unique name after RETURN, the copy of the call's result
    is left out and the line stays as it is, so nothing assigns to
    [v_x_2].  A call whose target is a variable: the next instruction is
    [<finalVar> = <target>] and it is kept, the body copy returns into the
    call's target. *)
Lemma call_result_copy_not_collapsed :
  inline_calls (init InlinerExamples.registry_five)
    ["t1 = CALL v_five_1()"; "v_x_2 = t1"; "STOP"]
  = Ok (["RETURN 5"; "STOP"], mkInliner InlinerExamples.registry_five 1) /\
  inline_calls (init InlinerExamples.registry) InlinerExamples.call_add_into_variable
  = Ok (["v_a_2 = 1"; "v_b_3 = 2"; "REM L1_inline_1"; "t1 = v_a_2 + v_b_3";
         "v_t_4 = t1"; "v_r_3 = v_t_4"; "REM L2_inline_1"; "v_x_2 = v_r_3"; "STOP"],
        mkInliner InlinerExamples.registry 1).
Proof. split; vm_compute; reflexivity. Qed.

(** *** Two calls of one function *)

Section two_calls.
Variable fb : gmap string FunctionBodyInfo.
Variables (F : string) (info : FunctionBodyInfo) (pre mid post : list string).
Variables (call1 call2 target1 args1 target2 args2 : string).
Hypothesis F_registered : fb !! F = Some info.
Hypothesis first_call : call_pattern call1 = Some (target1, F, args1).
Hypothesis second_call : call_pattern call2 = Some (target2, F, args2).
Hypothesis first_count : length (parse_call_args args1) = length (params info).
Hypothesis second_count : length (parse_call_args args2) = length (params info).
Hypothesis pre_copied : Forall (copied fb) pre.
Hypothesis mid_copied : Forall (copied fb) mid.



End two_calls.




End InlinerCopies.
